(** * MinIO gallery plugin: cache, synchronizer, lazy loader and search

    A shallow embedding of the TypeScript services of the gallery
    ([src/utils/ImageCache.ts], [src/services/SearchService.ts] with its
    [SyncService], [src/services/LazyImageService.ts] and the state handling
    of [MinioGalleryView]) together with the properties the design document
    states about them.

    Conventions of the embedding.
    - A JavaScript string is a [string]: its sequence of UTF-8 bytes, so
      that [new Blob([s]).size] is its length.
    - [Date.now()] and [Date.getTime()] are integers ([Z], milliseconds);
      the clock value read by a call is an explicit argument.
    - A [Map<string, V>] is an association list in insertion order, which
      is the order JavaScript iterates it in.
    - A thrown exception is the left summand of a sum; an awaited
      promise is resolved, rejected or never settled. *)

From Stdlib Require Import ZArith List String Ascii Bool Lia.
From Stdlib Require Import Permutation Sorted DecimalString.
Import ListNotations.
Local Open Scope string_scope.
Local Open Scope list_scope.
Local Open Scope Z_scope.

Set Implicit Arguments.

(** ** Insertion-ordered maps (JavaScript [Map] with string keys) *)

Module JsMap.

Section Ops.
Variable V : Type.

Definition t := list (string * V).

Definition empty : t := [].

(** [Map.prototype.get]: [None] stands for [undefined]. *)
Fixpoint get (k : string) (m : t) : option V :=
  match m with
  | [] => None
  | (k', v) :: r => if String.eqb k k' then Some v else get k r
  end.

Definition has (k : string) (m : t) : bool :=
  match get k m with Some _ => true | None => false end.

(** [Map.prototype.set]: an existing key keeps its position, a new key
    goes to the end. *)
Fixpoint set (k : string) (v : V) (m : t) : t :=
  match m with
  | [] => [(k, v)]
  | (k', v') :: r =>
      if String.eqb k k' then (k, v) :: r else (k', v') :: set k v r
  end.

(** [Map.prototype.delete]. *)
Definition delete (k : string) (m : t) : t :=
  filter (fun p => negb (String.eqb k (fst p))) m.

Definition keys (m : t) : list string := map fst m.

Definition size (m : t) : nat := List.length m.

(** The keys of a map are pairwise different. *)
Definition unique_keys (m : t) : Prop := NoDup (keys m).

(** [new Map(pairs)]: the pairs are inserted from left to right. *)
Definition of_list (l : list (string * V)) : t :=
  fold_left (fun m p => set (fst p) (snd p) m) l empty.

End Ops.

Arguments empty {V}.

End JsMap.

(** ** ImageCache.ts: the bounded URL cache *)

Module ImageCache.

(** The value type of [imageCache]. *)
Record entry : Type := mkEntry {
  data : string;
  timestamp : Z;
  size : Z
}.

(** The JSON document kept under [CACHE_KEY] in [localStorage]. *)
Record snapshot : Type := mkSnapshot {
  snap_data : JsMap.t entry;
  snap_timestamp : Z
}.

(** The static fields of the class, and the one [localStorage] slot it
    owns.  [saveTimeout] is [true] while a timer is armed. *)
Record state : Type := mkState {
  imageCache : JsMap.t entry;
  dirty : bool;
  saveTimeout : bool;
  localStorage : option snapshot
}.

(** What a call reads from its environment: the clock, and whether
    [localStorage.setItem] succeeds (it throws when the quota is full). *)
Record env : Type := mkEnv {
  now : Z;
  setItem_ok : bool
}.

Definition CACHE_EXPIRY : Z := 12 * 60 * 60 * 1000.
Definition MAX_CACHE_SIZE : Z := 50 * 1024 * 1024.

(** [MAX_CACHE_SIZE * 0.7].  The double nearest to 0.7 times 52428800
    rounds to the integer 36700160 exactly, so the comparison against it
    is a comparison of integers. *)
Definition targetSize : Z := MAX_CACHE_SIZE * 7 / 10.

(** [new Blob([data]).size]: the number of UTF-8 bytes. *)
Definition blobSize (data : string) : Z := Z.of_nat (String.length data).

Definition initial : state :=
  {| imageCache := JsMap.empty; dirty := false; saveTimeout := false;
     localStorage := None |}.

Definition with_map (s : state) (m : JsMap.t entry) : state :=
  {| imageCache := m; dirty := dirty s; saveTimeout := saveTimeout s;
     localStorage := localStorage s |}.

Definition getTotalCacheSize (m : JsMap.t entry) : Z :=
  fold_left (fun total p => total + size (snd p)) m 0.

(** [saveCache]: writes the whole map when the dirty flag is set; a failed
    write is logged and leaves the flag set. *)
Definition saveCache (e : env) (s : state) : state :=
  if dirty s then
    if setItem_ok e then
      {| imageCache := imageCache s; dirty := false;
         saveTimeout := saveTimeout s;
         localStorage :=
           Some {| snap_data := imageCache s; snap_timestamp := now e |} |}
    else s
  else s.

(** [scheduleSave]: (re)arms the one-second timer. *)
Definition scheduleSave (s : state) : state :=
  {| imageCache := imageCache s; dirty := dirty s; saveTimeout := true;
     localStorage := localStorage s |}.

(** The timer callback armed by [scheduleSave]. *)
Definition saveTimer (e : env) (s : state) : state :=
  let s1 := saveCache e s in
  {| imageCache := imageCache s1; dirty := dirty s1; saveTimeout := false;
     localStorage := localStorage s1 |}.

(** [Date.now() - cached.timestamp > CACHE_EXPIRY]. *)
Definition expired (e : env) (c : entry) : bool :=
  now e - timestamp c >? CACHE_EXPIRY.

(** [get]: [None] is the [null] of a miss. *)
Definition get (key : string) (e : env) (s : state) : option string * state :=
  match JsMap.get key (imageCache s) with
  | None => (None, s)
  | Some cached =>
      if expired e cached then
        (None, saveCache e (with_map s (JsMap.delete key (imageCache s))))
      else (Some (data cached), s)
  end.

Definition has (key : string) (e : env) (s : state) : bool * state :=
  match JsMap.get key (imageCache s) with
  | None => (false, s)
  | Some cached =>
      if expired e cached then
        (false, saveCache e (with_map s (JsMap.delete key (imageCache s))))
      else (true, s)
  end.

(** [Array.prototype.sort] is stable: with the comparator
    [a.timestamp - b.timestamp] an element stays in front of the later
    elements of the same timestamp.  This insertion sort is that sort. *)
Fixpoint insert_by_timestamp (p : string * entry) (l : list (string * entry))
  : list (string * entry) :=
  match l with
  | [] => [p]
  | q :: r =>
      if timestamp (snd p) <=? timestamp (snd q) then p :: q :: r
      else q :: insert_by_timestamp p r
  end.

Definition sort_by_timestamp (l : list (string * entry))
  : list (string * entry) :=
  fold_right insert_by_timestamp [] l.

(** The [for] loop of [cleanupOldCache].  [m] is the live map, which
    [getTotalCacheSize] reads again on every iteration, and [freedSize]
    the running sum of the sizes already deleted. *)
Fixpoint cleanup_loop (entries : list (string * entry)) (m : JsMap.t entry)
  (freedSize : Z) : JsMap.t entry :=
  match entries with
  | [] => m
  | (key, c) :: rest =>
      if getTotalCacheSize m - freedSize <=? targetSize then m
      else cleanup_loop rest (JsMap.delete key m) (freedSize + size c)
  end.

Definition cleanupOldCache (e : env) (s : state) : state :=
  let entries := sort_by_timestamp (imageCache s) in
  saveCache e (with_map s (cleanup_loop entries (imageCache s) 0)).

(** The test of [set] that decides whether eviction runs. *)
Definition needs_cleanup (data : string) (s : state) : bool :=
  getTotalCacheSize (imageCache s) + blobSize data >? MAX_CACHE_SIZE.

Definition set (key data : string) (e : env) (s : state) : state :=
  let dataSize := blobSize data in
  let s1 := if needs_cleanup data s then cleanupOldCache e s else s in
  let m := JsMap.set key
             {| data := data; timestamp := now e; size := dataSize |}
             (imageCache s1) in
  scheduleSave
    {| imageCache := m; dirty := true; saveTimeout := saveTimeout s1;
       localStorage := localStorage s1 |}.

Definition delete (key : string) (s : state) : state :=
  scheduleSave
    {| imageCache := JsMap.delete key (imageCache s); dirty := true;
       saveTimeout := saveTimeout s; localStorage := localStorage s |}.

Definition clear (s : state) : state :=
  {| imageCache := JsMap.empty; dirty := dirty s;
     saveTimeout := saveTimeout s; localStorage := None |}.

End ImageCache.

(** ** String primitives of JavaScript used by the services *)

Module JsString.

Definition toLowerChar (c : ascii) : ascii :=
  let n := nat_of_ascii c in
  if (Nat.leb 65 n && Nat.leb n 90)%bool then ascii_of_nat (n + 32) else c.

Definition toUpperChar (c : ascii) : ascii :=
  let n := nat_of_ascii c in
  if (Nat.leb 97 n && Nat.leb n 122)%bool then ascii_of_nat (n - 32) else c.

Fixpoint map_string (f : ascii -> ascii) (s : string) : string :=
  match s with
  | EmptyString => EmptyString
  | String c r => String (f c) (map_string f r)
  end.

(** [String.prototype.toLowerCase] on a string of ASCII characters: the
    letters A to Z are folded.  The host also folds the letters outside
    ASCII, which this function leaves as they are; a statement whose
    truth depends on how such letters are folded is made for strings with
    [isAscii]. *)
Definition toLowerCase (s : string) : string := map_string toLowerChar s.

Definition startsWith (s p : string) : bool := String.prefix p s.

(** [s.endsWith(suf)]: some tail of [s] is [suf]. *)
Fixpoint endsWith (s suf : string) : bool :=
  (String.eqb s suf
   || match s with
      | EmptyString => false
      | String _ r => endsWith r suf
      end)%bool.

(** [s.includes(sub)]: [sub] starts at some position of [s]. *)
Fixpoint includes (s sub : string) : bool :=
  (String.prefix sub s
   || match s with
      | EmptyString => false
      | String _ r => includes r sub
      end)%bool.

Fixpoint existsb_string (f : ascii -> bool) (s : string) : bool :=
  match s with
  | EmptyString => false
  | String c r => (f c || existsb_string f r)%bool
  end.

Fixpoint forallb_string (f : ascii -> bool) (s : string) : bool :=
  match s with
  | EmptyString => true
  | String c r => (f c && forallb_string f r)%bool
  end.

(** A string of ASCII characters: every byte is below 128.  On such
    strings a byte is a character and the case folding below is that of
    the host. *)
Definition isAsciiChar (c : ascii) : bool := Nat.ltb (nat_of_ascii c) 128.

Definition isAscii (s : string) : bool := forallb_string isAsciiChar s.

(** [s.slice(start, stop)], with the negative indices counted from the
    end. *)
Definition slice (s : string) (start stop : Z) : string :=
  let len := Z.of_nat (String.length s) in
  let from := if start <? 0 then Z.max (len + start) 0 else Z.min start len in
  let to := if stop <? 0 then Z.max (len + stop) 0 else Z.min stop len in
  String.substring (Z.to_nat from) (Z.to_nat (Z.max (to - from) 0)) s.

(** [s.slice(start)]. *)
Definition slice_from (s : string) (start : Z) : string :=
  slice s start (Z.of_nat (String.length s)).

(** White space of ASCII: tab, line feed, vertical tab, form feed,
    carriage return and space. *)
Definition isWhiteSpace (c : ascii) : bool :=
  let n := nat_of_ascii c in
  (Nat.leb 9 n && Nat.leb n 13 || Nat.eqb n 32)%bool.

(** The white space and the line terminators outside ASCII that
    [String.prototype.trim] strips, by the bytes of their UTF-8 form:
    U+00A0 (two bytes), and U+1680, U+2000 to U+200A, U+2028, U+2029,
    U+202F, U+205F, U+3000 and U+FEFF (three bytes). *)
Definition isWhiteSpace2 (c1 c2 : ascii) : bool :=
  (Nat.eqb (nat_of_ascii c1) 194 && Nat.eqb (nat_of_ascii c2) 160)%bool.

Definition isWhiteSpace3 (c1 c2 c3 : ascii) : bool :=
  let n1 := nat_of_ascii c1 in
  let n2 := nat_of_ascii c2 in
  let n3 := nat_of_ascii c3 in
  (Nat.eqb n1 225 && Nat.eqb n2 154 && Nat.eqb n3 128
   || Nat.eqb n1 226 && Nat.eqb n2 128
      && (Nat.leb 128 n3 && Nat.leb n3 138
          || Nat.eqb n3 168 || Nat.eqb n3 169 || Nat.eqb n3 175)
   || Nat.eqb n1 226 && Nat.eqb n2 129 && Nat.eqb n3 159
   || Nat.eqb n1 227 && Nat.eqb n2 128 && Nat.eqb n3 128
   || Nat.eqb n1 239 && Nat.eqb n2 187 && Nat.eqb n3 191)%bool.

(** [s.trim() === ''] (equivalently [!s.trim()]): the string consists of
    white space and line terminators only. *)
Fixpoint trim_is_empty (s : string) : bool :=
  match s with
  | EmptyString => true
  | String c1 r1 =>
      if isWhiteSpace c1 then trim_is_empty r1
      else if isAsciiChar c1 then false
      else
        match r1 with
        | EmptyString => false
        | String c2 r2 =>
            if isWhiteSpace2 c1 c2 then trim_is_empty r2
            else
              match r2 with
              | EmptyString => false
              | String c3 r3 =>
                  if isWhiteSpace3 c1 c2 c3 then trim_is_empty r3 else false
              end
        end
  end.

End JsString.

(** ** types/gallery.ts *)

Module Types.

(** [MinioObject]: [lastModified] is optional; a [Date] is represented by
    its [getTime()]. *)
Record MinioObject : Type := mkObject {
  name : string;
  lastModified : option Z
}.

Record SyncChanges : Type := mkChanges {
  hasChanges : bool;
  added : list MinioObject;
  deleted : list string;
  modified : list MinioObject
}.

Record SearchResult : Type := mkSearchResult {
  matchedObjects : list MinioObject;
  totalCount : nat
}.

Record GalleryState : Type := mkGalleryState {
  remoteObjects : list MinioObject;
  visibleImages : list MinioObject;
  isSearching : bool;
  savedSearchTerm : string;
  useRegexSearch : bool;
  currentPreviewIndex : option Z;
  isLoading : bool
}.

(** How an awaited promise ends; [Pending] is a promise that is never
    settled. *)
Inductive promise (A : Type) : Type :=
| Resolved (a : A)
| Rejected (message : string)
| Pending.

Arguments Rejected {A} message.
Arguments Pending {A}.

End Types.

(** ** utils/FileUtils.ts *)

Module FileUtils.

Definition IMAGE_EXTENSIONS : list string :=
  [".jpg"; ".jpeg"; ".png"; ".gif"; ".webp"; ".bmp"; ".svg"].

Definition isImageFile (filename : string) : bool :=
  existsb (fun ext => JsString.endsWith (JsString.toLowerCase filename) ext)
          IMAGE_EXTENSIONS.

End FileUtils.

(** ** SyncService *)

Module SyncService.
Import Types.

(** What the listing stream of the client emits. *)
Inductive stream_event : Type :=
| OnData (obj : MinioObject)
| OnEnd
| OnError (message : string).

(** [lastModified?.getTime() || 0]. *)
Definition time_or_zero (o : MinioObject) : Z :=
  match lastModified o with Some t => t | None => 0 end.

(** The stable sort with comparator [time(b) - time(a)]: descending. *)
Fixpoint insert_desc (o : MinioObject) (l : list MinioObject)
  : list MinioObject :=
  match l with
  | [] => [o]
  | q :: r =>
      if time_or_zero q <=? time_or_zero o then o :: q :: r
      else q :: insert_desc o r
  end.

Definition sort_desc (l : list MinioObject) : list MinioObject :=
  fold_right insert_desc [] l.

(** The listing is in the order [sort_desc] produces: no object is
    followed by one with a greater time. *)
Fixpoint is_sorted_desc (l : list MinioObject) : bool :=
  match l with
  | [] => true
  | o :: r =>
      match r with
      | [] => true
      | q :: _ => ((time_or_zero q <=? time_or_zero o) && is_sorted_desc r)%bool
      end
  end.

(** The events of a stream that lists [l] and ends. *)
Definition listing (l : list MinioObject) : list stream_event :=
  map OnData l ++ [OnEnd].

(** [fetchRemoteObjects]: the handlers of ['data'], ['end'] and ['error']
    run over the events of the stream; the first ['end'] or ['error']
    settles the promise.  An object with an empty (falsy) name is
    skipped. *)
Fixpoint fetch_events (events : list stream_event)
  (objects : list MinioObject) : promise (list MinioObject) :=
  match events with
  | [] => Pending
  | OnData obj :: rest =>
      if String.eqb (name obj) "" then fetch_events rest objects
      else fetch_events rest
             (objects ++ [{| name := name obj;
                             lastModified := lastModified obj |}])
  | OnEnd :: _ => Resolved (sort_desc objects)
  | OnError message :: _ => Rejected message
  end.

Definition fetchRemoteObjects (events : list stream_event)
  : promise (list MinioObject) :=
  fetch_events events [].

Definition to_map (l : list MinioObject) : JsMap.t (option Z) :=
  JsMap.of_list (map (fun obj => (name obj, lastModified obj)) l).

(** [remote.find(obj => obj.name === name)]. *)
Definition find_by_name (n : string) (l : list MinioObject)
  : option MinioObject :=
  find (fun obj => String.eqb (name obj) n) l.

(** The pushed value [remote.find(...)!]; the name comes from the keys of
    the map built from [remote], so the search succeeds. *)
Definition push_found (acc : list MinioObject) (n : string)
  (remote : list MinioObject) : list MinioObject :=
  match find_by_name n remote with
  | Some obj => acc ++ [obj]
  | None => acc
  end.

(** The first loop of [detectChanges], over the entries of [remoteMap];
    the accumulator is [(added, modified, hasChanges)].
    [localMap.get(name)] is falsy when the key is absent and also when the
    key is present without a [lastModified]. *)
Fixpoint scan_remote (entries : list (string * option Z))
  (localMap : JsMap.t (option Z)) (remote : list MinioObject)
  (acc : list MinioObject * list MinioObject * bool)
  : list MinioObject * list MinioObject * bool :=
  match entries with
  | [] => acc
  | (n, remoteModified) :: rest =>
      let '(added, modified, hasChanges) := acc in
      match JsMap.get n localMap with
      | Some (Some localTime) =>
          if match remoteModified with
             | Some remoteTime => negb (remoteTime =? localTime)
             | None => true
             end
          then scan_remote rest localMap remote
                 (added, push_found modified n remote, true)
          else scan_remote rest localMap remote (added, modified, hasChanges)
      | _ =>
          scan_remote rest localMap remote
            (push_found added n remote, modified, true)
      end
  end.

(** The second loop, over the keys of [localMap]; the accumulator is
    [(deleted, hasChanges)]. *)
Fixpoint scan_local (localKeys : list string) (remoteMap : JsMap.t (option Z))
  (acc : list string * bool) : list string * bool :=
  match localKeys with
  | [] => acc
  | n :: rest =>
      if JsMap.has n remoteMap then scan_local rest remoteMap acc
      else scan_local rest remoteMap (fst acc ++ [n], true)
  end.

Definition detectChanges (local remote : list MinioObject) : SyncChanges :=
  let localMap := to_map local in
  let remoteMap := to_map remote in
  let '(added, modified, hasChanges1) :=
    scan_remote remoteMap localMap remote ([], [], false) in
  let '(deleted, hasChanges2) :=
    scan_local (JsMap.keys localMap) remoteMap ([], hasChanges1) in
  {| hasChanges := hasChanges2;
     added := added; deleted := deleted; modified := modified |}.

(** The names of a listing, and the [lastModified] the map built from the
    listing holds for a name (for a listing without repeated names, the
    [lastModified] of the object of that name). *)
Definition names (l : list MinioObject) : list string := map name l.

Definition lookup (n : string) (l : list MinioObject) : option (option Z) :=
  JsMap.get n (to_map l).

(** The first loop in closed form: what an entry of [remoteMap] adds to
    [added] and to [modified]. *)
Definition found (n : string) (remote : list MinioObject)
  : list MinioObject :=
  match find_by_name n remote with
  | Some obj => [obj]
  | None => []
  end.

Definition counts_as_added (localMap : JsMap.t (option Z))
  (p : string * option Z) : bool :=
  match JsMap.get (fst p) localMap with
  | Some (Some _) => false
  | _ => true
  end.

Definition counts_as_modified (localMap : JsMap.t (option Z))
  (p : string * option Z) : bool :=
  match JsMap.get (fst p) localMap with
  | Some (Some localTime) =>
      match snd p with
      | Some remoteTime => negb (remoteTime =? localTime)
      | None => true
      end
  | _ => false
  end.

(** [sync]: the cache is the static [ImageCache]; the result is the
    promise the caller awaits. *)
Definition sync (cache : ImageCache.state) (localObjects : list MinioObject)
  (events : list stream_event)
  : ImageCache.state * promise (list MinioObject * SyncChanges) :=
  match fetchRemoteObjects events with
  | Resolved remoteObjects =>
      let changes := detectChanges localObjects remoteObjects in
      let cache' :=
        if hasChanges changes
        then fold_left (fun c objectName => ImageCache.delete objectName c)
               (deleted changes) cache
        else cache in
      (cache', Resolved (remoteObjects, changes))
  | Rejected message => (cache, Rejected message)
  | Pending => (cache, Pending)
  end.

End SyncService.

(** ** A model of [new RegExp(pattern, 'i')] and [regex.test]

    The regular expressions of the host are not code of the plugin.  This
    model covers the patterns made of literal characters, [.] and the
    quantifier [*] on one character: the patterns the wildcard rewriting
    of the search service produces from a text without metacharacters.
    A pattern that uses another syntax character is rejected by the model
    with [unsupported]; nothing below is claimed about such a pattern.
    Letter case is folded on ASCII. *)

Module RegExpModel.

Inductive atom : Type :=
| AChar (c : ascii)
| ADot.

Record item : Type := mkItem {
  item_atom : atom;
  item_star : bool
}.

Definition regex : Type := list item.

(** The syntax characters of the pattern grammar. *)
Definition syntax_characters : string := "^$\.*+?()[]{}|".

Definition isSyntaxCharacter (c : ascii) : bool :=
  JsString.existsb_string (Ascii.eqb c) syntax_characters.

Definition nothing_to_repeat : string := "Nothing to repeat".
Definition unsupported : string := "unsupported".

Definition cons_item (i : item) (r : string + regex) : string + regex :=
  match r with
  | inl message => inl message
  | inr items => inr (i :: items)
  end.

(** The parser, for the patterns made of literal characters, [.] and
    [*]: a [*] needs a character or a [.] in front of it, else the host
    gives the reason [nothing_to_repeat].  A pattern with another syntax
    character is outside this model, which answers [unsupported] (the
    host may well accept it); no statement below is about such a
    pattern. *)
Fixpoint parse (p : string) : string + regex :=
  match p with
  | EmptyString => inr []
  | String c rest =>
      if Ascii.eqb c "*" then inl nothing_to_repeat
      else if (isSyntaxCharacter c && negb (Ascii.eqb c "."))%bool
      then inl unsupported
      else
        let a := if Ascii.eqb c "." then ADot else AChar c in
        match rest with
        | String c' rest' =>
            if Ascii.eqb c' "*"
            then cons_item {| item_atom := a; item_star := true |}
                           (parse rest')
            else cons_item {| item_atom := a; item_star := false |}
                           (parse rest)
        | EmptyString => inr [{| item_atom := a; item_star := false |}]
        end
  end.

(** [new RegExp(pattern, 'i')]: the message of the [SyntaxError], or the
    regex.  The message is the one of the engine the plugin runs on (V8):
    the pattern between slashes, the flag, and the reason. *)
Definition RegExp_i (pattern : string) : string + regex :=
  match parse pattern with
  | inl reason =>
      inl ("Invalid regular expression: /" ++ pattern ++ "/i: " ++ reason)%string
  | inr r => inr r
  end.

(** The canonical form of a character under the flag [i], for the
    characters of ASCII: the upper-case letter.  The host also folds
    letters outside ASCII (and never folds one of them to an ASCII
    character); the theorems on which strings a pattern matches are
    stated for patterns and strings with [JsString.isAscii]. *)
Definition canonicalize (c : ascii) : ascii := JsString.toUpperChar c.

(** Line feed and carriage return, which [.] does not match (of the
    characters of ASCII; the host has two more, outside ASCII). *)
Definition isLineTerminator (c : ascii) : bool :=
  (Ascii.eqb c "010" || Ascii.eqb c "013")%bool.

Definition atom_matches (a : atom) (c : ascii) : bool :=
  match a with
  | AChar x => Ascii.eqb (canonicalize x) (canonicalize c)
  | ADot => negb (isLineTerminator c)
  end.

(** [match_here r s]: [r] matches a prefix of [s]. *)
Fixpoint match_here (r : regex) (s : string) {struct r} : bool :=
  match r with
  | [] => true
  | {| item_atom := a; item_star := false |} :: r' =>
      match s with
      | EmptyString => false
      | String c s' => (atom_matches a c && match_here r' s')%bool
      end
  | {| item_atom := a; item_star := true |} :: r' =>
      (fix star (s : string) : bool :=
         (match_here r' s
          || match s with
             | EmptyString => false
             | String c s' => (atom_matches a c && star s')%bool
             end)%bool) s
  end.

(** [regex.test(s)] for a regex without the flags [g] and [y]: a match
    may start at any position. *)
Fixpoint test (r : regex) (s : string) : bool :=
  (match_here r s
   || match s with
      | EmptyString => false
      | String _ s' => test r s'
      end)%bool.

End RegExpModel.

(** ** SearchService *)

Module SearchService.
Import Types.

(** [/[()[?+]/.test(pattern)]. *)
Definition hasSpecialChars (pattern : string) : bool :=
  JsString.existsb_string
    (fun c => JsString.existsb_string (Ascii.eqb c) "()[?+") pattern.

Definition convertWildcardToRegex (pattern : string) : string :=
  if negb (hasSpecialChars pattern) then
    if (JsString.startsWith pattern "*" && JsString.endsWith pattern "*")%bool
    then ".*" ++ JsString.slice pattern 1 (-1) ++ ".*"
    else if JsString.startsWith pattern "*"
    then JsString.slice_from pattern 1 ++ ".*"
    else if JsString.endsWith pattern "*"
    then ".*" ++ JsString.slice pattern 0 (-1)
    else pattern
  else pattern.

Section Service.
(** The constructor argument of the service. *)
Variable generateUrl : string -> string.
(** The translation function of [i18n]. *)
Variable t : string -> string.
(** The regular expressions of the host: [new RegExp(pattern, 'i')],
    which throws a [SyntaxError] with a message, and [regex.test]. *)
Variable R : Type.
Variable newRegExp : string -> string + R.
Variable test : R -> string -> bool.

(** [cachedUrl || this.generateUrl(obj.name)], and whether [cachedUrl]
    was truthy. *)
Definition resolve_url (allImageUrls : JsMap.t string) (objectName : string)
  : string * bool :=
  match JsMap.get objectName allImageUrls with
  | Some cachedUrl =>
      if String.eqb cachedUrl "" then (generateUrl objectName, false)
      else (cachedUrl, true)
  | None => (generateUrl objectName, false)
  end.

(** The loop shared by both searches, for a predicate on the URL. *)
Fixpoint search_loop (matches : string -> bool) (objects : list MinioObject)
  (allImageUrls : JsMap.t string) (matchedObjects : list MinioObject)
  : JsMap.t string * list MinioObject :=
  match objects with
  | [] => (allImageUrls, matchedObjects)
  | obj :: rest =>
      if negb (FileUtils.isImageFile (name obj))
      then search_loop matches rest allImageUrls matchedObjects
      else
        let '(url, wasCached) := resolve_url allImageUrls (name obj) in
        if matches url then
          search_loop matches rest
            (if wasCached then allImageUrls
             else JsMap.set (name obj) url allImageUrls)
            (matchedObjects ++ [obj])
        else search_loop matches rest allImageUrls matchedObjects
  end.

(** [convertWildcardToRegex], [new RegExp] and [regex.test] as
    [regexSearch] chains them for one URL. *)
Definition regexTest (searchText url : string) : string + bool :=
  match newRegExp (convertWildcardToRegex searchText) with
  | inl message => inl message
  | inr regex => inr (test regex url)
  end.

(** [regexSearch]: the [catch] block logs and throws
    [t('Invalid regex pattern') + ': ' + message]. *)
Definition regexSearch (allImageUrls : JsMap.t string)
  (objects : list MinioObject) (searchText : string)
  : JsMap.t string * (string + list MinioObject) :=
  match newRegExp (convertWildcardToRegex searchText) with
  | inl errorMessage =>
      (allImageUrls, inl (t "Invalid regex pattern" ++ ": " ++ errorMessage)%string)
  | inr regex =>
      let '(urls, matched) :=
        search_loop (test regex) objects allImageUrls [] in
      (urls, inr matched)
  end.

Definition textSearch (allImageUrls : JsMap.t string)
  (objects : list MinioObject) (searchText : string)
  : JsMap.t string * list MinioObject :=
  let lowerSearchText := JsString.toLowerCase searchText in
  search_loop
    (fun url => JsString.includes (JsString.toLowerCase url) lowerSearchText)
    objects allImageUrls [].

Definition search (allImageUrls : JsMap.t string)
  (objects : list MinioObject) (searchText : string) (useRegex : bool)
  : JsMap.t string * (string + SearchResult) :=
  if JsString.trim_is_empty searchText then
    (allImageUrls,
     inr {| matchedObjects := objects; totalCount := List.length objects |})
  else if useRegex then
    match regexSearch allImageUrls objects searchText with
    | (urls, inl message) => (urls, inl message)
    | (urls, inr result) =>
        (urls, inr {| matchedObjects := result;
                      totalCount := List.length result |})
    end
  else
    let '(urls, result) := textSearch allImageUrls objects searchText in
    (urls, inr {| matchedObjects := result;
                  totalCount := List.length result |}).

End Service.

End SearchService.

(** ** LazyImageService *)

Module LazyImageService.

(** The attributes of an [<img>] the service reads and writes. *)
Record image : Type := mkImage {
  src : string;
  dataSrc : option string;
  classList : list string
}.

(** What the service does to the outside, in order. *)
Inductive action : Type :=
| LoadAttempt (attempt : Z) (url : string)
| Sleep (milliseconds : Z)
| ImageLoaded (url : string)
| LoadFailed (url : string).

(** The resolved options of the constructor. *)
Record options : Type := mkOptions {
  retryCount : Z;
  timeout : Z
}.

(** [options.retryCount ?? 3] and [options.timeout ?? 8000]. *)
Definition resolve_options (retryCount' timeout' : option Z) : options :=
  {| retryCount := match retryCount' with Some n => n | None => 3 end;
     timeout := match timeout' with Some n => n | None => 8000 end |}.

Definition set_src (img : image) (url : string) : image :=
  {| src := url; dataSrc := dataSrc img; classList := classList img |}.

(** [img.classList.add(cls)]. *)
Definition add_class (img : image) (cls : string) : image :=
  {| src := src img; dataSrc := dataSrc img;
     classList := if existsb (String.eqb cls) (classList img)
                  then classList img else classList img ++ [cls] |}.

Definition remove_data_src (img : image) : image :=
  {| src := src img; dataSrc := None; classList := classList img |}.

(** [Math.min(1000 * Math.pow(2, attempt - 1), 3000)]. *)
Definition backoff_delay (attempt : Z) : Z :=
  Z.min (1000 * 2 ^ (attempt - 1)) 3000.

Section Service.
(** The data URL [getPlaceholderUrl()] returns. *)
Variable placeholderUrl : string.

(** The [for] loop of [loadImageWithRetry].  [outcome attempt] tells
    whether [loadImage] resolves ([true]) or rejects, by [onerror] or by
    its timeout, on that attempt.  [fuel] bounds the iterations; [None]
    is a loop cut short by it. *)
Fixpoint retry_loop (fuel : nat) (attempt maxRetries : Z) (url : string)
  (outcome : Z -> bool) (img : image) (log : list action)
  : option (image * list action) :=
  if attempt <=? maxRetries then
    match fuel with
    | O => None
    | S fuel' =>
        let img1 := set_src img url in
        let log1 := log ++ [LoadAttempt attempt url] in
        if outcome attempt then
          Some (add_class img1 "loaded", log1 ++ [ImageLoaded url])
        else if attempt =? maxRetries then
          Some (set_src (add_class img1 "error") placeholderUrl,
                log1 ++ [LoadFailed url])
        else
          retry_loop fuel' (attempt + 1) maxRetries url outcome img1
            (log1 ++ [Sleep (backoff_delay attempt)])
    end
  else Some (img, log).

Definition loadImageWithRetry (url : string) (img : image)
  (maxRetries : Z) (outcome : Z -> bool) : option (image * list action) :=
  retry_loop (Z.to_nat maxRetries) 1 maxRetries url outcome img [].

(** One image under the service: the element, whether it is in
    [imageElements], whether the idle callback of [observe] is still to
    run, and whether the [IntersectionObserver] watches it. *)
Record element : Type := mkElement {
  img : image;
  registered : bool;
  idlePending : bool;
  observed : bool
}.

(** What can happen to an element after it was created. *)
Inductive event : Type :=
| Observe
| IdleCallback
| Intersection (isIntersecting : bool) (outcome : Z -> bool)
| Unobserve.

Definition has_data_src (i : image) : bool :=
  match dataSrc i with
  | Some s => negb (String.eqb s "")
  | None => false
  end.

(** One event on one element: the new element and what was done. *)
Definition step (opts : options) (ev : event) (el : element)
  : element * list action :=
  match ev with
  | Observe =>
      if has_data_src (img el) then
        ({| img := img el; registered := true; idlePending := true;
            observed := observed el |}, [])
      else (el, [])
  | IdleCallback =>
      if idlePending el then
        ({| img := img el; registered := registered el;
            idlePending := false;
            observed := (observed el || has_data_src (img el))%bool |}, [])
      else (el, [])
  | Intersection isIntersecting outcome =>
      if (observed el && isIntersecting)%bool then
        match dataSrc (img el) with
        | Some url =>
            if (negb (String.eqb url "")
                && negb (String.eqb (src (img el)) url))%bool then
              match loadImageWithRetry url (remove_data_src (img el))
                      (retryCount opts) outcome with
              | Some (img', log) =>
                  ({| img := img'; registered := registered el;
                      idlePending := idlePending el; observed := false |},
                   log)
              | None => (el, [])
              end
            else (el, [])
        | None => (el, [])
        end
      else (el, [])
  | Unobserve =>
      ({| img := img el; registered := false;
          idlePending := idlePending el; observed := false |}, [])
  end.

Fixpoint run (opts : options) (evs : list event) (el : element)
  : element * list action :=
  match evs with
  | [] => (el, [])
  | ev :: rest =>
      let '(el1, log1) := step opts ev el in
      let '(el2, log2) := run opts rest el1 in
      (el2, log1 ++ log2)
  end.

End Service.

(** [count] failed attempts from [attempt] on, each followed by its
    back-off pause. *)
Fixpoint failed_rounds (url : string) (attempt : Z) (count : nat)
  : list action :=
  match count with
  | O => []
  | S count' =>
      LoadAttempt attempt url :: Sleep (backoff_delay attempt)
      :: failed_rounds url (attempt + 1) count'
  end.

(** The image after the last attempt failed. *)
Definition failed_image (placeholderUrl : string) (i : image) : image :=
  {| src := placeholderUrl; dataSrc := dataSrc i;
     classList := classList (add_class i "error") |}.

Definition is_attempt (a : action) : bool :=
  match a with LoadAttempt _ _ => true | _ => false end.

Definition attempts (log : list action) : nat :=
  List.length (filter is_attempt log).

End LazyImageService.

(** ** MinioGalleryView: the state handling of the gallery *)

Module MinioGalleryView.
Import Types.

Inductive indicator : Type :=
| Spinner
| LoadFailedText.

Section View.
Variable generateUrl : string -> string.
Variable t : string -> string.
Variable R : Type.
Variable newRegExp : string -> string + R.
Variable test : R -> string -> bool.
(** [ImageGrid.renderImages]: builds the elements and resolves every URL
    through the cache. *)
Variable renderImages :
  list MinioObject -> ImageCache.state -> ImageCache.state.

(** The fields of the view the operations below touch.  [grid] is what
    the image grid shows, [None] when there is no grid; [notices] are
    the messages shown with [new Notice]. *)
Record view : Type := mkView {
  state : GalleryState;
  lastLoadTime : Z;
  bucket : string;
  grid : option (list MinioObject);
  indicators : list indicator;
  notices : list string;
  cache : ImageCache.state;
  allImageUrls : JsMap.t string
}.

Definition isImageFile (filename : string) : bool :=
  existsb (fun ext => JsString.endsWith (JsString.toLowerCase filename) ext)
          [".jpg"; ".jpeg"; ".png"; ".gif"; ".webp"].

Definition set_isLoading (b : bool) (s : GalleryState) : GalleryState :=
  {| remoteObjects := remoteObjects s; visibleImages := visibleImages s;
     isSearching := isSearching s; savedSearchTerm := savedSearchTerm s;
     useRegexSearch := useRegexSearch s;
     currentPreviewIndex := currentPreviewIndex s; isLoading := b |}.

Definition set_remoteObjects (l : list MinioObject) (s : GalleryState)
  : GalleryState :=
  {| remoteObjects := l; visibleImages := visibleImages s;
     isSearching := isSearching s; savedSearchTerm := savedSearchTerm s;
     useRegexSearch := useRegexSearch s;
     currentPreviewIndex := currentPreviewIndex s;
     isLoading := isLoading s |}.

Definition set_visibleImages (l : list MinioObject) (s : GalleryState)
  : GalleryState :=
  {| remoteObjects := remoteObjects s; visibleImages := l;
     isSearching := isSearching s; savedSearchTerm := savedSearchTerm s;
     useRegexSearch := useRegexSearch s;
     currentPreviewIndex := currentPreviewIndex s;
     isLoading := isLoading s |}.

Definition set_search (searching : bool) (term : string) (s : GalleryState)
  : GalleryState :=
  {| remoteObjects := remoteObjects s; visibleImages := visibleImages s;
     isSearching := searching; savedSearchTerm := term;
     useRegexSearch := useRegexSearch s;
     currentPreviewIndex := currentPreviewIndex s;
     isLoading := isLoading s |}.

(** The [catch] and [finally] blocks of [loadGallery]. *)
Definition load_failed (v : view) (c : ImageCache.state) : view :=
  {| state := set_isLoading false (state v);
     lastLoadTime := lastLoadTime v; bucket := bucket v; grid := grid v;
     indicators := removelast (indicators v) ++ [LoadFailedText];
     notices := notices v; cache := c; allImageUrls := allImageUrls v |}.

Definition loadGallery (forceRefresh : bool) (currentTime : Z)
  (events : list SyncService.stream_event) (v : view) : view :=
  if isLoading (state v) then v
  else if (negb forceRefresh && (currentTime - lastLoadTime v <? 60000))%bool
  then v
  else
    let v1 :=
      {| state := set_isLoading true (state v);
         lastLoadTime := currentTime; bucket := bucket v; grid := None;
         indicators := indicators v ++ [Spinner];
         notices := notices v; cache := cache v;
         allImageUrls := allImageUrls v |} in
    if String.eqb (bucket v1) "" then load_failed v1 (cache v1)
    else
      match SyncService.sync (cache v1) (remoteObjects (state v1)) events
      with
      | (c, Pending) =>
          {| state := state v1; lastLoadTime := lastLoadTime v1;
             bucket := bucket v1; grid := grid v1;
             indicators := indicators v1; notices := notices v1;
             cache := c; allImageUrls := allImageUrls v1 |}
      | (c, Rejected _) => load_failed v1 c
      | (c, Resolved (objects, _)) =>
          let imageObjects :=
            SyncService.sort_desc
              (filter (fun obj => isImageFile (name obj)) objects) in
          {| state :=
               set_isLoading false
                 (set_search false (savedSearchTerm (state v1))
                    (set_visibleImages imageObjects
                       (set_remoteObjects objects (state v1))));
             lastLoadTime := lastLoadTime v1; bucket := bucket v1;
             grid := Some imageObjects;
             indicators := removelast (indicators v1);
             notices := notices v1;
             cache := renderImages imageObjects c;
             allImageUrls := allImageUrls v1 |}
      end.

(** The tail of the [try] block of [handleSearch]. *)
Definition show_results (objectsToRender : list MinioObject)
  (s : GalleryState) (urls : JsMap.t string) (v : view) : view :=
  {| state := set_visibleImages objectsToRender s;
     lastLoadTime := lastLoadTime v; bucket := bucket v;
     grid := Some objectsToRender; indicators := indicators v;
     notices := notices v;
     cache := renderImages objectsToRender (cache v);
     allImageUrls := urls |}.

Definition handleSearch (searchText : string) (v : view) : view :=
  if isLoading (state v) then v
  else
    let s1 := set_search true searchText (state v) in
    if JsString.trim_is_empty searchText then
      show_results
        (filter (fun obj => isImageFile (name obj)) (remoteObjects s1))
        (set_search false "" s1) (allImageUrls v) v
    else
      match SearchService.search generateUrl t newRegExp test
              (allImageUrls v) (remoteObjects s1) searchText
              (useRegexSearch s1) with
      | (urls, inr result) =>
          show_results (matchedObjects result) s1 urls v
      | (urls, inl message) =>
          {| state := s1; lastLoadTime := lastLoadTime v;
             bucket := bucket v; grid := grid v;
             indicators := indicators v;
             notices := notices v ++ [message];
             cache := cache v; allImageUrls := urls |}
      end.

End View.

End MinioGalleryView.

(** ** The vocabulary of the wildcard claims *)

Module Wildcard.

(** The text has no character of the pattern grammar. *)
Definition noMetaCharacters (x : string) : bool :=
  JsString.forallb_string (fun c => negb (RegExpModel.isSyntaxCharacter c)) x.

(** The text with its letters folded as the flag [i] folds them. *)
Definition fold_case (s : string) : string :=
  JsString.map_string RegExpModel.canonicalize s.

(** [url] contains, starts with, ends with [x], letter case ignored. *)
Definition includes_ci (url x : string) : bool :=
  JsString.includes (fold_case url) (fold_case x).

Definition startsWith_ci (url x : string) : bool :=
  JsString.startsWith (fold_case url) (fold_case x).

Definition endsWith_ci (url x : string) : bool :=
  JsString.endsWith (fold_case url) (fold_case x).

(** Whether the search in regex mode keeps a URL, in the model of the
    regular expressions above. *)
Definition matches (searchText url : string) : string + bool :=
  SearchService.regexTest RegExpModel.RegExp_i RegExpModel.test
    searchText url.

(** The pattern does not start with a star. *)
Definition starts_without_star (p : string) : Prop :=
  match p with
  | EmptyString => True
  | String c _ => Ascii.eqb c "*" = false
  end.

(** The literal characters of [x] as a regex. *)
Fixpoint literals (x : string) : RegExpModel.regex :=
  match x with
  | EmptyString => []
  | String c r =>
      {| RegExpModel.item_atom := RegExpModel.AChar c;
         RegExpModel.item_star := false |} :: literals r
  end.

(** The regex [.*]. *)
Definition dot_star : RegExpModel.item :=
  {| RegExpModel.item_atom := RegExpModel.ADot;
     RegExpModel.item_star := true |}.

End Wildcard.

(** ** The per-session URL map of the search service *)

Module SearchCache.

(** Every URL the map holds is the URL the generator gives for its key:
    true of the empty map and kept by every search. *)
Definition consistent (generateUrl : string -> string)
  (allImageUrls : JsMap.t string) : Prop :=
  forall n u, JsMap.get n allImageUrls = Some u -> u = generateUrl n.

(** The URLs a search looks at are strings of ASCII characters: those
    the map holds, and those the generator gives for the objects. *)
Definition ascii_cached (allImageUrls : JsMap.t string) : Prop :=
  forall n u, JsMap.get n allImageUrls = Some u -> JsString.isAscii u = true.

Definition ascii_generated (generateUrl : string -> string)
  (objects : list Types.MinioObject) : Prop :=
  forall obj, In obj objects ->
              JsString.isAscii (generateUrl (Types.name obj)) = true.

End SearchCache.

(** ** ImageCache.ts: statistics and the snapshot read at start *)

Module ImageCacheSession.
Import ImageCache.

(** The result of [getStats].  [totalSizeMB] is a number with two
    decimals; the record holds it in hundredths:
    [Math.round(totalSize / 2^20 * 100)], where the division by a power of
    two and, below 2^53 / 100 bytes, the product are exact. *)
Record stats : Type := mkStats {
  count : nat;
  totalSize : Z;
  totalSizeMB_hundredths : Z
}.

Definition getStats (s : state) : stats :=
  let total := getTotalCacheSize (imageCache s) in
  {| count := JsMap.size (imageCache s);
     totalSize := total;
     totalSizeMB_hundredths := (total * 100 + 524288) / 1048576 |}.

(** The sum the statistics should report: the bytes of the stored
    values. *)
Definition stored_bytes (m : JsMap.t entry) : Z :=
  fold_right Z.add 0 (map (fun p => blobSize (data (snd p))) m).

(** Every entry records the bytes of its value, and no key occurs
    twice. *)
Definition sizes_exact (m : JsMap.t entry) : Prop :=
  Forall (fun p => size (snd p) = blobSize (data (snd p))) m.

Definition well_formed (m : JsMap.t entry) : Prop :=
  JsMap.unique_keys m /\ sizes_exact m.

(** The order of the eviction, and the deletion of a list of entries. *)
Definition older_or_equal (p q : string * entry) : Prop :=
  timestamp (snd p) <= timestamp (snd q).

Definition delete_all (l : list (string * entry)) (m : JsMap.t entry)
  : JsMap.t entry :=
  fold_left (fun m' p => JsMap.delete (fst p) m') l m.

(** The order in which [Object.entries] lists the keys of the object that
    [Object.fromEntries] built from the map: the array indices (canonical
    decimal numerals below 2^32 - 1) in ascending order, then the other
    keys in insertion order. *)
Definition isDigit (c : ascii) : bool :=
  let n := nat_of_ascii c in (Nat.leb 48 n && Nat.leb n 57)%bool.

Fixpoint digits_value (s : string) (acc : N) : N :=
  match s with
  | EmptyString => acc
  | String c r => digits_value r (acc * 10 + (N_of_ascii c - 48))%N
  end.

Definition array_index (k : string) : option N :=
  match k with
  | EmptyString => None
  | String c r =>
      if (JsString.forallb_string isDigit k
          && (negb (Ascii.eqb c "0") || String.eqb r ""))%bool
      then let v := digits_value k 0 in
           if (v <=? 4294967294)%N then Some v else None
      else None
  end.

Definition index_or_zero (k : string) : N :=
  match array_index k with Some v => v | None => 0%N end.

Fixpoint insert_by_index (p : string * entry) (l : list (string * entry))
  : list (string * entry) :=
  match l with
  | [] => [p]
  | q :: r =>
      if (index_or_zero (fst p) <=? index_or_zero (fst q))%N then p :: q :: r
      else q :: insert_by_index p r
  end.

Definition is_index (p : string * entry) : bool :=
  match array_index (fst p) with Some _ => true | None => false end.

Definition own_property_order (m : JsMap.t entry) : JsMap.t entry :=
  fold_right insert_by_index [] (filter is_index m)
  ++ filter (fun p => negb (is_index p)) m.

(** [init]: a snapshot younger than [CACHE_EXPIRY] replaces the map; any
    other content of the storage leaves the map alone. *)
Definition init (e : env) (s : state) : state :=
  match localStorage s with
  | Some snap =>
      if now e - snap_timestamp snap <? CACHE_EXPIRY
      then with_map s (own_property_order (snap_data snap))
      else s
  | None => s
  end.

(** A new session: the static fields have their initial values, the
    storage is what the last session left. *)
Definition next_session (s : state) : state :=
  {| imageCache := JsMap.empty; dirty := false; saveTimeout := false;
     localStorage := localStorage s |}.

End ImageCacheSession.

(** ** Sequences of calls on the cache *)

Module CacheOps.
Import ImageCache.

(** The calls of the public interface of [ImageCache] that change its
    state, and the callback of its save timer.  [init] is called by every
    view when it loads, so it may run at any time in the life of the
    cache.  ([getStats], the one other public method, only reads.) *)
Inductive op : Type :=
| OpGet (key : string) (e : env)
| OpHas (key : string) (e : env)
| OpSet (key data : string) (e : env)
| OpDelete (key : string)
| OpClear
| OpSaveTimer (e : env)
| OpInit (e : env).

Definition apply (o : op) (s : state) : state :=
  match o with
  | OpGet key e => snd (get key e s)
  | OpHas key e => snd (has key e s)
  | OpSet key data e => set key data e s
  | OpDelete key => delete key s
  | OpClear => clear s
  | OpSaveTimer e => saveTimer e s
  | OpInit e => ImageCacheSession.init e s
  end.

Definition run (ops : list op) (s : state) : state :=
  fold_left (fun s' o => apply o s') ops s.

(** The clock value a call reads, if it reads one. *)
Definition op_now (o : op) : option Z :=
  match o with
  | OpGet _ e | OpHas _ e | OpSet _ _ e | OpSaveTimer e | OpInit e =>
      Some (now e)
  | OpDelete _ | OpClear => None
  end.

(** A [delete] or a [set] of [key], or a [clear]. *)
Definition mutates_key (key : string) (o : op) : bool :=
  match o with
  | OpSet k _ _ | OpDelete k => String.eqb k key
  | OpClear => true
  | OpGet _ _ | OpHas _ _ | OpSaveTimer _ | OpInit _ => false
  end.

(** No [set] of the sequence, run from [s], finds the cache so full that
    it calls [cleanupOldCache]. *)
Fixpoint no_cleanup (ops : list op) (s : state) : bool :=
  match ops with
  | [] => true
  | o :: rest =>
      (match o with
       | OpSet _ data _ => negb (needs_cleanup data s)
       | _ => true
       end && no_cleanup rest (apply o s))%bool
  end.

(** No [init] of the sequence, run from [s], changes what the cache holds
    under [key].  An [init] that finds a fresh snapshot in the storage
    puts it in the place of the map, so it drops whatever was stored since
    that snapshot was written. *)
Fixpoint init_keeps (key : string) (ops : list op) (s : state) : Prop :=
  match ops with
  | [] => True
  | o :: rest =>
      match o with
      | OpInit e =>
          JsMap.get key (imageCache (ImageCacheSession.init e s))
          = JsMap.get key (imageCache s)
      | _ => True
      end
      /\ init_keeps key rest (apply o s)
  end.

Definition is_init (o : op) : bool :=
  match o with
  | OpInit _ => true
  | _ => false
  end.

(** The map holds [v] under [key], stored at clock value [t]. *)
Definition stored (key v : string) (t : Z) (s : state) : Prop :=
  JsMap.get key (imageCache s)
  = Some {| data := v; timestamp := t; size := blobSize v |}.

(** The same call with a storage that refuses the write. *)
Definition storage_fails (o : op) : op :=
  let broken e := {| now := now e; setItem_ok := false |} in
  match o with
  | OpGet key e => OpGet key (broken e)
  | OpHas key e => OpHas key (broken e)
  | OpSet key v e => OpSet key v (broken e)
  | OpSaveTimer e => OpSaveTimer (broken e)
  | OpInit e => OpInit (broken e)
  | OpDelete key => OpDelete key
  | OpClear => OpClear
  end.

(** The snapshot in the storage, if there is one, is the snapshot of a
    map without a repeated key whose entries record the bytes of their
    values. *)
Definition stored_snapshot_well_formed (s : state) : Prop :=
  match localStorage s with
  | Some snap => ImageCacheSession.well_formed (snap_data snap)
  | None => True
  end.

Definition state_well_formed (s : state) : Prop :=
  ImageCacheSession.well_formed (imageCache s)
  /\ stored_snapshot_well_formed s.

End CacheOps.

(** ** Test data *)

Module Fixtures.

Fixpoint replicate (n : nat) (c : ascii) : string :=
  match n with
  | O => EmptyString
  | S n' => String c (replicate n' c)
  end.

(** A value of [n] bytes. *)
Definition padding (n : N) : string := replicate (N.to_nat n) "a".

(** A call at clock value [n] with a working [localStorage]. *)
Definition at_time (n : Z) : ImageCache.env :=
  {| ImageCache.now := n; ImageCache.setItem_ok := true |}.

End Fixtures.

(** ** The listing a stream delivers *)

Module SyncStream.
Import Types SyncService.

(** The named objects the stream emits before its first ['end'] or
    ['error'], in the order of the stream. *)
Fixpoint delivered (events : list stream_event) : list MinioObject :=
  match events with
  | [] => []
  | OnData obj :: rest =>
      if String.eqb (name obj) "" then delivered rest
      else obj :: delivered rest
  | OnEnd :: _ => []
  | OnError _ :: _ => []
  end.

(** The cache after the invalidation of a list of names. *)
Definition invalidate (names : list string) (cache : ImageCache.state)
  : ImageCache.state :=
  fold_left (fun c objectName => ImageCache.delete objectName c) names cache.

End SyncStream.

(** ** The vocabulary of the lazy loader's log *)

Module LazyLog.
Import LazyImageService.

(** A pause of the log is between one and three seconds. *)
Definition pause_in_bounds (a : action) : Prop :=
  match a with
  | Sleep milliseconds => 1000 <= milliseconds <= 3000
  | _ => True
  end.

(** The image after an attempt succeeded. *)
Definition loaded_image (url : string) (i : image) : image :=
  {| src := url; dataSrc := dataSrc i;
     classList := classList (add_class i "loaded") |}.

End LazyLog.

(** ** utils/FileUtils.ts: the other functions on file names *)

Module FileNames.

Definition VIDEO_EXTENSIONS : list string :=
  [".mp4"; ".avi"; ".mov"; ".wmv"; ".flv"; ".webm"; ".mkv"].

Definition AUDIO_EXTENSIONS : list string :=
  [".mp3"; ".wav"; ".ogg"; ".aac"; ".flac"; ".m4a"].

Definition isVideoFile (filename : string) : bool :=
  existsb (fun ext => JsString.endsWith (JsString.toLowerCase filename) ext)
          VIDEO_EXTENSIONS.

Definition isAudioFile (filename : string) : bool :=
  existsb (fun ext => JsString.endsWith (JsString.toLowerCase filename) ext)
          AUDIO_EXTENSIONS.

Inductive fileType : Type := image | video | audio | document.

Definition getFileType (filename : string) : fileType :=
  if FileUtils.isImageFile filename then image
  else if isVideoFile filename then video
  else if isAudioFile filename then audio
  else document.

(** [s.lastIndexOf(c)] and [s.indexOf(c)] for a character; [-1] when the
    character does not occur. *)
Fixpoint lastIndexOf_from (s : string) (c : ascii) (i found : Z) : Z :=
  match s with
  | EmptyString => found
  | String d r =>
      lastIndexOf_from r c (i + 1) (if Ascii.eqb d c then i else found)
  end.

Definition lastIndexOf (s : string) (c : ascii) : Z :=
  lastIndexOf_from s c 0 (-1).

Fixpoint indexOf_from (s : string) (c : ascii) (i : Z) : Z :=
  match s with
  | EmptyString => -1
  | String d r => if Ascii.eqb d c then i else indexOf_from r c (i + 1)
  end.

Definition indexOf (s : string) (c : ascii) : Z := indexOf_from s c 0.

(** [s.substring(start, stop)]: both indices are clamped to the string
    and swapped when out of order; [s.substring(start)] runs to the end. *)
Definition substring (s : string) (start stop : Z) : string :=
  let len := Z.of_nat (String.length s) in
  let a := Z.max 0 (Z.min start len) in
  let b := Z.max 0 (Z.min stop len) in
  String.substring (Z.to_nat (Z.min a b)) (Z.to_nat (Z.max a b - Z.min a b)) s.

Definition substring_from (s : string) (start : Z) : string :=
  substring s start (Z.of_nat (String.length s)).

Definition getFileExtension (filename : string) : string :=
  let lastDot := lastIndexOf filename "." in
  if negb (lastDot =? -1)
  then JsString.toLowerCase (substring_from filename lastDot)
  else "".

(** [s.split(c)] for a character: never empty. *)
Fixpoint split (s : string) (c : ascii) : list string :=
  match s with
  | EmptyString => [EmptyString]
  | String d r =>
      if Ascii.eqb d c then EmptyString :: split r c
      else match split r c with
           | part :: parts => String d part :: parts
           | [] => [String d EmptyString]
           end
  end.

Definition getFilenameFromUrl (url : string) : string :=
  let parts := split url "/" in
  let filename := last parts EmptyString in
  let queryIndex := indexOf filename "?" in
  if negb (queryIndex =? -1) then substring filename 0 queryIndex
  else filename.

(** The type the extension stands for. *)
Definition type_of_extension (ext : string) : fileType :=
  if existsb (String.eqb ext) FileUtils.IMAGE_EXTENSIONS then image
  else if existsb (String.eqb ext) VIDEO_EXTENSIONS then video
  else if existsb (String.eqb ext) AUDIO_EXTENSIONS then audio
  else document.

(** The part of a name from its last dot on. *)
Fixpoint from_last_dot (s : string) : option string :=
  match s with
  | EmptyString => None
  | String d r =>
      match from_last_dot r with
      | Some tail => Some tail
      | None => if Ascii.eqb d "." then Some s else None
      end
  end.

(** A dot followed by characters that are not dots and not upper case
    letters: the shape of every extension of the three lists. *)
Definition is_extension (ext : string) : bool :=
  match ext with
  | String c w =>
      (Ascii.eqb c "."
       && JsString.forallb_string
            (fun d => negb (Ascii.eqb d ".")
                      && Ascii.eqb (JsString.toLowerChar d) d) w)%bool
  | EmptyString => false
  end.

Definition has_no (c : ascii) (s : string) : bool :=
  JsString.forallb_string (fun d => negb (Ascii.eqb d c)) s.

End FileNames.

(** ** utils/UrlGenerator.ts *)

Module UrlGenerator.

(** The fields of [MinioPluginSettings] the generator reads. *)
Record settings : Type := mkSettings {
  endpoint : string;
  bucket : string;
  port : Z;
  customDomain : string;
  useSSL : bool
}.

(** The decimal numeral of an integer, as a template literal prints an
    integer below 10^21 in absolute value (a port is below 65536; from
    10^21 on the host prints the exponent notation).  The statements on
    URLs below do not depend on what is printed for the port. *)
Definition number_to_string (n : Z) : string :=
  NilZero.string_of_int (Z.to_int n).

Definition generateUrl (st : settings) (objectName : string) : string :=
  if negb (String.eqb (customDomain st) "") then
    customDomain st ++ "/" ++ bucket st ++ "/" ++ objectName
  else
    let portStr : string :=
      if ((port st =? 443) || (port st =? 80))%bool then ""
      else (":" ++ number_to_string (port st))%string in
    let protocol : string := if useSSL st then "https" else "http" in
    protocol ++ "://" ++ endpoint st ++ portStr ++ "/" ++ bucket st ++ "/"
    ++ objectName.

(** Everything of the URL in front of the object name. *)
Definition url_prefix (st : settings) : string :=
  if negb (String.eqb (customDomain st) "") then
    customDomain st ++ "/" ++ bucket st ++ "/"
  else
    let portStr : string :=
      if ((port st =? 443) || (port st =? 80))%bool then ""
      else (":" ++ number_to_string (port st))%string in
    let protocol : string := if useSSL st then "https" else "http" in
    protocol ++ "://" ++ endpoint st ++ portStr ++ "/" ++ bucket st ++ "/".

End UrlGenerator.

(** ** services/UploadService.ts *)

Module UploadService.
Import UrlGenerator.

(** [generateAccessUrl]: the URL written into the note for an uploaded
    object. *)
Definition generateAccessUrl (st : settings) (objectName : string) : string :=
  if negb (String.eqb (customDomain st) "") then
    customDomain st ++ "/" ++ bucket st ++ "/" ++ objectName
  else
    let protocol : string := if useSSL st then "https" else "http" in
    let portStr : string :=
      if ((port st =? 443) || (port st =? 80))%bool then ""
      else (":" ++ number_to_string (port st))%string in
    let host : string :=
      (protocol ++ "://" ++ endpoint st ++ portStr)%string in
    (host ++ "/" ++ bucket st ++ "/" ++ objectName)%string.

End UploadService.

(** ** views/MinioGalleryView: object URLs, deletion and the sync timer *)

Module GalleryActions.
Import Types MinioGalleryView.

(** [SyncService.deleteObject]: [removed] is the outcome of
    [client.removeObject]; the cache entry is deleted after it resolved. *)
Definition deleteObject (objectName : string) (removed : promise unit)
  (c : ImageCache.state) : ImageCache.state * promise unit :=
  match removed with
  | Resolved _ => (ImageCache.delete objectName c, Resolved tt)
  | Rejected message => (c, Rejected message)
  | Pending => (c, Pending)
  end.

(** [element.remove()]: [element] is the position of the item in the
    grid, [None] when the item is no longer attached. *)
Fixpoint remove_nth (A : Type) (n : nat) (l : list A) : list A :=
  match l, n with
  | [], _ => []
  | _ :: r, O => r
  | x :: r, S n' => x :: remove_nth n' r
  end.

Definition remove_element (element : option nat)
  (g : option (list MinioObject)) : option (list MinioObject) :=
  match element, g with
  | Some i, Some l => Some (remove_nth i l)
  | _, _ => g
  end.

(** [list.filter(obj => obj.name !== objectName)]. *)
Definition without (objectName : string) (l : list MinioObject)
  : list MinioObject :=
  filter (fun obj => negb (String.eqb (name obj) objectName)) l.

Definition update (s : GalleryState) (g : option (list MinioObject))
  (ns : list string) (c : ImageCache.state) (v : view) : view :=
  {| state := s; lastLoadTime := lastLoadTime v; bucket := bucket v;
     grid := g; indicators := indicators v; notices := ns; cache := c;
     allImageUrls := allImageUrls v |}.

(** Every visible image is an object of the known listing. *)
Definition shows_known_images (v : view) : Prop :=
  forall obj, In obj (visibleImages (state v)) ->
              In obj (remoteObjects (state v)).

Section Actions.
Variable generateUrl : string -> string.
Variable t : string -> string.

(** [getObjectUrl]: a cached URL is used when it is truthy, that is not
    the empty string.  [e1] is the environment of [ImageCache.get], [e2]
    that of [ImageCache.set]. *)
Definition getObjectUrl (objectName : string) (e1 e2 : ImageCache.env)
  (c : ImageCache.state) : string * ImageCache.state :=
  let '(cachedUrl, c1) := ImageCache.get objectName e1 c in
  let generated :=
    let url := generateUrl objectName in
    (url, ImageCache.set objectName url e2 c1) in
  match cachedUrl with
  | Some url => if String.eqb url "" then generated else (url, c1)
  | None => generated
  end.

(** The callback that [handleDelete] hands to the confirmation dialog,
    run when the user confirms.  [removed] is the outcome of
    [client.removeObject], [events] what the listing of the following
    sync emits. *)
Definition confirmDelete (objectName : string) (element : option nat)
  (removed : promise unit) (events : list SyncService.stream_event)
  (v : view) : view :=
  match deleteObject objectName removed (cache v) with
  | (c, Pending) => update (state v) (grid v) (notices v) c v
  | (c, Rejected _) =>
      update (state v) (grid v) (notices v ++ [t "Delete failed"]) c v
  | (c1, Resolved _) =>
      let g := remove_element element (grid v) in
      let s1 :=
        set_visibleImages (without objectName (visibleImages (state v)))
          (set_remoteObjects (without objectName (remoteObjects (state v)))
             (state v)) in
      let c2 := ImageCache.delete objectName c1 in
      match SyncService.sync c2 (remoteObjects s1) events with
      | (c3, Resolved (objects, _)) =>
          update (set_remoteObjects objects s1) g
            (notices v ++ [t "Delete success"]) c3 v
      | (c3, Rejected _) =>
          update s1 g (notices v ++ [t "Delete failed"]) c3 v
      | (c3, Pending) => update s1 g (notices v) c3 v
      end
  end.

(** One run of the callback that [startAutoSync] arms with
    [setInterval]. *)
Definition autoSync (events : list SyncService.stream_event) (v : view)
  : view :=
  match SyncService.sync (cache v) (remoteObjects (state v)) events with
  | (c, Resolved (objects, _)) =>
      let s1 := set_remoteObjects objects (state v) in
      let s2 :=
        if negb (isSearching s1)
        then set_visibleImages
               (filter (fun obj => isImageFile (name obj)) objects) s1
        else s1 in
      update s2 (grid v) (notices v) c v
  | (c, Rejected _) => update (state v) (grid v) (notices v) c v
  | (c, Pending) => update (state v) (grid v) (notices v) c v
  end.

End Actions.

End GalleryActions.

(** * Properties *)

(** ** Maps *)

Section JsMapFacts.
Variable V : Type.
Implicit Types (m : JsMap.t V) (k : string) (v : V).

Lemma get_set_same k v m : JsMap.get k (JsMap.set k v m) = Some v.
Proof.
  induction m as [|[k' v'] r IH]; simpl.
  - now rewrite String.eqb_refl.
  - destruct (String.eqb k k') eqn:E; simpl.
    + now rewrite String.eqb_refl.
    + now rewrite E.
Qed.

Lemma get_set_other k k' v m :
  k <> k' -> JsMap.get k (JsMap.set k' v m) = JsMap.get k m.
Proof.
  intros Hne. induction m as [|[k2 v2] r IH]; simpl.
  - apply String.eqb_neq in Hne. now rewrite Hne.
  - destruct (String.eqb k' k2) eqn:E; simpl.
    + apply String.eqb_eq in E. subst k2.
      apply String.eqb_neq in Hne. now rewrite Hne.
    + now rewrite IH.
Qed.

Lemma get_delete_same k m : JsMap.get k (JsMap.delete k m) = None.
Proof.
  unfold JsMap.delete.
  induction m as [|[k' v'] r IH]; simpl; [reflexivity|].
  destruct (String.eqb k k') eqn:E; simpl; [assumption|].
  now rewrite E.
Qed.

Lemma get_delete_other k k' m :
  k <> k' -> JsMap.get k (JsMap.delete k' m) = JsMap.get k m.
Proof.
  intros Hne. unfold JsMap.delete.
  induction m as [|[k2 v2] r IH]; simpl; [reflexivity|].
  destruct (String.eqb k' k2) eqn:E; simpl.
  - apply String.eqb_eq in E. subst k2.
    apply String.eqb_neq in Hne. now rewrite Hne.
  - now rewrite IH.
Qed.

End JsMapFacts.

(** ** The URL cache *)

Section CacheFacts.
Import ImageCache.

Lemma saveCache_map e s : imageCache (saveCache e s) = imageCache s.
Proof.
  unfold saveCache. destruct (dirty s), (setItem_ok e); reflexivity.
Qed.

Lemma expired_true_iff e c :
  expired e c = true <-> now e > timestamp c + CACHE_EXPIRY.
Proof. unfold expired. rewrite Z.gtb_ltb, Z.ltb_lt. lia. Qed.

Lemma expired_false_iff e c :
  expired e c = false <-> now e <= timestamp c + CACHE_EXPIRY.
Proof. unfold expired. rewrite Z.gtb_ltb, Z.ltb_ge. lia. Qed.

(** [set] stores the value with the clock value of the call. *)
Lemma set_stores key v e s :
  JsMap.get key (imageCache (set key v e s))
  = Some {| data := v; timestamp := now e; size := blobSize v |}.
Proof. unfold set, scheduleSave. simpl. apply get_set_same. Qed.

(** [has] leaves the cache that [get] leaves. *)
Lemma has_state key e s : snd (has key e s) = snd (get key e s).
Proof.
  unfold has, get.
  destruct (JsMap.get key (imageCache s)) as [c|]; [|reflexivity].
  destruct (expired e c); reflexivity.
Qed.

Lemma blobSize_padding n :
  blobSize (Fixtures.padding n) = Z.of_N n.
Proof.
  unfold blobSize, Fixtures.padding.
  assert (H : forall k c, String.length (Fixtures.replicate k c) = k)
    by (induction k; simpl; intros; [reflexivity | now f_equal]).
  rewrite H. apply N_nat_Z.
Qed.

End CacheFacts.

(** C5.  An entry of the cache whose timestamp (the clock value of the
    [set] that stored it) is [t]: a [get] or a [has] of its key at a clock
    value later than [t + CACHE_EXPIRY] answers with a miss ([null],
    [false]) and leaves the cache without an entry for the key; a [get] at
    a clock value up to [t + CACHE_EXPIRY] returns the stored value. *)
Theorem cache_entry_expiry :
  forall (key : string) (c : ImageCache.entry) (e : ImageCache.env)
         (s : ImageCache.state),
    JsMap.get key (ImageCache.imageCache s) = Some c ->
    (ImageCache.now e > ImageCache.timestamp c + ImageCache.CACHE_EXPIRY ->
       fst (ImageCache.get key e s) = None
       /\ fst (ImageCache.has key e s) = false
       /\ JsMap.get key (ImageCache.imageCache (snd (ImageCache.get key e s)))
          = None
       /\ JsMap.get key (ImageCache.imageCache (snd (ImageCache.has key e s)))
          = None)
    /\ (ImageCache.now e <= ImageCache.timestamp c + ImageCache.CACHE_EXPIRY ->
          fst (ImageCache.get key e s) = Some (ImageCache.data c)
          /\ fst (ImageCache.has key e s) = true).
Proof.
  intros key c e s Hin. split; intros Ht.
  - apply expired_true_iff in Ht.
    unfold ImageCache.get, ImageCache.has. rewrite Hin, Ht. simpl.
    rewrite saveCache_map. simpl.
    repeat split; apply get_delete_same.
  - apply expired_false_iff in Ht.
    unfold ImageCache.get, ImageCache.has. rewrite Hin, Ht. now split.
Qed.

(** The entry stored by [set "photo.png" "https://cdn/photo.png"] at clock
    value 1000, read one millisecond after its expiry and at its expiry. *)
Lemma cache_entry_expiry_witness :
  let s := ImageCache.set "photo.png" "https://cdn/photo.png"
             (Fixtures.at_time 1000) ImageCache.initial in
  fst (ImageCache.get "photo.png" (Fixtures.at_time 43201001) s) = None
  /\ fst (ImageCache.get "photo.png" (Fixtures.at_time 43201000) s)
     = Some "https://cdn/photo.png".
Proof.
  intro s.
  pose proof (cache_entry_expiry "photo.png"
                (c := {| ImageCache.data := "https://cdn/photo.png";
                         ImageCache.timestamp := 1000;
                         ImageCache.size := 21 |})
                (Fixtures.at_time 43201001) s eq_refl) as [Hlate _].
  pose proof (cache_entry_expiry "photo.png"
                (c := {| ImageCache.data := "https://cdn/photo.png";
                         ImageCache.timestamp := 1000;
                         ImageCache.size := 21 |})
                (Fixtures.at_time 43201000) s eq_refl) as [_ Hearly].
  split.
  - apply Hlate. vm_compute. reflexivity.
  - apply Hearly. vm_compute. discriminate.
Defined.

(** C10.  At the same clock value and on the same cache, [has] answers
    [true] exactly when [get] returns a value, and both leave the same
    cache behind (the same deletion of an expired entry, the same write
    of the snapshot). *)
Theorem has_agrees_with_get :
  forall (key : string) (e : ImageCache.env) (s : ImageCache.state),
    (fst (ImageCache.has key e s) = true
     <-> exists v, fst (ImageCache.get key e s) = Some v)
    /\ snd (ImageCache.has key e s) = snd (ImageCache.get key e s).
Proof.
  intros key e s. split; [|apply has_state].
  unfold ImageCache.has, ImageCache.get.
  destruct (JsMap.get key (ImageCache.imageCache s)) as [c|]; simpl.
  - destruct (ImageCache.expired e c); simpl.
    + split; [discriminate | intros [v Hv]; discriminate].
    + split; [intros _; now exists (ImageCache.data c) | reflexivity].
  - split; [discriminate | intros [v Hv]; discriminate].
Qed.

Section RoundTrip.
Import ImageCache CacheOps.

Lemma get_other_keeps key k v t e s :
  k <> key -> stored key v t s -> stored key v t (snd (get k e s)).
Proof.
  intros Hne Hs. unfold stored, get in *.
  destruct (JsMap.get k (imageCache s)) as [c|]; simpl; [|assumption].
  destruct (expired e c); simpl; [|assumption].
  rewrite saveCache_map. simpl.
  rewrite get_delete_other by congruence. assumption.
Qed.

Lemma get_same_keeps key v t e s :
  now e <= t + CACHE_EXPIRY ->
  stored key v t s -> snd (get key e s) = s.
Proof.
  intros Ht Hs. unfold stored, get in *. rewrite Hs.
  assert (H : expired e {| data := v; timestamp := t; size := blobSize v |}
              = false) by (apply expired_false_iff; simpl; lia).
  now rewrite H.
Qed.

(** One tolerated call keeps the entry of [key]. *)
Lemma apply_keeps key v t bound o s :
  bound <= t + CACHE_EXPIRY ->
  mutates_key key o = false ->
  no_cleanup [o] s = true ->
  init_keeps key [o] s ->
  (forall n, op_now o = Some n -> n <= bound) ->
  stored key v t s -> stored key v t (apply o s).
Proof.
  intros Hb Hm Hc [Hi _] Hn Hs.
  destruct o as [k e|k e|k d e| k | |e|e]; simpl in *.
  - destruct (String.eqb_spec k key) as [->|Hne].
    + rewrite (@get_same_keeps key v t e s); auto.
      specialize (Hn _ eq_refl). lia.
    + now apply get_other_keeps.
  - rewrite has_state.
    destruct (String.eqb_spec k key) as [->|Hne].
    + rewrite (@get_same_keeps key v t e s); auto.
      specialize (Hn _ eq_refl). lia.
    + now apply get_other_keeps.
  - apply String.eqb_neq in Hm.
    rewrite andb_true_r in Hc. apply negb_true_iff in Hc.
    unfold stored, set, scheduleSave in *. rewrite Hc. simpl.
    rewrite get_set_other by congruence. assumption.
  - apply String.eqb_neq in Hm.
    unfold stored, delete, scheduleSave in *. simpl.
    rewrite get_delete_other by congruence. assumption.
  - discriminate.
  - unfold stored, saveTimer in *. simpl. now rewrite saveCache_map.
  - unfold stored in *. now rewrite Hi.
Qed.

Lemma run_keeps key v t bound ops :
  bound <= t + CACHE_EXPIRY ->
  forall s,
    Forall (fun o => mutates_key key o = false) ops ->
    no_cleanup ops s = true ->
    init_keeps key ops s ->
    Forall (fun o => forall n, op_now o = Some n -> n <= bound) ops ->
    stored key v t s -> stored key v t (run ops s).
Proof.
  intros Hb. induction ops as [|o rest IH]; intros s Hm Hc Hi Hn Hs.
  - assumption.
  - inversion Hm; subst. inversion Hn; subst.
    cbn [no_cleanup] in Hc. apply andb_true_iff in Hc as [Hc1 Hc2].
    cbn [init_keeps] in Hi. destruct Hi as [Hi1 Hi2].
    change (run (o :: rest) s) with (run rest (apply o s)).
    apply IH; auto.
    apply apply_keeps with (bound := bound); auto.
    + cbn [no_cleanup]. now rewrite Hc1.
    + cbn [init_keeps]. now split.
Qed.

End RoundTrip.

(** C6, as amended.  [set(k, v)] followed by [get(k)] no later than
    [CACHE_EXPIRY] after it returns [v], whatever eviction the [set]
    itself ran, through any calls of the interface in between ([get],
    [has], [set], [delete], [clear], [init] and the save timer) that are
    not a [delete] or [set] of [k] or a [clear], of which no [set] runs
    the eviction and no [init] replaces the entry of [k] by loading the
    stored snapshot, and which read the clock no later than the final
    [get] does. *)
Theorem set_get_roundtrip :
  forall (key v : string) (e0 e : ImageCache.env) (s0 : ImageCache.state)
         (ops : list CacheOps.op),
    ImageCache.now e - ImageCache.now e0 <= ImageCache.CACHE_EXPIRY ->
    Forall (fun o => CacheOps.mutates_key key o = false) ops ->
    CacheOps.no_cleanup ops (ImageCache.set key v e0 s0) = true ->
    CacheOps.init_keeps key ops (ImageCache.set key v e0 s0) ->
    Forall (fun o => forall n, CacheOps.op_now o = Some n ->
                               n <= ImageCache.now e) ops ->
    fst (ImageCache.get key e
           (CacheOps.run ops (ImageCache.set key v e0 s0))) = Some v.
Proof.
  intros key v e0 e s0 ops Ht Hm Hc Hi Hn.
  assert (Hs : CacheOps.stored key v (ImageCache.now e0)
                 (CacheOps.run ops (ImageCache.set key v e0 s0))).
  { apply run_keeps with (bound := ImageCache.now e); auto; try lia.
    apply set_stores. }
  unfold ImageCache.get. rewrite Hs.
  assert (H : ImageCache.expired e
                {| ImageCache.data := v;
                   ImageCache.timestamp := ImageCache.now e0;
                   ImageCache.size := ImageCache.blobSize v |} = false)
    by (apply expired_false_iff; simpl; lia).
  now rewrite H.
Qed.

(** The round trip of one URL through a [set] of another key, a [has],
    a timer tick that saves the map, and an [init] that loads the saved
    snapshot again, read back at the last millisecond of its lifetime. *)
Lemma set_get_roundtrip_witness :
  fst (ImageCache.get "a.png" (Fixtures.at_time 43200010)
         (CacheOps.run
            [CacheOps.OpSet "b.png" "https://cdn/b.png" (Fixtures.at_time 20);
             CacheOps.OpHas "a.png" (Fixtures.at_time 30);
             CacheOps.OpSaveTimer (Fixtures.at_time 1020);
             CacheOps.OpInit (Fixtures.at_time 5000)]
            (ImageCache.set "a.png" "https://cdn/a.png" (Fixtures.at_time 10)
               ImageCache.initial)))
  = Some "https://cdn/a.png".
Proof.
  apply set_get_roundtrip.
  - vm_compute. discriminate.
  - repeat constructor.
  - vm_compute. reflexivity.
  - cbn [CacheOps.init_keeps]. repeat split.
  - repeat constructor; simpl; intros n Hn; inversion Hn; subst;
      vm_compute; discriminate.
Defined.

(** A cache that holds 40 MiB under one key evicts that entry when 20 MiB
    are stored under another key. *)
Lemma later_set_evicts (v w : string) :
  ImageCache.blobSize v = 41943040 ->
  ImageCache.blobSize w = 20971520 ->
  fst (ImageCache.get "k" (Fixtures.at_time 3)
         (CacheOps.run [CacheOps.OpSet "other" w (Fixtures.at_time 2)]
            (ImageCache.set "k" v (Fixtures.at_time 1) ImageCache.initial)))
  = None.
Proof.
  intros Hv Hw.
  unfold CacheOps.run, CacheOps.apply, fold_left.
  unfold ImageCache.set, ImageCache.needs_cleanup.
  rewrite Hv, Hw.
  vm_compute. reflexivity.
Qed.

(** An [init] right after a [set] loads the snapshot that the save timer
    wrote before the [set], and the new entry is gone. *)
Lemma init_after_set_forgets :
  let saved :=
    CacheOps.run
      [CacheOps.OpSet "old" "https://cdn/old" (Fixtures.at_time 1);
       CacheOps.OpSaveTimer (Fixtures.at_time 1001)] ImageCache.initial in
  Forall (fun o => CacheOps.mutates_key "k" o = false)
    [CacheOps.OpInit (Fixtures.at_time 2001)]
  /\ CacheOps.no_cleanup [CacheOps.OpInit (Fixtures.at_time 2001)]
       (ImageCache.set "k" "https://cdn/k" (Fixtures.at_time 2000) saved)
     = true
  /\ fst (ImageCache.get "k" (Fixtures.at_time 2002)
            (CacheOps.run [CacheOps.OpInit (Fixtures.at_time 2001)]
               (ImageCache.set "k" "https://cdn/k" (Fixtures.at_time 2000)
                  saved)))
     = None.
Proof.
  intros saved. split; [repeat constructor|]. split; reflexivity.
Qed.

(** C6, as stated, fails in two ways.  A [set] of another key in between
    runs the eviction, which deletes the oldest entry: a value of 40 MiB
    is stored under ["k"]; storing 20 MiB under ["other"] would pass the
    cap, so the entry of ["k"] is evicted and the [get] two milliseconds
    after the first [set] misses.  And an [init] in between (every view
    calls it when it loads) puts the stored snapshot in the place of the
    map: the snapshot written before the [set] of ["k"] lacks ["k"], so
    the [get] misses. *)
Lemma set_get_roundtrip_counterexample :
  (Forall (fun o => CacheOps.mutates_key "k" o = false)
     [CacheOps.OpSet "other" (Fixtures.padding 20971520) (Fixtures.at_time 2)]
   /\ 3 - 1 <= ImageCache.CACHE_EXPIRY
   /\ fst (ImageCache.get "k" (Fixtures.at_time 3)
             (CacheOps.run
                [CacheOps.OpSet "other" (Fixtures.padding 20971520)
                   (Fixtures.at_time 2)]
                (ImageCache.set "k" (Fixtures.padding 41943040)
                   (Fixtures.at_time 1) ImageCache.initial)))
      = None)
  /\ (Forall (fun o => CacheOps.mutates_key "k" o = false)
        [CacheOps.OpInit (Fixtures.at_time 2001)]
      /\ 2002 - 2000 <= ImageCache.CACHE_EXPIRY
      /\ fst (ImageCache.get "k" (Fixtures.at_time 2002)
                (CacheOps.run [CacheOps.OpInit (Fixtures.at_time 2001)]
                   (ImageCache.set "k" "https://cdn/k" (Fixtures.at_time 2000)
                      (CacheOps.run
                         [CacheOps.OpSet "old" "https://cdn/old"
                            (Fixtures.at_time 1);
                          CacheOps.OpSaveTimer (Fixtures.at_time 1001)]
                         ImageCache.initial))))
         = None).
Proof.
  refine (conj (conj _ (conj _ (@later_set_evicts (Fixtures.padding 41943040)
                                  (Fixtures.padding 20971520) _ _)))
               (conj _ (conj _ (proj2 (proj2 init_after_set_forgets))))).
  - constructor; [reflexivity | constructor].
  - discriminate.
  - exact (blobSize_padding 41943040).
  - exact (blobSize_padding 20971520).
  - constructor; [reflexivity | constructor].
  - discriminate.
Qed.

(** The eviction on a cache filled by a value of 10 MiB and then one of
    40 MiB. *)
Lemma cleanup_of_full_cache (a b : string) :
  ImageCache.blobSize a = 10485760 ->
  ImageCache.blobSize b = 41943040 ->
  ImageCache.needs_cleanup "x"
    (ImageCache.set "b" b (Fixtures.at_time 2)
       (ImageCache.set "a" a (Fixtures.at_time 1) ImageCache.initial)) = true
  /\ ImageCache.getTotalCacheSize
       (ImageCache.imageCache
          (ImageCache.cleanupOldCache (Fixtures.at_time 3)
             (ImageCache.set "b" b (Fixtures.at_time 2)
                (ImageCache.set "a" a (Fixtures.at_time 1)
                   ImageCache.initial))))
     = 41943040.
Proof.
  intros Ha Hb.
  unfold ImageCache.set, ImageCache.needs_cleanup.
  rewrite Ha, Hb.
  vm_compute. split; reflexivity.
Qed.

(** C1: the claim fails on the code.  Two values of 10 MiB and 40 MiB
    fill the cache to [MAX_CACHE_SIZE]; the next [set] runs the eviction,
    which deletes the 10 MiB entry and stops, because it subtracts the
    freed bytes from a total that [getTotalCacheSize] has already
    recomputed without them: 40 MiB - 10 MiB is below the target.  The
    40 MiB that remain are more than [0.7 * MAX_CACHE_SIZE] = 35 MiB. *)
Lemma eviction_leaves_more_than_target :
  (ImageCache.needs_cleanup "x"
     (ImageCache.set "b" (Fixtures.padding 41943040) (Fixtures.at_time 2)
        (ImageCache.set "a" (Fixtures.padding 10485760) (Fixtures.at_time 1)
           ImageCache.initial)) = true
   /\ ImageCache.getTotalCacheSize
        (ImageCache.imageCache
           (ImageCache.cleanupOldCache (Fixtures.at_time 3)
              (ImageCache.set "b" (Fixtures.padding 41943040)
                 (Fixtures.at_time 2)
                 (ImageCache.set "a" (Fixtures.padding 10485760)
                    (Fixtures.at_time 1) ImageCache.initial))))
      = 41943040)
  /\ ImageCache.targetSize = 36700160.
Proof.
  refine (conj (@cleanup_of_full_cache (Fixtures.padding 10485760)
                  (Fixtures.padding 41943040) _ _) _).
  - exact (blobSize_padding 10485760).
  - exact (blobSize_padding 41943040).
  - reflexivity.
Qed.

(** ** The synchronizer *)

Section SyncFacts.
Import Types SyncService.


Lemma insert_desc_perm o l : Permutation (insert_desc o l) (o :: l).
Proof.
induction l as [|q r IH]; simpl; [apply Permutation_refl|].
destruct (time_or_zero q <=? time_or_zero o); [apply Permutation_refl|].
eapply perm_trans; [apply perm_skip, IH | apply perm_swap].
Qed.

Lemma sort_desc_perm l : Permutation (sort_desc l) l.
Proof.
unfold sort_desc. induction l as [|o r IH]; simpl; [constructor|].
eapply perm_trans; [apply insert_desc_perm | now apply perm_skip].
Qed.


Lemma keys_set_in (V : Type) k (v : V) m n :
  In n (JsMap.keys (JsMap.set k v m)) <-> n = k \/ In n (JsMap.keys m).
Proof.
  unfold JsMap.keys.
  induction m as [|[k' v'] r IH]; simpl.
  - intuition.
  - destruct (String.eqb_spec k k') as [->|Hne]; simpl.
    + intuition.
    + rewrite IH. intuition.
Qed.

Lemma set_unique_keys (V : Type) k (v : V) m :
  JsMap.unique_keys m -> JsMap.unique_keys (JsMap.set k v m).
Proof.
  unfold JsMap.unique_keys.
  induction m as [|[k' v'] r IH]; simpl; intros Hm.
  - constructor; [intros []|constructor].
  - inversion Hm as [|? ? Hnotin Hr]; subst.
    destruct (String.eqb_spec k k') as [->|Hne]; simpl.
    + now constructor.
    + constructor; [|now apply IH].
      intros Hin. apply (keys_set_in k v r k') in Hin.
      destruct Hin as [->|Hin]; [now apply Hne | now apply Hnotin].
Qed.

Lemma of_list_invariant (V : Type) (P : JsMap.t V -> Prop)
  (l : list (string * V)) :
  P JsMap.empty ->
  (forall k v m, In (k, v) l -> P m -> P (JsMap.set k v m)) ->
  P (JsMap.of_list l).
Proof.
  unfold JsMap.of_list. generalize (@JsMap.empty V) as m.
  induction l as [|[k v] r IH]; intros m Hm Hstep; simpl; [assumption|].
  apply IH.
  - apply Hstep; [now left | assumption].
  - intros k' v' m' Hin. apply Hstep. now right.
Qed.

Lemma to_map_unique_keys l : JsMap.unique_keys (to_map l).
Proof.
  unfold to_map. apply of_list_invariant.
  - constructor.
  - intros k v m _. apply set_unique_keys.
Qed.

Lemma get_of_entry (V : Type) (m : JsMap.t V) k v :
  JsMap.unique_keys m -> In (k, v) m -> JsMap.get k m = Some v.
Proof.
  unfold JsMap.unique_keys, JsMap.keys.
  induction m as [|[k' v'] r IH]; simpl; intros Hu Hin; [contradiction|].
  inversion Hu as [|? ? Hnotin Hr]; subst.
  destruct Hin as [Heq|Hin].
  - inversion Heq; subst. now rewrite String.eqb_refl.
  - destruct (String.eqb_spec k k') as [->|Hne]; [|now apply IH].
    exfalso. apply Hnotin. now apply (in_map fst) in Hin.
Qed.

Lemma set_values (V : Type) (P : V -> Prop) k (v : V) m :
  P v -> Forall (fun p => P (snd p)) m ->
  Forall (fun p => P (snd p)) (JsMap.set k v m).
Proof.
  intros Hv. induction m as [|[k' v'] r IH]; simpl; intros Hm.
  - now repeat constructor.
  - inversion Hm; subst.
    destruct (String.eqb k k'); constructor; auto.
Qed.





Lemma push_found_eq acc n remote :
  push_found acc n remote = acc ++ found n remote.
Proof.
  unfold push_found, found.
  destruct (find_by_name n remote); [reflexivity | now rewrite app_nil_r].
Qed.

(** The first loop in closed form. *)
Lemma scan_remote_closed entries localMap remote : forall A M h,
  scan_remote entries localMap remote (A, M, h)
  = (A ++ flat_map (fun p => if counts_as_added localMap p
                             then found (fst p) remote else []) entries,
     M ++ flat_map (fun p => if counts_as_modified localMap p
                             then found (fst p) remote else []) entries,
     (h || existsb (fun p => counts_as_added localMap p
                             || counts_as_modified localMap p) entries)%bool).
Proof.
  induction entries as [|[n rm] rest IH]; intros A M h.
  - cbn. now rewrite !app_nil_r, orb_false_r.
  - cbn [scan_remote flat_map existsb].
    unfold counts_as_added at 1 3, counts_as_modified at 1 3.
    cbn [fst snd].
    destruct (JsMap.get n localMap) as [[localTime|]|].
    + destruct (match rm with
                | Some remoteTime => negb (remoteTime =? localTime)
                | None => true
                end).
      * rewrite IH, push_found_eq. cbn [app orb].
        now rewrite <- app_assoc, orb_true_r.
      * rewrite IH. cbn [app orb]. reflexivity.
    + rewrite IH, push_found_eq. cbn [app orb].
      now rewrite <- app_assoc, orb_true_r.
    + rewrite IH, push_found_eq. cbn [app orb].
      now rewrite <- app_assoc, orb_true_r.
Qed.

(** The second loop in closed form. *)
Lemma scan_local_closed localKeys remoteMap : forall D h,
  scan_local localKeys remoteMap (D, h)
  = (D ++ filter (fun n => negb (JsMap.has n remoteMap)) localKeys,
     (h || existsb (fun n => negb (JsMap.has n remoteMap)) localKeys)%bool).
Proof.
  induction localKeys as [|n rest IH]; intros D h.
  - cbn. now rewrite app_nil_r, orb_false_r.
  - cbn [scan_local filter existsb fst].
    destruct (JsMap.has n remoteMap); cbn [negb orb].
    + apply IH.
    + rewrite IH. now rewrite <- app_assoc, orb_true_r.
Qed.

Lemma keys_fold_set (l : list (string * option Z)) : forall m n,
  In n (JsMap.keys (fold_left (fun m' p => JsMap.set (fst p) (snd p) m') l m))
  <-> In n (JsMap.keys m) \/ In n (map fst l).
Proof.
  induction l as [|[k v] r IH]; intros m n; cbn [fold_left map fst snd].
  - simpl. intuition.
  - rewrite IH, keys_set_in. simpl. intuition.
Qed.

Lemma keys_to_map l n : In n (JsMap.keys (to_map l)) <-> In n (names l).
Proof.
  unfold to_map, JsMap.of_list, names. rewrite keys_fold_set.
  rewrite map_map. simpl. intuition.
Qed.

Lemma get_none_iff (V : Type) (m : JsMap.t V) n :
  JsMap.get n m = None <-> ~ In n (JsMap.keys m).
Proof.
  unfold JsMap.keys. induction m as [|[k v] r IH]; simpl.
  - intuition.
  - destruct (String.eqb_spec n k) as [->|Hne].
    + split; [discriminate | intros H; exfalso; apply H; now left].
    + rewrite IH. intuition congruence.
Qed.

Lemma get_some_in (V : Type) (m : JsMap.t V) n v :
  JsMap.get n m = Some v -> In (n, v) m.
Proof.
  induction m as [|[k w] r IH]; simpl; [discriminate|].
  destruct (String.eqb_spec n k) as [->|Hne].
  - intros H. inversion H. now left.
  - intros H. right. now apply IH.
Qed.

Lemma has_true_iff (V : Type) (m : JsMap.t V) n :
  JsMap.has n m = true <-> In n (JsMap.keys m).
Proof.
  unfold JsMap.has. pose proof (get_none_iff m n) as Hn.
  destruct (JsMap.get n m).
  - split; [intros _|reflexivity].
    destruct (in_dec string_dec n (JsMap.keys m)) as [Hin|Hout];
      [assumption|]. apply Hn in Hout. discriminate.
  - split; [discriminate|]. intros Hin. now apply (proj1 Hn) in Hin.
Qed.

Lemma found_of_name n remote :
  In n (names remote) ->
  exists obj, found n remote = [obj] /\ name obj = n /\ In obj remote.
Proof.
  unfold found, find_by_name, names. intros Hin.
  apply in_map_iff in Hin as [o [Ho Hin]].
  destruct (find (fun obj => String.eqb (name obj) n) remote) as [obj|] eqn:E.
  - apply find_some in E as [Hobj Hname]. apply String.eqb_eq in Hname.
    now exists obj.
  - apply (find_none _ _ E) in Hin. rewrite Ho, String.eqb_refl in Hin.
    discriminate.
Qed.

Lemma found_names n remote obj : In obj (found n remote) -> name obj = n.
Proof.
  unfold found, find_by_name.
  destruct (find (fun o => String.eqb (name o) n) remote) as [o|] eqn:E;
    [|intros []].
  apply find_some in E as [_ Hname]. apply String.eqb_eq in Hname.
  intros [<-|[]]. assumption.
Qed.

Lemma detectChanges_closed local remote :
  detectChanges local remote
  = {| hasChanges :=
         (existsb (fun p => counts_as_added (to_map local) p
                            || counts_as_modified (to_map local) p)
            (to_map remote)
          || existsb (fun n => negb (JsMap.has n (to_map remote)))
               (JsMap.keys (to_map local)))%bool;
       added :=
         flat_map (fun p => if counts_as_added (to_map local) p
                            then found (fst p) remote else [])
           (to_map remote);
       deleted :=
         filter (fun n => negb (JsMap.has n (to_map remote)))
           (JsMap.keys (to_map local));
       modified :=
         flat_map (fun p => if counts_as_modified (to_map local) p
                            then found (fst p) remote else [])
           (to_map remote) |}.
Proof.
  unfold detectChanges.
  rewrite scan_remote_closed. rewrite scan_local_closed. reflexivity.
Qed.

(** An entry of the map of [remote] that counts finds its object. *)
Lemma entry_found remote n v :
  In (n, v) (to_map remote) ->
  exists obj, found n remote = [obj] /\ name obj = n /\ In obj remote.
Proof.
  intros Hin. apply found_of_name, keys_to_map.
  unfold JsMap.keys. now apply (in_map fst) in Hin.
Qed.

(** The delta, key by key.  [lookup] gives the [lastModified] a side
    holds for a key; the second and third part speak of keys the local
    side holds with a [lastModified]. *)
Lemma detectChanges_delta local remote :
  let delta := detectChanges local remote in
  (forall n, In n (names remote) -> ~ In n (names local) ->
             exists obj, In obj (added delta) /\ name obj = n
                         /\ In obj remote)
  /\ (forall n, In n (names local) -> ~ In n (names remote) ->
                In n (deleted delta))
  /\ (forall n localTime remoteModified,
         lookup n local = Some (Some localTime) ->
         lookup n remote = Some remoteModified ->
         remoteModified <> Some localTime ->
         exists obj, In obj (modified delta) /\ name obj = n
                     /\ In obj remote)
  /\ (forall n localTime,
         lookup n local = Some (Some localTime) ->
         lookup n remote = Some (Some localTime) ->
         ~ In n (names (added delta)) /\ ~ In n (names (modified delta))
         /\ ~ In n (deleted delta))
  /\ (hasChanges delta = true
      <-> added delta <> [] \/ modified delta <> [] \/ deleted delta <> []).
Proof.
  intros delta. subst delta. rewrite detectChanges_closed.
  cbn [added deleted modified hasChanges]. unfold lookup.
  split; [|split; [|split; [|split]]].
  - intros n Hr Hl.
    apply keys_to_map in Hr. apply has_true_iff in Hr.
    unfold JsMap.has in Hr.
    destruct (JsMap.get n (to_map remote)) as [v|] eqn:Hget; [|discriminate].
    apply get_some_in in Hget.
    destruct (entry_found _ _ _ Hget) as [obj [Hfound [Hname Hobj]]].
    exists obj. split; [|now split].
    apply in_flat_map. exists (n, v). split; [assumption|].
    unfold counts_as_added. cbn [fst].
    assert (Hnone : JsMap.get n (to_map local) = None)
      by (apply get_none_iff; now rewrite keys_to_map).
    rewrite Hnone, Hfound. now left.
  - intros n Hl Hr. apply filter_In. split.
    + now apply keys_to_map.
    + apply negb_true_iff.
      destruct (JsMap.has n (to_map remote)) eqn:E; [|reflexivity].
      apply has_true_iff, keys_to_map in E. contradiction.
  - intros n localTime remoteModified Hl Hr Hdiff.
    apply get_some_in in Hr.
    destruct (entry_found _ _ _ Hr) as [obj [Hfound [Hname Hobj]]].
    exists obj. split; [|now split].
    apply in_flat_map. exists (n, remoteModified). split; [assumption|].
    unfold counts_as_modified. cbn [fst snd]. rewrite Hl.
    destruct remoteModified as [remoteTime|].
    + destruct (Z.eqb_spec remoteTime localTime) as [->|Hne];
        [congruence|]. cbn [negb]. rewrite Hfound. now left.
    + rewrite Hfound. now left.
  - intros n localTime Hl Hr.
    assert (Hentry : forall v, In (n, v) (to_map remote) ->
                               v = Some localTime).
    { intros v Hin.
      apply (get_of_entry _ _ (to_map_unique_keys remote)) in Hin.
      congruence. }
    split; [|split].
    + unfold names. intros Hin.
      apply in_map_iff in Hin as [obj [Hname Hin]].
      apply in_flat_map in Hin as [[k v] [Hkv Hin]]. cbn [fst] in Hin.
      destruct (counts_as_added (to_map local) (k, v)) eqn:E;
        [|contradiction].
      apply found_names in Hin. rewrite Hname in Hin. subst k.
      unfold counts_as_added in E. cbn [fst] in E. rewrite Hl in E.
      discriminate.
    + unfold names. intros Hin.
      apply in_map_iff in Hin as [obj [Hname Hin]].
      apply in_flat_map in Hin as [[k v] [Hkv Hin]]. cbn [fst] in Hin.
      destruct (counts_as_modified (to_map local) (k, v)) eqn:E;
        [|contradiction].
      apply found_names in Hin. rewrite Hname in Hin. subst k.
      rewrite (Hentry _ Hkv) in E.
      unfold counts_as_modified in E. cbn [fst snd] in E. rewrite Hl in E.
      now rewrite Z.eqb_refl in E.
    + intros Hin. apply filter_In in Hin as [_ Hin].
      apply negb_true_iff in Hin. unfold JsMap.has in Hin.
      now rewrite Hr in Hin.
  - rewrite orb_true_iff, !existsb_exists. split.
    + intros [[[k v] [Hin Hp]]|[n [Hin Hp]]].
      * destruct (entry_found _ _ _ Hin) as [obj [Hfound _]].
        apply orb_true_iff in Hp as [Hp|Hp].
        -- left. intros Hnil.
           assert (Hobj : In obj
                     (flat_map
                        (fun p => if counts_as_added (to_map local) p
                                  then found (fst p) remote else [])
                        (to_map remote))).
           { apply in_flat_map. exists (k, v). split; [assumption|].
             rewrite Hp. cbn [fst]. rewrite Hfound. now left. }
           now rewrite Hnil in Hobj.
        -- right. left. intros Hnil.
           assert (Hobj : In obj
                     (flat_map
                        (fun p => if counts_as_modified (to_map local) p
                                  then found (fst p) remote else [])
                        (to_map remote))).
           { apply in_flat_map. exists (k, v). split; [assumption|].
             rewrite Hp. cbn [fst]. rewrite Hfound. now left. }
           now rewrite Hnil in Hobj.
      * right. right. intros Hnil.
        assert (Hn : In n (filter
                             (fun n => negb (JsMap.has n (to_map remote)))
                             (JsMap.keys (to_map local))))
          by (apply filter_In; now split).
        now rewrite Hnil in Hn.
    + intros [H|[H|H]].
      * left.
        destruct (flat_map _ (to_map remote)) as [|obj rest] eqn:E in H;
          [congruence|].
        assert (Hobj : In obj
                  (flat_map
                     (fun p => if counts_as_added (to_map local) p
                               then found (fst p) remote else [])
                     (to_map remote))) by (rewrite E; now left).
        apply in_flat_map in Hobj as [p [Hin Hp]].
        exists p. split; [assumption|].
        destruct (counts_as_added (to_map local) p); [reflexivity|].
        contradiction.
      * left.
        destruct (flat_map _ (to_map remote)) as [|obj rest] eqn:E in H;
          [congruence|].
        assert (Hobj : In obj
                  (flat_map
                     (fun p => if counts_as_modified (to_map local) p
                               then found (fst p) remote else [])
                     (to_map remote))) by (rewrite E; now left).
        apply in_flat_map in Hobj as [p [Hin Hp]].
        exists p. split; [assumption|].
        destruct (counts_as_modified (to_map local) p);
          [apply orb_true_r | contradiction].
      * right.
        destruct (filter _ (JsMap.keys (to_map local))) as [|n rest] eqn:E
          in H; [congruence|].
        assert (Hn : In n (filter
                             (fun n => negb (JsMap.has n (to_map remote)))
                             (JsMap.keys (to_map local))))
          by (rewrite E; now left).
        apply filter_In in Hn. now exists n.
Qed.

End SyncFacts.

(** The delta of the design document's example: [b] changed its time and
    [c] is new. *)
Example detectChanges_example :
  let a := {| Types.name := "a"; Types.lastModified := Some 1 |} in
  let b2 := {| Types.name := "b"; Types.lastModified := Some 2 |} in
  let b3 := {| Types.name := "b"; Types.lastModified := Some 3 |} in
  let c := {| Types.name := "c"; Types.lastModified := Some 4 |} in
  SyncService.detectChanges [a; b2] [a; b3; c]
  = {| Types.hasChanges := true; Types.added := [c];
       Types.deleted := []; Types.modified := [b3] |}.
Proof. reflexivity. Qed.

(** C3: the claim fails on the code for an object without a
    [lastModified].  [localMap.get(name)] is then [undefined], the test
    [!localModified] takes the key for one the local list lacks, and the
    object is reported as added: with equal (absent) times on both sides,
    and with a time that appeared on the remote side, where the claim
    says unchanged and modified. *)
Lemma detectChanges_without_lastModified :
  let a := {| Types.name := "a"; Types.lastModified := None |} in
  let a5 := {| Types.name := "a"; Types.lastModified := Some 5 |} in
  SyncService.detectChanges [a] [a]
  = {| Types.hasChanges := true; Types.added := [a];
       Types.deleted := []; Types.modified := [] |}
  /\ SyncService.detectChanges [a] [a5]
     = {| Types.hasChanges := true; Types.added := [a5];
          Types.deleted := []; Types.modified := [] |}.
Proof. split; reflexivity. Qed.

(** ** The lazy loader *)

Section LazyFacts.
Import LazyImageService.
Variable placeholderUrl : string.

Lemma attempts_app l1 l2 : attempts (l1 ++ l2) = (attempts l1 + attempts l2)%nat.
Proof. unfold attempts. now rewrite filter_app, length_app. Qed.

Lemma attempts_failed_rounds url count : forall attempt,
  attempts (failed_rounds url attempt count) = count.
Proof.
  induction count as [|c IH]; intros attempt; [reflexivity|].
  unfold attempts in *. cbn [failed_rounds filter is_attempt List.length].
  now rewrite IH.
Qed.

(** The loop, started at [attempt] with [k] more attempts allowed after
    it, when every attempt fails. *)
Lemma retry_loop_all_fail url (k : nat) : forall attempt i log,
  retry_loop placeholderUrl (S k) attempt (attempt + Z.of_nat k) url
    (fun _ => false) i log
  = Some (failed_image placeholderUrl i,
          log ++ failed_rounds url attempt k
              ++ [LoadAttempt (attempt + Z.of_nat k) url; LoadFailed url]).
Proof.
  induction k as [|k IH]; intros attempt i log.
  - cbn [retry_loop failed_rounds Z.of_nat]. rewrite Z.add_0_r.
    rewrite Z.leb_refl, Z.eqb_refl. cbn [app].
    now rewrite <- app_assoc.
  - remember (S k) as fuel eqn:Hfuel.
    cbn [retry_loop].
    replace (attempt <=? attempt + Z.of_nat fuel) with true
      by (symmetry; apply Z.leb_le; lia).
    replace (attempt =? attempt + Z.of_nat fuel) with false
      by (symmetry; apply Z.eqb_neq; lia).
    replace (attempt + Z.of_nat fuel) with (attempt + 1 + Z.of_nat k)
      by lia.
    subst fuel. rewrite IH. cbn [failed_rounds].
    unfold failed_image, set_src, add_class. cbn [dataSrc classList].
    repeat rewrite <- app_assoc. reflexivity.
Qed.

Lemma loadImageWithRetry_all_fail url i n :
  0 < n ->
  loadImageWithRetry placeholderUrl url i n (fun _ => false)
  = Some (failed_image placeholderUrl i,
          failed_rounds url 1 (Z.to_nat (n - 1))
          ++ [LoadAttempt n url; LoadFailed url]).
Proof.
  intros Hn. unfold loadImageWithRetry.
  replace (Z.to_nat n) with (S (Z.to_nat (n - 1))) by lia.
  replace n with (1 + Z.of_nat (Z.to_nat (n - 1))) at 2 4 by lia.
  now rewrite retry_loop_all_fail.
Qed.

(** The loop ends within the fuel [loadImageWithRetry] gives it, whatever
    the attempts do. *)
Lemma retry_loop_total url outcome maxRetries (fuel : nat) :
  forall attempt i log,
    maxRetries - attempt + 1 <= Z.of_nat fuel ->
    exists result,
      retry_loop placeholderUrl fuel attempt maxRetries url outcome i log
      = Some result.
Proof.
  induction fuel as [|fuel IH]; intros attempt i log Hfuel.
  - cbn [retry_loop].
    replace (attempt <=? maxRetries) with false
      by (symmetry; apply Z.leb_gt; lia).
    eauto.
  - cbn [retry_loop].
    destruct (attempt <=? maxRetries) eqn:Hle; [|eauto].
    destruct (outcome attempt); [eauto|].
    destruct (attempt =? maxRetries); [eauto|].
    apply IH. lia.
Qed.

Lemma loadImageWithRetry_total url i maxRetries outcome :
  exists result,
    loadImageWithRetry placeholderUrl url i maxRetries outcome = Some result.
Proof. unfold loadImageWithRetry. apply retry_loop_total. lia. Qed.

(** An element without [data-src] never starts a load. *)
Lemma step_without_data_src opts ev el :
  dataSrc (img el) = None ->
  snd (step placeholderUrl opts ev el) = []
  /\ img (fst (step placeholderUrl opts ev el)) = img el.
Proof.
  intros Hd. destruct ev; simpl; unfold has_data_src; rewrite ?Hd.
  - now split.
  - destruct (idlePending el); now split.
  - destruct (observed el && isIntersecting)%bool; now split.
  - now split.
Qed.

Lemma run_without_data_src opts evs : forall el,
  dataSrc (img el) = None ->
  snd (run placeholderUrl opts evs el) = []
  /\ img (fst (run placeholderUrl opts evs el)) = img el.
Proof.
  induction evs as [|ev rest IH]; intros el Hd; [now split|].
  simpl.
  destruct (step_without_data_src opts ev el Hd) as [Hlog Himg].
  destruct (step placeholderUrl opts ev el) as [el1 log1]. simpl in *.
  assert (Hd1 : dataSrc (img el1) = None) by now rewrite Himg.
  destruct (IH el1 Hd1) as [Hlog2 Himg2].
  destruct (run placeholderUrl opts rest el1) as [el2 log2]. simpl in *.
  subst. split; [reflexivity | congruence].
Qed.

End LazyFacts.

(** C7.  An observed image with a [data-src] enters the viewport and its
    resource fails on every attempt, under a retry count [n] of at least
    one (the default is three).  The service makes exactly [n] attempts,
    sleeps [min(1000 * 2^(k-1), 3000)] milliseconds between attempt [k]
    and attempt [k + 1], then adds the class [error] and shows the
    placeholder; whatever happens to the element afterwards (it is
    observed again, idle callbacks run, it intersects again), no further
    attempt is made and the image stays as it is. *)
Theorem failing_image_is_retried_then_marked :
  forall (placeholderUrl url : string) (opts : LazyImageService.options)
         (el : LazyImageService.element)
         (later : list LazyImageService.event),
    0 < LazyImageService.retryCount opts ->
    LazyImageService.observed el = true ->
    LazyImageService.dataSrc (LazyImageService.img el) = Some url ->
    url <> "" ->
    LazyImageService.src (LazyImageService.img el) <> url ->
    let n := LazyImageService.retryCount opts in
    let result :=
      LazyImageService.step placeholderUrl opts
        (LazyImageService.Intersection true (fun _ => false)) el in
    snd result
    = LazyImageService.failed_rounds url 1 (Z.to_nat (n - 1))
      ++ [LazyImageService.LoadAttempt n url; LazyImageService.LoadFailed url]
    /\ LazyImageService.attempts (snd result) = Z.to_nat n
    /\ (forall k, LazyImageService.backoff_delay k
                  = Z.min (1000 * 2 ^ (k - 1)) 3000)
    /\ LazyImageService.src (LazyImageService.img (fst result))
       = placeholderUrl
    /\ In "error"
         (LazyImageService.classList (LazyImageService.img (fst result)))
    /\ snd (LazyImageService.run placeholderUrl opts later (fst result)) = []
    /\ LazyImageService.img
         (fst (LazyImageService.run placeholderUrl opts later (fst result)))
       = LazyImageService.img (fst result).
Proof.
  intros placeholderUrl url opts el later Hn Hobs Hdata Hurl Hsrc n result.
  assert (Hres : result
                 = ({| LazyImageService.img :=
                         LazyImageService.failed_image placeholderUrl
                           (LazyImageService.remove_data_src
                              (LazyImageService.img el));
                       LazyImageService.registered :=
                         LazyImageService.registered el;
                       LazyImageService.idlePending :=
                         LazyImageService.idlePending el;
                       LazyImageService.observed := false |},
                    LazyImageService.failed_rounds url 1 (Z.to_nat (n - 1))
                    ++ [LazyImageService.LoadAttempt n url;
                        LazyImageService.LoadFailed url])).
  { subst result. unfold LazyImageService.step.
    rewrite Hobs, Hdata. cbn [andb].
    apply String.eqb_neq in Hurl, Hsrc. rewrite Hurl, Hsrc. cbn [negb andb].
    now rewrite loadImageWithRetry_all_fail. }
  rewrite Hres. cbn [fst snd LazyImageService.img].
  split; [reflexivity|].
  split.
  { rewrite attempts_app, attempts_failed_rounds.
    unfold LazyImageService.attempts. cbn. lia. }
  split; [reflexivity|].
  split; [reflexivity|].
  split.
  { unfold LazyImageService.failed_image, LazyImageService.add_class.
    cbn [LazyImageService.classList].
    destruct (existsb (String.eqb "error") _) eqn:E.
    - apply existsb_exists in E as [c [Hc He]].
      apply String.eqb_eq in He. now subst c.
    - apply in_or_app. right. now left. }
  apply run_without_data_src. reflexivity.
Qed.

(** The default options on a fresh grid item: three attempts, pauses of
    one and two seconds. *)
Lemma failing_image_is_retried_then_marked_witness :
  snd (LazyImageService.step "data:placeholder"
         (LazyImageService.resolve_options None None)
         (LazyImageService.Intersection true (fun _ => false))
         {| LazyImageService.img :=
              {| LazyImageService.src := "data:placeholder";
                 LazyImageService.dataSrc := Some "https://cdn/a.png";
                 LazyImageService.classList := [] |};
            LazyImageService.registered := true;
            LazyImageService.idlePending := false;
            LazyImageService.observed := true |})
  = [LazyImageService.LoadAttempt 1 "https://cdn/a.png";
     LazyImageService.Sleep 1000;
     LazyImageService.LoadAttempt 2 "https://cdn/a.png";
     LazyImageService.Sleep 2000;
     LazyImageService.LoadAttempt 3 "https://cdn/a.png";
     LazyImageService.LoadFailed "https://cdn/a.png"].
Proof.
  refine (proj1 (@failing_image_is_retried_then_marked "data:placeholder"
                   "https://cdn/a.png"
                   (LazyImageService.resolve_options None None) _ []
                   _ _ _ _ _)).
  - reflexivity.
  - reflexivity.
  - reflexivity.
  - discriminate.
  - discriminate.
Defined.

(** ** The gallery view *)

(** C9.  When the listing stream reports an error, [sync] rejects with
    that error and returns the cache as it was; [loadGallery] ends with
    the known objects, the visible images and the cache of the view as
    they were before the call.  Objects the stream delivered before the
    error are not kept. *)
Theorem failed_sync_keeps_state :
  forall (renderImages :
            list Types.MinioObject -> ImageCache.state -> ImageCache.state)
         (cache : ImageCache.state) (localObjects : list Types.MinioObject)
         (events : list SyncService.stream_event) (message : string)
         (forceRefresh : bool) (currentTime : Z) (v : MinioGalleryView.view),
    SyncService.fetchRemoteObjects events = Types.Rejected message ->
    SyncService.sync cache localObjects events = (cache, Types.Rejected message)
    /\ (let v' := MinioGalleryView.loadGallery renderImages forceRefresh
                    currentTime events v in
        Types.remoteObjects (MinioGalleryView.state v')
        = Types.remoteObjects (MinioGalleryView.state v)
        /\ Types.visibleImages (MinioGalleryView.state v')
           = Types.visibleImages (MinioGalleryView.state v)
        /\ MinioGalleryView.cache v' = MinioGalleryView.cache v
        /\ MinioGalleryView.allImageUrls v' = MinioGalleryView.allImageUrls v).
Proof.
  intros renderImages cache localObjects events message forceRefresh
         currentTime v Hfetch.
  assert (Hsync : forall c l,
             SyncService.sync c l events = (c, Types.Rejected message))
    by (intros c l; unfold SyncService.sync; now rewrite Hfetch).
  split; [apply Hsync|].
  unfold MinioGalleryView.loadGallery.
  destruct (Types.isLoading (MinioGalleryView.state v)); [now repeat split|].
  destruct (negb forceRefresh && _)%bool; [now repeat split|].
  cbn [MinioGalleryView.bucket MinioGalleryView.cache MinioGalleryView.state].
  destruct (String.eqb (MinioGalleryView.bucket v) "").
  - now repeat split.
  - rewrite Hsync. now repeat split.
Qed.

(** A forced refresh whose stream delivers one object and then fails. *)
Lemma failed_sync_keeps_state_witness :
  let known := [ {| Types.name := "a.png"; Types.lastModified := Some 1 |} ] in
  let v :=
    {| MinioGalleryView.state :=
         {| Types.remoteObjects := known; Types.visibleImages := known;
            Types.isSearching := false; Types.savedSearchTerm := "";
            Types.useRegexSearch := false;
            Types.currentPreviewIndex := None; Types.isLoading := false |};
       MinioGalleryView.lastLoadTime := 0;
       MinioGalleryView.bucket := "photos";
       MinioGalleryView.grid := Some known;
       MinioGalleryView.indicators := [];
       MinioGalleryView.notices := [];
       MinioGalleryView.cache := ImageCache.initial;
       MinioGalleryView.allImageUrls := JsMap.empty |} in
  let events :=
    [ SyncService.OnData
        {| Types.name := "b.png"; Types.lastModified := Some 2 |};
      SyncService.OnError "socket hang up" ] in
  SyncService.sync ImageCache.initial known events
  = (ImageCache.initial, Types.Rejected "socket hang up")
  /\ Types.remoteObjects
       (MinioGalleryView.state
          (MinioGalleryView.loadGallery (fun _ c => c) true 5 events v))
     = known.
Proof.
  intros known v events.
  pose proof (@failed_sync_keeps_state (fun _ c => c) ImageCache.initial
                known events "socket hang up" true 5 v eq_refl)
    as [Hsync [Hknown _]].
  split; [exact Hsync | exact Hknown].
Defined.

(** C8.  A search in regex mode whose pattern the regular expression
    constructor rejects: [search] throws [t('Invalid regex pattern')],
    a colon and the message of the constructor; [handleSearch] leaves
    the visible images and the grid as they were, and, unless the gallery
    is loading (when it returns at once), shows the message in a notice.
    A pattern of white space only never reaches the constructor
    ([search] returns early); the constructor of the host accepts such a
    pattern, so the second premise holds for every pattern it rejects. *)
Theorem invalid_regex_is_reported :
  forall (generateUrl t : string -> string) (R : Type)
         (newRegExp : string -> string + R) (test : R -> string -> bool)
         (renderImages :
            list Types.MinioObject -> ImageCache.state -> ImageCache.state)
         (searchText message : string) (v : MinioGalleryView.view),
    newRegExp (SearchService.convertWildcardToRegex searchText) = inl message ->
    JsString.trim_is_empty searchText = false ->
    Types.useRegexSearch (MinioGalleryView.state v) = true ->
    let report := (t "Invalid regex pattern" ++ ": " ++ message)%string in
    let v' := MinioGalleryView.handleSearch generateUrl t newRegExp test
                renderImages searchText v in
    (forall urls objects,
        SearchService.search generateUrl t newRegExp test urls objects
          searchText true = (urls, inl report))
    /\ Types.visibleImages (MinioGalleryView.state v')
       = Types.visibleImages (MinioGalleryView.state v)
    /\ Types.remoteObjects (MinioGalleryView.state v')
       = Types.remoteObjects (MinioGalleryView.state v)
    /\ MinioGalleryView.grid v' = MinioGalleryView.grid v
    /\ (Types.isLoading (MinioGalleryView.state v) = false ->
        MinioGalleryView.notices v' = MinioGalleryView.notices v ++ [report]).
Proof.
  intros generateUrl t R newRegExp test renderImages searchText message v
         Hbad Htrim Hregex report v'.
  assert (Hsearch : forall urls objects,
             SearchService.search generateUrl t newRegExp test urls objects
               searchText true = (urls, inl report)).
  { intros urls objects. unfold SearchService.search.
    rewrite Htrim. unfold SearchService.regexSearch. now rewrite Hbad. }
  split; [exact Hsearch|].
  subst v'. unfold MinioGalleryView.handleSearch.
  destruct (Types.isLoading (MinioGalleryView.state v)) eqn:Hload.
  - repeat split; discriminate.
  - rewrite Htrim.
    cbn [MinioGalleryView.set_search Types.useRegexSearch
         Types.remoteObjects].
    rewrite Hregex, Hsearch. now repeat split.
Qed.

(** The query ["**a"] is rewritten to ["*a.*"], which starts with a
    quantifier. *)
Lemma invalid_regex_is_reported_witness :
  let known := [ {| Types.name := "a.png"; Types.lastModified := Some 1 |} ] in
  let v :=
    {| MinioGalleryView.state :=
         {| Types.remoteObjects := known; Types.visibleImages := known;
            Types.isSearching := false; Types.savedSearchTerm := "";
            Types.useRegexSearch := true;
            Types.currentPreviewIndex := None; Types.isLoading := false |};
       MinioGalleryView.lastLoadTime := 0;
       MinioGalleryView.bucket := "photos";
       MinioGalleryView.grid := Some known;
       MinioGalleryView.indicators := [];
       MinioGalleryView.notices := [];
       MinioGalleryView.cache := ImageCache.initial;
       MinioGalleryView.allImageUrls := JsMap.empty |} in
  let v' := MinioGalleryView.handleSearch (fun n => n) (fun s => s)
              RegExpModel.RegExp_i RegExpModel.test (fun _ c => c) "**a" v in
  Types.visibleImages (MinioGalleryView.state v') = known
  /\ MinioGalleryView.notices v'
     = ["Invalid regex pattern: Invalid regular expression: /*a.*/i: Nothing to repeat"].
Proof.
  intros known v v'.
  pose proof (@invalid_regex_is_reported (fun n => n) (fun s => s) _
                RegExpModel.RegExp_i RegExpModel.test (fun _ c => c)
                "**a"
                "Invalid regular expression: /*a.*/i: Nothing to repeat"
                v eq_refl eq_refl eq_refl)
    as [_ [Hvisible [_ [_ Hnotice]]]].
  split; [exact Hvisible | exact (Hnotice eq_refl)].
Defined.

(** ** Strings *)

Section StringFacts.
Import JsString.

Lemma append_assoc (a b c : string) : ((a ++ b) ++ c = a ++ (b ++ c))%string.
Proof. induction a as [|x a IH]; simpl; [reflexivity | now rewrite IH]. Qed.

Lemma append_nil_r (a : string) : (a ++ "" = a)%string.
Proof. induction a as [|x a IH]; simpl; [reflexivity | now rewrite IH]. Qed.

Lemma length_append (a b : string) :
  String.length (a ++ b) = (String.length a + String.length b)%nat.
Proof. induction a as [|x a IH]; simpl; [reflexivity | now rewrite IH]. Qed.

Lemma substring_whole_prefix (a b : string) :
  String.substring 0 (String.length a) (a ++ b) = a.
Proof.
  induction a as [|x a IH]; simpl.
  - destruct b; reflexivity.
  - now rewrite IH.
Qed.

Lemma prefix_refl (a : string) : String.prefix a a = true.
Proof.
  induction a as [|x a IH]; simpl; [reflexivity|].
  destruct (ascii_dec x x); [assumption | congruence].
Qed.

Lemma prefix_nil (s : string) : String.prefix "" s = true.
Proof. destruct s; reflexivity. Qed.

Lemma startsWith_first (c : ascii) (s : string) :
  startsWith (String c s) (String c "") = true.
Proof.
  unfold startsWith. cbn [String.prefix].
  destruct (ascii_dec c c); [apply prefix_nil | congruence].
Qed.

Lemma startsWith_other (c d : ascii) (s : string) :
  c <> d -> startsWith (String c s) (String d "") = false.
Proof.
  intros Hne. unfold startsWith. cbn [String.prefix].
  destruct (ascii_dec d c); [congruence | reflexivity].
Qed.

Lemma endsWith_append (a b : string) : endsWith (a ++ b) b = true.
Proof.
  induction a as [|x a IH]; simpl.
  - destruct b; simpl; [reflexivity|].
    now rewrite Ascii.eqb_refl, String.eqb_refl.
  - rewrite IH. apply orb_true_r.
Qed.

Lemma endsWith_includes (s u : string) :
  endsWith s u = true -> includes s u = true.
Proof.
  induction s as [|x s IH]; cbn [endsWith includes]; intros H.
  - rewrite orb_false_r in H. apply String.eqb_eq in H. now subst u.
  - apply orb_true_iff in H as [H|H].
    + apply String.eqb_eq in H. subst u.
      rewrite (prefix_refl (String x s)). reflexivity.
    + rewrite (IH H). apply orb_true_r.
Qed.

(** A text that does not end with a star. *)
Lemma endsWith_star_false (x : string) :
  x <> "" ->
  forallb_string (fun c => negb (Ascii.eqb c "*")) x = true ->
  forall p, endsWith (p ++ x) "*" = false.
Proof.
  intros Hne Hx.
  assert (Hbase : endsWith x "*" = false).
  { induction x as [|c r IH]; [congruence|].
    simpl in Hx. apply andb_true_iff in Hx as [Hc Hr].
    apply negb_true_iff in Hc.
    cbn [endsWith String.eqb]. rewrite Hc. cbn [orb].
    destruct r as [|d r']; [reflexivity|].
    apply IH; [discriminate | assumption]. }
  induction p as [|d p IH]; [exact Hbase|].
  cbn [append endsWith String.eqb].
  rewrite IH, orb_false_r.
  destruct (Ascii.eqb d "*"); [|reflexivity].
  destruct p; destruct x; simpl; congruence.
Qed.

Lemma existsb_forallb_string (P : ascii -> bool) (s : string) (c : ascii) :
  forallb_string P s = true ->
  existsb_string (Ascii.eqb c) s = true -> P c = true.
Proof.
  induction s as [|d s IH]; simpl; intros Hall Hex; [discriminate|].
  apply andb_true_iff in Hall as [Hd Hs].
  apply orb_true_iff in Hex as [Hex|Hex].
  - apply Ascii.eqb_eq in Hex. now subst d.
  - now apply IH.
Qed.

Lemma existsb_string_append (P : ascii -> bool) (a b : string) :
  existsb_string P (a ++ b)
  = (existsb_string P a || existsb_string P b)%bool.
Proof.
  induction a as [|x a IH]; simpl; [reflexivity|].
  now rewrite IH, orb_assoc.
Qed.

Lemma slice_inner (x : string) c d :
  slice (String c x ++ String d "") 1 (-1) = x.
Proof.
  unfold slice.
  assert (Hlen : Z.of_nat (String.length (String c x ++ String d ""))
                 = Z.of_nat (String.length x) + 2)
    by (rewrite length_append; cbn [String.length]; lia).
  rewrite Hlen.
  replace (1 <? 0) with false by reflexivity.
  replace (-1 <? 0) with true by reflexivity.
  rewrite Z.min_l by lia.
  replace (Z.to_nat 1) with 1%nat by reflexivity.
  replace (Z.to_nat (Z.max _ 0)) with (String.length x) by lia.
  cbn [append String.substring]. apply substring_whole_prefix.
Qed.

Lemma slice_from_tail (x : string) c : slice_from (String c x) 1 = x.
Proof.
  unfold slice_from, slice.
  assert (Hlen : Z.of_nat (String.length (String c x))
                 = Z.of_nat (String.length x) + 1)
    by (cbn [String.length]; lia).
  rewrite Hlen.
  replace (1 <? 0) with false by reflexivity.
  replace (Z.of_nat (String.length x) + 1 <? 0) with false
    by (symmetry; apply Z.ltb_ge; lia).
  rewrite Z.min_l by lia. rewrite Z.min_id.
  replace (Z.to_nat 1) with 1%nat by reflexivity.
  replace (Z.to_nat (Z.max _ 0)) with (String.length x) by lia.
  cbn [String.substring].
  rewrite <- (append_nil_r x) at 2. apply substring_whole_prefix.
Qed.

Lemma slice_front (x : string) d : slice (x ++ String d "") 0 (-1) = x.
Proof.
  unfold slice.
  assert (Hlen : Z.of_nat (String.length (x ++ String d ""))
                 = Z.of_nat (String.length x) + 1)
    by (rewrite length_append; cbn [String.length]; lia).
  rewrite Hlen.
  replace (0 <? 0) with false by reflexivity.
  replace (-1 <? 0) with true by reflexivity.
  rewrite Z.min_l by lia.
  replace (Z.to_nat 0) with 0%nat by reflexivity.
  replace (Z.to_nat (Z.max _ 0)) with (String.length x) by lia.
  apply substring_whole_prefix.
Qed.

End StringFacts.

(** ** The wildcard rewriting and the regular expressions it produces *)

Section WildcardFacts.
Import JsString RegExpModel SearchService Wildcard.

Lemma forallb_string_impl (P Q : ascii -> bool) (s : string) :
  (forall c, P c = true -> Q c = true) ->
  forallb_string P s = true -> forallb_string Q s = true.
Proof.
  intros HPQ. induction s as [|c s IH]; simpl; [trivial|].
  intros H. apply andb_true_iff in H as [Hc Hs].
  now rewrite (HPQ _ Hc), (IH Hs).
Qed.

Lemma forallb_existsb_string (P Q : ascii -> bool) (s : string) :
  (forall c, P c = true -> Q c = false) ->
  forallb_string P s = true -> existsb_string Q s = false.
Proof.
  intros HPQ. induction s as [|c s IH]; simpl; [trivial|].
  intros H. apply andb_true_iff in H as [Hc Hs].
  now rewrite (HPQ _ Hc), (IH Hs).
Qed.

Lemma not_syntax_not_in (set : string) (c : ascii) :
  forallb_string isSyntaxCharacter set = true ->
  isSyntaxCharacter c = false ->
  existsb_string (Ascii.eqb c) set = false.
Proof.
  intros Hset Hc.
  destruct (existsb_string (Ascii.eqb c) set) eqn:E; [|reflexivity].
  rewrite (existsb_forallb_string _ _ _ Hset E) in Hc. discriminate.
Qed.

Lemma noMeta_no_special (x : string) :
  noMetaCharacters x = true -> hasSpecialChars x = false.
Proof.
  unfold noMetaCharacters, hasSpecialChars.
  apply forallb_existsb_string. intros c Hc.
  apply negb_true_iff in Hc. now apply not_syntax_not_in.
Qed.

Lemma noMeta_no_star (x : string) :
  noMetaCharacters x = true ->
  forallb_string (fun c => negb (Ascii.eqb c "*")) x = true.
Proof.
  apply forallb_string_impl. intros c Hc.
  apply negb_true_iff in Hc. apply negb_true_iff.
  apply (@not_syntax_not_in "*" c eq_refl) in Hc.
  simpl in Hc. now rewrite orb_false_r in Hc.
Qed.

Lemma hasSpecialChars_append (a b : string) :
  hasSpecialChars (a ++ b)
  = (hasSpecialChars a || hasSpecialChars b)%bool.
Proof. apply existsb_string_append. Qed.

(** The three shapes of the rewriting. *)
Lemma convert_both (x : string) :
  noMetaCharacters x = true ->
  convertWildcardToRegex ("*" ++ x ++ "*") = (".*" ++ x ++ ".*")%string.
Proof.
  intros Hx. unfold convertWildcardToRegex.
  rewrite !hasSpecialChars_append, (noMeta_no_special _ Hx).
  change (hasSpecialChars "*") with false. cbn [orb negb].
  change ("*" ++ x ++ "*")%string with (String "*" x ++ "*")%string.
  rewrite endsWith_append.
  cbn [append]. rewrite startsWith_first. cbn [andb].
  change (String "*" (x ++ "*"))%string with (String "*" x ++ "*")%string.
  now rewrite slice_inner.
Qed.

Lemma convert_leading (x : string) :
  noMetaCharacters x = true -> x <> "" ->
  convertWildcardToRegex ("*" ++ x) = (x ++ ".*")%string.
Proof.
  intros Hx Hne. unfold convertWildcardToRegex.
  rewrite hasSpecialChars_append, (noMeta_no_special _ Hx).
  change (hasSpecialChars "*") with false. cbn [orb negb].
  rewrite (endsWith_star_false Hne (noMeta_no_star _ Hx) "*").
  change ("*" ++ x)%string with (String "*" x).
  rewrite startsWith_first. cbn [andb].
  now rewrite slice_from_tail.
Qed.

Lemma convert_trailing (x : string) :
  noMetaCharacters x = true -> x <> "" ->
  convertWildcardToRegex (x ++ "*") = (".*" ++ x)%string.
Proof.
  intros Hx Hne. unfold convertWildcardToRegex.
  rewrite hasSpecialChars_append, (noMeta_no_special _ Hx).
  change (hasSpecialChars "*") with false. cbn [orb negb].
  rewrite endsWith_append.
  assert (Hstart : startsWith (x ++ "*") "*" = false).
  { pose proof (noMeta_no_star _ Hx) as Hs.
    destruct x as [|c r]; [congruence|].
    simpl in Hs. apply andb_true_iff in Hs as [Hc _].
    apply negb_true_iff, Ascii.eqb_neq in Hc.
    cbn [append]. now apply startsWith_other. }
  rewrite Hstart. cbn [andb]. now rewrite slice_front.
Qed.

Lemma convert_star : convertWildcardToRegex "*" = ".*.*".
Proof. reflexivity. Qed.

(** The parser on a text without metacharacters, followed by a pattern
    that does not start with a star. *)
Lemma parse_literals (x rest : string) :
  noMetaCharacters x = true ->
  starts_without_star rest ->
  parse (x ++ rest)
  = match parse rest with
    | inl message => inl message
    | inr r => inr (literals x ++ r)
    end.
Proof.
  intros Hx Hrest. induction x as [|c x IH].
  - simpl. destruct (parse rest); reflexivity.
  - unfold noMetaCharacters in Hx. simpl in Hx.
    apply andb_true_iff in Hx as [Hc Hx]. apply negb_true_iff in Hc.
    specialize (IH Hx).
    assert (Hstar : Ascii.eqb c "*" = false).
    { apply (@not_syntax_not_in "*" c eq_refl) in Hc.
      simpl in Hc. now rewrite orb_false_r in Hc. }
    assert (Hdot : Ascii.eqb c "." = false).
    { apply (@not_syntax_not_in "." c eq_refl) in Hc.
      simpl in Hc. now rewrite orb_false_r in Hc. }
    cbn [append parse literals]. rewrite Hstar, Hc, Hdot. cbn [andb].
    destruct x as [|d x'].
    + cbn [append] in *. destruct rest as [|e rest'].
      * reflexivity.
      * simpl in Hrest. rewrite Hrest.
        unfold cons_item. cbn [literals app].
        destruct (parse (String e rest')); reflexivity.
    + assert (Hd : Ascii.eqb d "*" = false).
      { pose proof (noMeta_no_star _ Hx) as Hs. simpl in Hs.
        apply andb_true_iff in Hs as [Hs _].
        now apply negb_true_iff in Hs. }
      cbn [append] in *. rewrite Hd, IH.
      unfold cons_item.
      destruct (parse rest); reflexivity.
Qed.

Lemma parse_dot_star (rest : string) :
  parse (".*" ++ rest)
  = match parse rest with
    | inl message => inl message
    | inr r => inr (dot_star :: r)
    end.
Proof. reflexivity. Qed.

End WildcardFacts.

Section MatchFacts.
Import JsString RegExpModel SearchService Wildcard.

Lemma match_here_star (a : atom) (r : regex) (s : string) :
  match_here ({| item_atom := a; item_star := true |} :: r) s
  = (match_here r s
     || match s with
        | EmptyString => false
        | String c s' =>
            (atom_matches a c
             && match_here ({| item_atom := a; item_star := true |} :: r) s')
        end)%bool.
Proof. destruct s; reflexivity. Qed.

Lemma test_unfold (r : regex) (s : string) :
  test r s
  = (match_here r s
     || match s with
        | EmptyString => false
        | String _ s' => test r s'
        end)%bool.
Proof. destruct s; reflexivity. Qed.

(** What a leading [a*] can skip, the search can skip as well. *)
Lemma star_match_is_found (a : atom) (r : regex) (s : string) :
  match_here ({| item_atom := a; item_star := true |} :: r) s = true ->
  test r s = true.
Proof.
  induction s as [|c s IH]; rewrite match_here_star, test_unfold;
    intros H; apply orb_true_iff in H as [H|H].
  - now rewrite H.
  - discriminate.
  - now rewrite H.
  - apply andb_true_iff in H as [_ H]. rewrite (IH H). apply orb_true_r.
Qed.

Lemma test_leading_star (a : atom) (r : regex) (s : string) :
  test ({| item_atom := a; item_star := true |} :: r) s = test r s.
Proof.
  induction s as [|c s IH].
  - rewrite !test_unfold, match_here_star. now rewrite !orb_false_r.
  - rewrite (test_unfold _ (String c s)), (test_unfold r (String c s)).
    rewrite IH, match_here_star.
    destruct (match_here r (String c s)); [reflexivity|]. cbn [orb].
    destruct (test r s) eqn:Ht; [now rewrite orb_true_r|].
    rewrite orb_false_r.
    destruct (atom_matches a c); [|reflexivity]. cbn [andb].
    destruct (match_here _ s) eqn:Hm; [|reflexivity].
    apply star_match_is_found in Hm. congruence.
Qed.

(** The literals of a text match the prefixes that spell the text,
    letter case ignored. *)
Lemma match_here_literals (x : string) (r : regex) :
  (forall s', match_here r s' = true) ->
  forall s,
    match_here (literals x ++ r) s
    = String.prefix (fold_case x) (fold_case s).
Proof.
  intros Hr. induction x as [|c x IH]; intros s.
  - cbn [literals app fold_case map_string]. now rewrite Hr, prefix_nil.
  - destruct s as [|d s]; [reflexivity|].
    cbn [literals app match_here fold_case map_string String.prefix
         atom_matches].
    fold (fold_case x). fold (fold_case s). rewrite IH.
    destruct (ascii_dec (canonicalize c) (canonicalize d)) as [E|E].
    + rewrite E, Ascii.eqb_refl. reflexivity.
    + apply Ascii.eqb_neq in E. now rewrite E.
Qed.

Lemma test_literals (x : string) (r : regex) :
  (forall s', match_here r s' = true) ->
  forall s, test (literals x ++ r) s = includes_ci s x.
Proof.
  intros Hr. unfold includes_ci.
  induction s as [|c s IH]; rewrite test_unfold, match_here_literals by auto.
  - reflexivity.
  - rewrite IH. reflexivity.
Qed.

Lemma match_here_dot_star (s : string) : match_here [dot_star] s = true.
Proof. unfold dot_star. now rewrite match_here_star. Qed.

Lemma includes_ci_empty (url : string) : includes_ci url "" = true.
Proof.
  unfold includes_ci. destruct url; cbn [fold_case map_string includes];
    now rewrite ?prefix_nil.
Qed.

(** What the search does with the three shapes: each keeps the URLs
    that contain the text, letter case ignored. *)
Lemma matches_both (x url : string) :
  noMetaCharacters x = true ->
  matches ("*" ++ x ++ "*") url = inr (includes_ci url x).
Proof.
  intros Hx. unfold matches, regexTest, RegExp_i.
  rewrite (convert_both _ Hx), parse_dot_star.
  rewrite (@parse_literals x ".*" Hx eq_refl).
  change (parse ".*") with (inr (A := string) [dot_star]).
  cbv beta iota.
  unfold dot_star at 1. rewrite test_leading_star.
  now rewrite (@test_literals x [dot_star] match_here_dot_star).
Qed.

Lemma matches_leading (x url : string) :
  noMetaCharacters x = true ->
  matches ("*" ++ x) url = inr (includes_ci url x).
Proof.
  intros Hx. unfold matches, regexTest, RegExp_i.
  destruct (string_dec x "") as [->|Hne].
  - rewrite includes_ci_empty. cbn [append]. rewrite convert_star.
    change (parse ".*.*") with (inr (A := string) [dot_star; dot_star]).
    cbv beta iota.
    unfold dot_star at 1. rewrite test_leading_star.
    now rewrite (@test_literals "" [dot_star] match_here_dot_star),
      includes_ci_empty.
  - rewrite (convert_leading Hx Hne).
    rewrite (@parse_literals x ".*" Hx eq_refl).
    change (parse ".*") with (inr (A := string) [dot_star]).
  cbv beta iota.
    now rewrite (@test_literals x [dot_star] match_here_dot_star).
Qed.

Lemma matches_trailing (x url : string) :
  noMetaCharacters x = true ->
  matches (x ++ "*") url = inr (includes_ci url x).
Proof.
  intros Hx. unfold matches, regexTest, RegExp_i.
  destruct (string_dec x "") as [->|Hne].
  - rewrite includes_ci_empty. cbn [append]. rewrite convert_star.
    change (parse ".*.*") with (inr (A := string) [dot_star; dot_star]).
    cbv beta iota.
    unfold dot_star at 1. rewrite test_leading_star.
    now rewrite (@test_literals "" [dot_star] match_here_dot_star),
      includes_ci_empty.
  - rewrite (convert_trailing Hx Hne), parse_dot_star.
    rewrite <- (append_nil_r x) at 1.
    rewrite (@parse_literals x "" Hx I).
    change (parse "") with (inr (A := string) (@nil item)).
    cbv beta iota.
    unfold dot_star at 1. rewrite test_leading_star.
    now rewrite (@test_literals x [] (fun _ => eq_refl)).
Qed.

End MatchFacts.

(** C2.  The code does not do what the claim says for the queries with
    one star.  For a text [x] without metacharacters, with [x] and the URL
    strings of ASCII characters, in regex mode: each of the queries [*x*],
    [*x] and [x*] keeps exactly the URLs that contain [x], letter case
    ignored (the regex has the flag [i]).  The rewriting gives [*x] the
    pattern [x.*] and [x*] the pattern [.*x], the reverse of a suffix and a
    prefix pattern, and the test is not anchored.  So ["cat*"] keeps
    ["bigcat.png"], which does not start with [cat], and ["*cat"] keeps
    ["catfood.png"], which does not end with [cat], in whatever letter
    case. *)
Theorem wildcard_search :
  forall (x url : string),
    Wildcard.noMetaCharacters x = true ->
    JsString.isAscii x = true ->
    JsString.isAscii url = true ->
    Wildcard.matches ("*" ++ x ++ "*") url = inr (Wildcard.includes_ci url x)
    /\ Wildcard.matches ("*" ++ x) url = inr (Wildcard.includes_ci url x)
    /\ Wildcard.matches (x ++ "*") url = inr (Wildcard.includes_ci url x)
    /\ (x <> "" ->
        SearchService.convertWildcardToRegex ("*" ++ x) = (x ++ ".*")%string
        /\ SearchService.convertWildcardToRegex (x ++ "*")
           = (".*" ++ x)%string)
    /\ Wildcard.matches "cat*" "bigcat.png" = inr true
    /\ Wildcard.startsWith_ci "bigcat.png" "cat" = false
    /\ Wildcard.matches "*cat" "catfood.png" = inr true
    /\ Wildcard.endsWith_ci "catfood.png" "cat" = false
    /\ Wildcard.matches "*cat*" "MYCATPIC.PNG" = inr true.
Proof.
  intros x url Hx _ _.
  split; [now apply matches_both|].
  split; [now apply matches_leading|].
  split; [now apply matches_trailing|].
  split.
  { intros Hne. split; [now apply convert_leading | now apply convert_trailing]. }
  repeat split.
Qed.

Lemma wildcard_search_witness :
  Wildcard.matches ("cat" ++ "*") "bigcat.png"
  = inr (Wildcard.includes_ci "bigcat.png" "cat")
  /\ Wildcard.includes_ci "bigcat.png" "cat" = true
  /\ SearchService.convertWildcardToRegex ("cat" ++ "*") = ".*cat".
Proof.
  destruct (@wildcard_search "cat" "bigcat.png" eq_refl eq_refl eq_refl)
    as [_ [_ [Htrailing [Hconvert _]]]].
  split; [exact Htrailing|]. split; [reflexivity|].
  exact (proj2 (Hconvert ltac:(discriminate))).
Defined.


(** ** The search over a listing *)

Section SearchFacts.
Import Types SearchService.
Variable generateUrl : string -> string.
Variable t : string -> string.

Lemma resolve_url_consistent urls n :
  SearchCache.consistent generateUrl urls ->
  fst (resolve_url generateUrl urls n) = generateUrl n.
Proof.
  intros Hc. unfold resolve_url.
  destruct (JsMap.get n urls) as [u|] eqn:E; [|reflexivity].
  destruct (String.eqb u ""); [reflexivity|]. simpl. now apply Hc.
Qed.

Lemma set_consistent urls n :
  SearchCache.consistent generateUrl urls ->
  SearchCache.consistent generateUrl (JsMap.set n (generateUrl n) urls).
Proof.
  intros Hc k u. destruct (string_dec k n) as [->|Hne].
  - rewrite get_set_same. congruence.
  - rewrite get_set_other by assumption. apply Hc.
Qed.

(** The loop keeps the images whose generated URL the predicate accepts,
    in the order of the listing. *)
Lemma search_loop_filter (accepts : string -> bool) objects :
  forall urls matched,
    SearchCache.consistent generateUrl urls ->
    snd (search_loop generateUrl accepts objects urls matched)
    = matched
      ++ filter (fun obj => FileUtils.isImageFile (name obj)
                            && accepts (generateUrl (name obj)))%bool
           objects
    /\ SearchCache.consistent generateUrl
         (fst (search_loop generateUrl accepts objects urls matched)).
Proof.
  induction objects as [|obj rest IH]; intros urls matched Hc.
  - cbn. now rewrite app_nil_r.
  - cbn [search_loop filter].
    destruct (FileUtils.isImageFile (name obj)); cbn [negb andb].
    + pose proof (resolve_url_consistent (name obj) Hc) as Hurl.
      destruct (resolve_url generateUrl urls (name obj)) as [url cached].
      cbn [fst] in Hurl. subst url.
      destruct (accepts (generateUrl (name obj))).
      * destruct (IH (if cached then urls
                      else JsMap.set (name obj) (generateUrl (name obj)) urls)
                    (matched ++ [obj])) as [Hm Hu].
        { destruct cached; [assumption | now apply set_consistent]. }
        rewrite Hm. split; [now rewrite <- app_assoc | assumption].
      * now apply IH.
    + now apply IH.
Qed.

(** In regex mode the query [*x*], for a text [x] without
    metacharacters, keeps the images whose URL contains [x], letter case
    ignored. *)
Lemma search_keeps_containing (x : string) urls objects :
  Wildcard.noMetaCharacters x = true ->
  SearchCache.consistent generateUrl urls ->
  snd (search generateUrl t RegExpModel.RegExp_i RegExpModel.test urls
         objects ("*" ++ x ++ "*") true)
  = inr (let kept :=
           filter (fun obj =>
                     FileUtils.isImageFile (name obj)
                     && Wildcard.includes_ci (generateUrl (name obj)) x)%bool
             objects in
         {| matchedObjects := kept; totalCount := List.length kept |}).
Proof.
  intros Hx Hc. unfold search.
  change (JsString.trim_is_empty ("*" ++ x ++ "*")) with false.
  cbv beta iota. unfold regexSearch.
  pose proof (fun url => @matches_both x url Hx) as Hm.
  unfold Wildcard.matches, regexTest in Hm.
  destruct (RegExpModel.RegExp_i (convertWildcardToRegex ("*" ++ x ++ "*")))
    as [message|regex].
  - specialize (Hm ""). discriminate.
  - destruct (search_loop_filter (RegExpModel.test regex) objects [] Hc)
      as [Hkept _].
    destruct (search_loop generateUrl (RegExpModel.test regex) objects urls [])
      as [urls' kept]. cbn [snd app] in *. subst kept.
    f_equal.
    assert (Hfilter :
              filter (fun obj => FileUtils.isImageFile (name obj)
                                 && RegExpModel.test regex
                                      (generateUrl (name obj)))%bool objects
              = filter (fun obj =>
                          FileUtils.isImageFile (name obj)
                          && Wildcard.includes_ci (generateUrl (name obj)) x)%bool
                  objects).
    { apply filter_ext. intros obj. f_equal.
      specialize (Hm (generateUrl (name obj))). now inversion Hm. }
    now rewrite Hfilter.
Qed.

End SearchFacts.

(** ** More on the URL cache: accounting, eviction order, persistence *)

Section CacheAccounting.
Import ImageCache ImageCacheSession.

Lemma filter_split_perm (A : Type) (f : A -> bool) (l : list A) :
  Permutation (filter f l ++ filter (fun x => negb (f x)) l) l.
Proof.
induction l as [|x r IH]; simpl; [constructor|].
destruct (f x); simpl.
- now apply perm_skip.
- apply Permutation_sym.
  eapply perm_trans; [|apply Permutation_middle].
  apply perm_skip. now apply Permutation_sym.
Qed.

Lemma insert_by_index_perm p l : Permutation (insert_by_index p l) (p :: l).
Proof.
induction l as [|q r IH]; simpl; [apply Permutation_refl|].
destruct (index_or_zero (fst p) <=? index_or_zero (fst q))%N;
  [apply Permutation_refl|].
eapply perm_trans; [apply perm_skip, IH | apply perm_swap].
Qed.

Lemma own_property_order_perm m : Permutation (own_property_order m) m.
Proof.
unfold own_property_order.
eapply perm_trans; [|apply (filter_split_perm is_index)].
apply Permutation_app_tail.
induction (filter is_index m) as [|p r IH]; simpl; [constructor|].
eapply perm_trans; [apply insert_by_index_perm | now apply perm_skip].
Qed.

Lemma keys_filter_unique (V : Type) (f : string * V -> bool) (m : JsMap.t V) :
  JsMap.unique_keys m -> JsMap.unique_keys (filter f m).
Proof.
unfold JsMap.unique_keys, JsMap.keys.
induction m as [|p r IH]; simpl; intros Hm; [constructor|].
inversion Hm as [|? ? Hnotin Hr]; subst.
destruct (f p); simpl; [|now apply IH].
constructor; [|now apply IH].
intros Hin. apply Hnotin.
apply in_map_iff in Hin as [q [Hq Hin]]. apply filter_In in Hin as [Hin _].
rewrite <- Hq. now apply in_map.
Qed.

Lemma delete_well_formed key m : well_formed m -> well_formed (JsMap.delete key m).
Proof.
intros [Hu Hs]. split.
- now apply keys_filter_unique.
- unfold sizes_exact, JsMap.delete in *. rewrite Forall_forall in *.
  intros p Hin. apply filter_In in Hin as [Hin _]. now apply Hs.
Qed.

Lemma set_well_formed key v now' m :
  well_formed m ->
  well_formed
    (JsMap.set key {| data := v; timestamp := now'; size := blobSize v |} m).
Proof.
intros [Hu Hs]. split.
- now apply set_unique_keys.
- unfold sizes_exact.
  apply (@set_values _ (fun c => size c = blobSize (data c)));
    [reflexivity | assumption].
Qed.

Lemma cleanup_loop_well_formed entries : forall m freed,
  well_formed m -> well_formed (cleanup_loop entries m freed).
Proof.
induction entries as [|[k c] rest IH]; intros m freed Hm; simpl;
  [assumption|].
destruct (getTotalCacheSize m - freed <=? targetSize); [assumption|].
apply IH. now apply delete_well_formed.
Qed.

Lemma cleanupOldCache_map e s :
  imageCache (cleanupOldCache e s)
  = cleanup_loop (sort_by_timestamp (imageCache s)) (imageCache s) 0.
Proof. unfold cleanupOldCache. now rewrite saveCache_map. Qed.

Lemma set_map key v e s :
  imageCache (set key v e s)
  = JsMap.set key {| data := v; timestamp := now e; size := blobSize v |}
      (imageCache (if needs_cleanup v s then cleanupOldCache e s else s)).
Proof. reflexivity. Qed.

Lemma get_map key e s :
  imageCache (snd (get key e s)) = imageCache s
  \/ imageCache (snd (get key e s)) = JsMap.delete key (imageCache s).
Proof.
unfold get. destruct (JsMap.get key (imageCache s)) as [c|]; [|now left].
destruct (expired e c); [|now left]. right. cbn [snd].
now rewrite saveCache_map.
Qed.

Lemma set_map_well_formed key v e s :
  well_formed (imageCache s) -> well_formed (imageCache (set key v e s)).
Proof.
intros Hs. rewrite set_map. apply set_well_formed.
destruct (needs_cleanup v s); [|assumption].
rewrite cleanupOldCache_map. now apply cleanup_loop_well_formed.
Qed.

Lemma permutation_well_formed (m m' : JsMap.t entry) :
  Permutation m' m -> well_formed m -> well_formed m'.
Proof.
intros Hp [Hu Hs]. split.
- unfold JsMap.unique_keys, JsMap.keys in *.
  apply (Permutation_NoDup (l := map fst m));
    [apply Permutation_map, Permutation_sym, Hp | assumption].
- unfold sizes_exact in *. rewrite Forall_forall in *.
  intros p Hin. apply Hs. now apply (Permutation_in _ Hp).
Qed.

(** A save writes the map itself, so the snapshot is as well formed as
    the map. *)
Lemma saveCache_well_formed e s :
  CacheOps.state_well_formed s -> CacheOps.state_well_formed (saveCache e s).
Proof.
intros [Hm Hl]. unfold saveCache.
destruct (dirty s); [|now split].
destruct (setItem_ok e); [|now split].
split; [exact Hm | exact Hm].
Qed.

Lemma with_map_well_formed s m :
  CacheOps.state_well_formed s -> well_formed m ->
  CacheOps.state_well_formed (with_map s m).
Proof. intros [_ Hl] Hm. split; [exact Hm | exact Hl]. Qed.

Lemma get_well_formed key e s :
  CacheOps.state_well_formed s ->
  CacheOps.state_well_formed (snd (get key e s)).
Proof.
intros Hs. unfold get.
destruct (JsMap.get key (imageCache s)) as [c|]; [|assumption].
destruct (expired e c); [|assumption]. cbn [snd].
apply saveCache_well_formed, with_map_well_formed; [assumption|].
apply delete_well_formed, Hs.
Qed.

Lemma cleanupOldCache_well_formed e s :
  CacheOps.state_well_formed s ->
  CacheOps.state_well_formed (cleanupOldCache e s).
Proof.
intros Hs. unfold cleanupOldCache.
apply saveCache_well_formed, with_map_well_formed; [assumption|].
apply cleanup_loop_well_formed, Hs.
Qed.

(** Every call keeps the map and the stored snapshot well formed; [init]
    installs the stored snapshot, in the key order of [Object.entries]. *)
Lemma apply_well_formed o s :
  CacheOps.state_well_formed s ->
  CacheOps.state_well_formed (CacheOps.apply o s).
Proof.
intros Hs. destruct o as [k e|k e|k v e|k| |e|e]; cbn [CacheOps.apply].
- now apply get_well_formed.
- rewrite has_state. now apply get_well_formed.
- split; [apply set_map_well_formed, Hs|].
  unfold set, scheduleSave, CacheOps.stored_snapshot_well_formed.
  cbn [localStorage].
  destruct (needs_cleanup v s); [|apply Hs].
  apply (cleanupOldCache_well_formed e Hs).
- split; [cbn; apply delete_well_formed, Hs | apply Hs].
- split; [split; constructor | exact I].
- unfold saveTimer.
  destruct (saveCache_well_formed e Hs) as [Hm Hl]. split; [exact Hm|].
  exact Hl.
- unfold init. destruct Hs as [Hm Hl].
  unfold CacheOps.stored_snapshot_well_formed in Hl.
  destruct (localStorage s) as [snap|] eqn:E; [|split; [exact Hm|]].
  + destruct (now e - snap_timestamp snap <? CACHE_EXPIRY).
    * split.
      -- cbn [with_map imageCache].
         apply (permutation_well_formed (own_property_order_perm _) Hl).
      -- unfold CacheOps.stored_snapshot_well_formed. cbn [with_map localStorage].
         now rewrite E.
    * split; [exact Hm|].
      unfold CacheOps.stored_snapshot_well_formed. now rewrite E.
  + unfold CacheOps.stored_snapshot_well_formed. now rewrite E.
Qed.

Lemma run_well_formed ops : forall s,
  CacheOps.state_well_formed s ->
  CacheOps.state_well_formed (CacheOps.run ops s).
Proof.
unfold CacheOps.run.
induction ops as [|o rest IH]; intros s Hs; [assumption|].
cbn [fold_left]. apply IH. now apply apply_well_formed.
Qed.

Lemma reachable_well_formed ops :
  well_formed (imageCache (CacheOps.run ops initial)).
Proof.
apply (run_well_formed ops (s := initial)).
split; [split; constructor | exact I].
Qed.

Lemma total_shift (m : JsMap.t entry) : forall a,
  fold_left (fun total p => total + size (snd p)) m a
  = a + fold_right Z.add 0 (map (fun p => size (snd p)) m).
Proof.
induction m as [|p r IH]; intros a; simpl; [lia|]. rewrite IH. lia.
Qed.

Lemma total_is_stored_bytes m :
  sizes_exact m -> getTotalCacheSize m = stored_bytes m.
Proof.
intros Hs. unfold getTotalCacheSize, stored_bytes. rewrite total_shift.
rewrite Z.add_0_l.
induction Hs as [|p r Hp Hr IH]; [reflexivity|].
cbn [map fold_right]. now rewrite Hp, IH.
Qed.

Lemma blobSize_nonneg v : 0 <= blobSize v.
Proof. unfold blobSize. lia. Qed.

Lemma stored_bytes_nonneg m : 0 <= stored_bytes m.
Proof.
unfold stored_bytes. induction m as [|p r IH]; cbn [map fold_right]; [lia|].
pose proof (blobSize_nonneg (data (snd p))). lia.
Qed.

Lemma stored_bytes_entry m key c :
  JsMap.get key m = Some c -> blobSize (data c) <= stored_bytes m.
Proof.
intros Hget. apply get_some_in in Hget.
induction m as [|p r IH]; [contradiction|].
unfold stored_bytes. cbn [map fold_right]. fold (stored_bytes r).
pose proof (stored_bytes_nonneg r).
destruct Hget as [->|Hin].
- cbn [snd]. lia.
- specialize (IH Hin). pose proof (blobSize_nonneg (data (snd p))). lia.
Qed.

End CacheAccounting.

Section CacheEviction.
Import ImageCache ImageCacheSession.

Lemma insert_by_timestamp_perm p l :
  Permutation (insert_by_timestamp p l) (p :: l).
Proof.
induction l as [|q r IH]; simpl; [apply Permutation_refl|].
destruct (timestamp (snd p) <=? timestamp (snd q)); [apply Permutation_refl|].
eapply perm_trans; [apply perm_skip, IH | apply perm_swap].
Qed.

Lemma sort_by_timestamp_perm l : Permutation (sort_by_timestamp l) l.
Proof.
unfold sort_by_timestamp. induction l as [|p r IH]; simpl; [constructor|].
eapply perm_trans; [apply insert_by_timestamp_perm | now apply perm_skip].
Qed.

Lemma insert_by_timestamp_sorted p l :
  StronglySorted older_or_equal l ->
  StronglySorted older_or_equal (insert_by_timestamp p l).
Proof.
induction l as [|q r IH]; simpl; intros Hl.
- constructor; constructor.
- inversion Hl as [|? ? Hr Hq]; subst.
  destruct (Z.leb_spec (timestamp (snd p)) (timestamp (snd q))) as [Hle|Hgt].
  + constructor; [assumption|]. constructor; [exact Hle|].
    rewrite Forall_forall in *. intros x Hx. specialize (Hq x Hx).
    unfold older_or_equal in *. lia.
  + constructor; [now apply IH|].
    rewrite Forall_forall in *. intros x Hx.
    apply (Permutation_in _ (insert_by_timestamp_perm p r)) in Hx.
    destruct Hx as [<-|Hx]; [unfold older_or_equal; lia | now apply Hq].
Qed.

Lemma sort_by_timestamp_sorted l :
  StronglySorted older_or_equal (sort_by_timestamp l).
Proof.
unfold sort_by_timestamp. induction l as [|p r IH]; simpl; [constructor|].
now apply insert_by_timestamp_sorted.
Qed.

Lemma sorted_split l1 : forall l2,
  StronglySorted older_or_equal (l1 ++ l2) ->
  forall p q, In p l1 -> In q l2 -> older_or_equal p q.
Proof.
induction l1 as [|x l1 IH]; intros l2 Hs p q Hp Hq; [contradiction|].
simpl in Hs. inversion Hs as [|? ? Hrest Hx]; subst.
destruct Hp as [<-|Hp].
- rewrite Forall_forall in Hx. apply Hx, in_or_app. now right.
- now apply (IH l2).
Qed.

(** The loop deletes the keys of a front part of its list. *)
Lemma cleanup_loop_front entries : forall m freed,
  exists front back,
    entries = front ++ back
    /\ cleanup_loop entries m freed = delete_all front m.
Proof.
induction entries as [|[k c] rest IH]; intros m freed.
- exists [], []. now split.
- simpl. destruct (getTotalCacheSize m - freed <=? targetSize).
  + exists [], ((k, c) :: rest). now split.
  + destruct (IH (JsMap.delete k m) (freed + size c))
      as [front [back [Heq Hres]]].
    exists ((k, c) :: front), back. split; [now rewrite Heq|].
    exact Hres.
Qed.

Lemma get_delete_all l : forall m key,
  JsMap.get key (delete_all l m)
  = if existsb (fun p => String.eqb (fst p) key) l then None
    else JsMap.get key m.
Proof.
unfold delete_all.
induction l as [|[k c] r IH]; intros m key; simpl; [reflexivity|].
rewrite IH. destruct (String.eqb_spec k key) as [->|Hne]; simpl.
- destruct (existsb _ r); [reflexivity | apply get_delete_same].
- destruct (existsb _ r); [reflexivity|].
  apply get_delete_other. congruence.
Qed.

End CacheEviction.

(** X1.  In every state the cache reaches from its initial state by
    calls of its interface, no key occurs twice and the total that
    [getStats] reports is the number of bytes of the stored values. *)
Theorem cache_accounting_is_exact :
  forall (ops : list CacheOps.op),
    let s := CacheOps.run ops ImageCache.initial in
    JsMap.unique_keys (ImageCache.imageCache s)
    /\ ImageCacheSession.totalSize (ImageCacheSession.getStats s)
       = ImageCacheSession.stored_bytes (ImageCache.imageCache s)
    /\ 0 <= ImageCacheSession.totalSize (ImageCacheSession.getStats s).
Proof.
intros ops s. destruct (reachable_well_formed ops) as [Hu Hs].
fold s in Hu, Hs. split; [exact Hu|].
unfold ImageCacheSession.getStats. cbn [ImageCacheSession.totalSize].
rewrite (total_is_stored_bytes Hs). split; [reflexivity|].
apply stored_bytes_nonneg.
Qed.

(** X2.  [set] never refuses a value: whatever the cache holds and
    however large the value is, the value is readable right after the
    call and the total is at least its size; a value larger than
    [MAX_CACHE_SIZE] leaves the cache above the cap. *)
Theorem set_never_refuses :
  forall (ops : list CacheOps.op) (key v : string) (e : ImageCache.env),
    let s' := ImageCache.set key v e
                (CacheOps.run ops ImageCache.initial) in
    fst (ImageCache.get key e s') = Some v
    /\ ImageCache.blobSize v
       <= ImageCache.getTotalCacheSize (ImageCache.imageCache s')
    /\ (ImageCache.MAX_CACHE_SIZE < ImageCache.blobSize v ->
        ImageCache.MAX_CACHE_SIZE
        < ImageCache.getTotalCacheSize (ImageCache.imageCache s')).
Proof.
intros ops key v e s'.
assert (Hstored : JsMap.get key (ImageCache.imageCache s')
                  = Some {| ImageCache.data := v;
                            ImageCache.timestamp := ImageCache.now e;
                            ImageCache.size := ImageCache.blobSize v |})
  by apply set_stores.
assert (Hwf : ImageCacheSession.well_formed (ImageCache.imageCache s')).
{ apply set_map_well_formed, reachable_well_formed. }
assert (Hle : ImageCache.blobSize v
              <= ImageCache.getTotalCacheSize (ImageCache.imageCache s')).
{ rewrite (total_is_stored_bytes (proj2 Hwf)).
  apply (stored_bytes_entry _ _ Hstored). }
split; [|split; [exact Hle | lia]].
unfold ImageCache.get. rewrite Hstored.
assert (Hfresh : ImageCache.expired e
                   {| ImageCache.data := v;
                      ImageCache.timestamp := ImageCache.now e;
                      ImageCache.size := ImageCache.blobSize v |} = false)
  by (apply expired_false_iff; cbn; unfold ImageCache.CACHE_EXPIRY; lia).
now rewrite Hfresh.
Qed.

(** X3.  After [delete(key)] a [get] or [has] of the key misses at any
    clock value, and the entries of the other keys are untouched. *)
Theorem delete_forgets_key :
  forall (key other : string) (e : ImageCache.env) (s : ImageCache.state),
    fst (ImageCache.get key e (ImageCache.delete key s)) = None
    /\ fst (ImageCache.has key e (ImageCache.delete key s)) = false
    /\ (other <> key ->
        JsMap.get other (ImageCache.imageCache (ImageCache.delete key s))
        = JsMap.get other (ImageCache.imageCache s)).
Proof.
intros key other e s.
assert (Hgone : JsMap.get key
                  (ImageCache.imageCache (ImageCache.delete key s)) = None)
  by (cbn; apply get_delete_same).
unfold ImageCache.get, ImageCache.has. rewrite Hgone.
repeat split. intros Hne. cbn. now apply get_delete_other.
Qed.

(** X4.  [clear] empties the cache and removes the snapshot from the
    storage at once: every key misses and the statistics are zero.  The
    dirty flag outlives the call, so a save that was pending writes the
    empty map back when its timer fires. *)
Theorem clear_forgets_everything :
  forall (key : string) (e : ImageCache.env) (s : ImageCache.state),
    fst (ImageCache.get key e (ImageCache.clear s)) = None
    /\ fst (ImageCache.has key e (ImageCache.clear s)) = false
    /\ ImageCacheSession.getStats (ImageCache.clear s)
       = {| ImageCacheSession.count := 0;
            ImageCacheSession.totalSize := 0;
            ImageCacheSession.totalSizeMB_hundredths := 0 |}
    /\ ImageCache.localStorage (ImageCache.clear s) = None
    /\ (ImageCache.dirty s = true -> ImageCache.setItem_ok e = true ->
        ImageCache.localStorage
          (ImageCache.saveTimer e (ImageCache.clear s))
        = Some {| ImageCache.snap_data := JsMap.empty;
                  ImageCache.snap_timestamp := ImageCache.now e |}).
Proof.
intros key e s. repeat split.
intros Hd Hok. unfold ImageCache.saveTimer, ImageCache.saveCache.
cbn. now rewrite Hd, Hok.
Qed.

(** X5.  The eviction only deletes, and it deletes by age: an entry that
    survives it is unchanged, and when it deletes an entry it also deletes
    every entry with a smaller timestamp. *)
Theorem eviction_deletes_oldest_first :
  forall (e : ImageCache.env) (s : ImageCache.state)
         (key older : string) (c c' : ImageCache.entry),
    JsMap.unique_keys (ImageCache.imageCache s) ->
    JsMap.get key (ImageCache.imageCache s) = Some c ->
    JsMap.get older (ImageCache.imageCache s) = Some c' ->
    ImageCache.timestamp c' < ImageCache.timestamp c ->
    let after := ImageCache.imageCache (ImageCache.cleanupOldCache e s) in
    (forall k d, JsMap.get k after = Some d ->
                 JsMap.get k (ImageCache.imageCache s) = Some d)
    /\ (JsMap.get key after = None -> JsMap.get older after = None).
Proof.
intros e s key older c c' Hu Hkey Holder Hts after.
subst after. rewrite cleanupOldCache_map.
destruct (cleanup_loop_front
            (ImageCache.sort_by_timestamp (ImageCache.imageCache s))
            (ImageCache.imageCache s) 0) as [front [back [Hsplit Hres]]].
rewrite Hres. split.
- intros k d. rewrite get_delete_all.
  destruct (existsb _ front); [discriminate | trivial].
- rewrite !get_delete_all.
  destruct (existsb (fun p => String.eqb (fst p) key) front) eqn:Ek;
    [intros _ | congruence].
  destruct (existsb (fun p => String.eqb (fst p) older) front) eqn:Eo;
    [reflexivity | exfalso].
  apply existsb_exists in Ek as [[k d] [Hin Hk]].
  cbn [fst] in Hk. apply String.eqb_eq in Hk. subst k.
  pose proof (sort_by_timestamp_perm (ImageCache.imageCache s)) as Hperm.
  rewrite Hsplit in Hperm.
  assert (Hd : d = c).
  { assert (Hm : In (key, d) (ImageCache.imageCache s))
      by (apply (Permutation_in _ Hperm), in_or_app; now left).
    apply (get_of_entry _ _ Hu) in Hm. congruence. }
  subst d.
  assert (Ho : In (older, c') (front ++ back))
    by (apply (Permutation_in _ (Permutation_sym Hperm));
        now apply get_some_in).
  apply in_app_or in Ho as [Ho|Ho].
  + assert (Hex : existsb (fun p => String.eqb (fst p) older) front = true)
      by (apply existsb_exists; exists (older, c'); split;
          [assumption | apply String.eqb_refl]).
    congruence.
  + pose proof (sort_by_timestamp_sorted (ImageCache.imageCache s)) as Hs.
    rewrite Hsplit in Hs.
    pose proof (sorted_split _ _ Hs _ _ Hin Ho) as Hle.
    unfold ImageCacheSession.older_or_equal in Hle. cbn [snd] in Hle. lia.
Qed.


(** A cache of two small entries and one of 60 MiB, which is more than
    the cap: the eviction deletes the entries from the oldest on and
    reaches the second. *)
Lemma eviction_of_oversized_cache (v : string) :
  ImageCache.blobSize v = 62914560 ->
  let s := ImageCache.set "c.png" v (Fixtures.at_time 3)
             (ImageCache.set "b.png" "https://cdn/b.png" (Fixtures.at_time 2)
                (ImageCache.set "a.png" "https://cdn/a.png"
                   (Fixtures.at_time 1) ImageCache.initial)) in
  JsMap.unique_keys (ImageCache.imageCache s)
  /\ JsMap.get "b.png" (ImageCache.imageCache s)
     = Some {| ImageCache.data := "https://cdn/b.png";
               ImageCache.timestamp := 2; ImageCache.size := 17 |}
  /\ JsMap.get "a.png" (ImageCache.imageCache s)
     = Some {| ImageCache.data := "https://cdn/a.png";
               ImageCache.timestamp := 1; ImageCache.size := 17 |}
  /\ JsMap.get "b.png"
       (ImageCache.imageCache
          (ImageCache.cleanupOldCache (Fixtures.at_time 4) s))
     = None.
Proof.
intros Hv s.
assert (Hmap : ImageCache.imageCache s
               = [("a.png", {| ImageCache.data := "https://cdn/a.png";
                               ImageCache.timestamp := 1;
                               ImageCache.size := 17 |});
                  ("b.png", {| ImageCache.data := "https://cdn/b.png";
                               ImageCache.timestamp := 2;
                               ImageCache.size := 17 |});
                  ("c.png", {| ImageCache.data := v;
                               ImageCache.timestamp := 3;
                               ImageCache.size := 62914560 |})]).
{ subst s. unfold ImageCache.set, ImageCache.needs_cleanup.
  rewrite Hv. vm_compute. reflexivity. }
rewrite cleanupOldCache_map, Hmap.
split; [|split; [reflexivity | split; [reflexivity|]]].
- unfold JsMap.unique_keys, JsMap.keys. cbn [map fst].
  constructor; [cbn; intuition discriminate|].
  constructor; [cbn; intuition discriminate|].
  constructor; [cbn; intuition discriminate | constructor].
- vm_compute. reflexivity.
Qed.

(** The eviction on a cache that holds 60 MiB under its newest key: the
    entry of ["b.png"] is deleted, so the older entry of ["a.png"] is
    deleted as well. *)
Lemma eviction_deletes_oldest_first_witness :
  JsMap.get "a.png"
    (ImageCache.imageCache
       (ImageCache.cleanupOldCache (Fixtures.at_time 4)
          (ImageCache.set "c.png" (Fixtures.padding 62914560)
             (Fixtures.at_time 3)
             (ImageCache.set "b.png" "https://cdn/b.png" (Fixtures.at_time 2)
                (ImageCache.set "a.png" "https://cdn/a.png"
                   (Fixtures.at_time 1) ImageCache.initial)))))
  = None.
Proof.
destruct (@eviction_of_oversized_cache (Fixtures.padding 62914560)
            (blobSize_padding 62914560)) as [Hu [Hb [Ha Hgone]]].
exact (proj2 (@eviction_deletes_oldest_first (Fixtures.at_time 4) _
                "b.png" "a.png" _ _ Hu Hb Ha ltac:(cbn; lia))
         Hgone).
Defined.

Section CachePersistence.
Import ImageCache ImageCacheSession.

(** What a call answers and the map it leaves depend on the map and the
    clock only. *)
Lemma get_depends_on_map key e e' s s' :
  imageCache s = imageCache s' -> now e = now e' ->
  fst (get key e s) = fst (get key e' s')
  /\ imageCache (snd (get key e s)) = imageCache (snd (get key e' s')).
Proof.
intros Hm He. unfold get, expired. rewrite Hm, He.
destruct (JsMap.get key (imageCache s')) as [c|]; [|now split].
destruct (now e' - timestamp c >? CACHE_EXPIRY); [|now split].
cbn [fst snd]. rewrite !saveCache_map. now split.
Qed.

Lemma set_depends_on_map key v e e' s s' :
  imageCache s = imageCache s' -> now e = now e' ->
  imageCache (set key v e s) = imageCache (set key v e' s').
Proof.
intros Hm He. rewrite !set_map. unfold needs_cleanup. rewrite Hm, He.
destruct (getTotalCacheSize (imageCache s') + blobSize v >? MAX_CACHE_SIZE).
- rewrite !cleanupOldCache_map. now rewrite Hm.
- now rewrite Hm.
Qed.

Lemma apply_storage_fails o s s' :
  CacheOps.is_init o = false ->
  imageCache s = imageCache s' ->
  imageCache (CacheOps.apply (CacheOps.storage_fails o) s)
  = imageCache (CacheOps.apply o s').
Proof.
intros Hi Hm. destruct o as [k e|k e|k v e|k| |e|e];
  cbn [CacheOps.storage_fails CacheOps.apply].
- now apply get_depends_on_map.
- rewrite !has_state. now apply get_depends_on_map.
- now apply set_depends_on_map.
- cbn. now rewrite Hm.
- reflexivity.
- unfold saveTimer. cbn [imageCache]. now rewrite !saveCache_map.
- discriminate.
Qed.

Lemma run_storage_fails ops : forall s s',
  Forall (fun o => CacheOps.is_init o = false) ops ->
  imageCache s = imageCache s' ->
  imageCache (CacheOps.run (map CacheOps.storage_fails ops) s)
  = imageCache (CacheOps.run ops s').
Proof.
unfold CacheOps.run.
induction ops as [|o rest IH]; intros s s' Hi Hm; [assumption|].
inversion Hi as [|? ? Ho Hrest]; subst.
cbn [map fold_left]. apply IH; [assumption|]. now apply apply_storage_fails.
Qed.

(** Lookups do not depend on the order of a map without repeated keys. *)
Lemma get_permutation (m m' : JsMap.t entry) key :
  JsMap.unique_keys m -> Permutation m' m ->
  JsMap.get key m' = JsMap.get key m.
Proof.
intros Hu Hp.
assert (Hu' : JsMap.unique_keys m').
{ unfold JsMap.unique_keys, JsMap.keys in *.
  apply (Permutation_NoDup (l := map fst m));
    [apply Permutation_map, Permutation_sym, Hp | assumption]. }
destruct (JsMap.get key m) as [c|] eqn:E.
- apply get_some_in in E. apply (get_of_entry _ _ Hu').
  now apply (Permutation_in _ (Permutation_sym Hp)).
- apply get_none_iff. apply get_none_iff in E. intros Hin. apply E.
  unfold JsMap.keys in *.
  now apply (Permutation_in _ (Permutation_map fst Hp)).
Qed.

End CachePersistence.

(** X6.  As long as [init] is not called, a storage that refuses every
    write is invisible to the readers of the cache: a sequence of [get],
    [has], [set], [delete], [clear] and save timer calls leaves the same
    map, and a [get] answers the same, as with a storage that works.
    (The next [init] tells them apart: it loads what the storage
    holds.) *)
Theorem storage_failure_is_invisible :
  forall (ops : list CacheOps.op) (s : ImageCache.state) (key : string)
         (e : ImageCache.env),
    Forall (fun o => CacheOps.is_init o = false) ops ->
    ImageCache.imageCache
      (CacheOps.run (map CacheOps.storage_fails ops) s)
    = ImageCache.imageCache (CacheOps.run ops s)
    /\ fst (ImageCache.get key e
              (CacheOps.run (map CacheOps.storage_fails ops) s))
       = fst (ImageCache.get key e (CacheOps.run ops s)).
Proof.
intros ops s key e Hi.
pose proof (run_storage_fails s s Hi eq_refl) as Hm.
split; [exact Hm|].
now apply get_depends_on_map.
Qed.

Lemma storage_failure_is_invisible_witness :
  let ops :=
    [CacheOps.OpSet "a.png" "https://cdn/a.png" (Fixtures.at_time 1);
     CacheOps.OpSaveTimer (Fixtures.at_time 1001);
     CacheOps.OpSet "b.png" "https://cdn/b.png" (Fixtures.at_time 2000);
     CacheOps.OpDelete "a.png";
     CacheOps.OpSaveTimer (Fixtures.at_time 3000)] in
  fst (ImageCache.get "b.png" (Fixtures.at_time 4000)
         (CacheOps.run (map CacheOps.storage_fails ops) ImageCache.initial))
  = Some "https://cdn/b.png"
  /\ fst (ImageCache.get "b.png" (Fixtures.at_time 4000)
            (CacheOps.run ops ImageCache.initial))
     = Some "https://cdn/b.png"
  /\ ImageCache.localStorage
       (CacheOps.run (map CacheOps.storage_fails ops) ImageCache.initial)
     = None.
Proof.
intros ops.
pose proof (proj2 (@storage_failure_is_invisible ops ImageCache.initial
                     "b.png" (Fixtures.at_time 4000)
                     ltac:(repeat constructor))) as Hsame.
split; [|split; [|reflexivity]].
- rewrite Hsame. reflexivity.
- reflexivity.
Defined.

(** X7.  The snapshot the save timer writes is read back by [init] in
    the next session when it is younger than [CACHE_EXPIRY]: every key
    then has the entry it had; at that age or older the snapshot is
    ignored and the session starts empty. *)
Theorem snapshot_round_trip :
  forall (s : ImageCache.state) (e0 e1 : ImageCache.env) (key : string),
    JsMap.unique_keys (ImageCache.imageCache s) ->
    ImageCache.dirty s = true ->
    ImageCache.setItem_ok e0 = true ->
    let restarted :=
      ImageCacheSession.init e1
        (ImageCacheSession.next_session (ImageCache.saveTimer e0 s)) in
    (ImageCache.now e1 - ImageCache.now e0 < ImageCache.CACHE_EXPIRY ->
     JsMap.get key (ImageCache.imageCache restarted)
     = JsMap.get key (ImageCache.imageCache s))
    /\ (ImageCache.CACHE_EXPIRY <= ImageCache.now e1 - ImageCache.now e0 ->
        ImageCache.imageCache restarted = JsMap.empty).
Proof.
intros s e0 e1 key Hu Hd Hok restarted. subst restarted.
unfold ImageCacheSession.init, ImageCacheSession.next_session,
  ImageCache.saveTimer, ImageCache.saveCache.
rewrite Hd, Hok. cbn [ImageCache.localStorage ImageCache.snap_timestamp
                      ImageCache.snap_data ImageCache.imageCache].
split; intros Hage.
- replace (ImageCache.now e1 - ImageCache.now e0 <? ImageCache.CACHE_EXPIRY)
    with true by (symmetry; apply Z.ltb_lt; lia).
  cbn [ImageCache.with_map ImageCache.imageCache].
  apply get_permutation; [assumption | apply own_property_order_perm].
- replace (ImageCache.now e1 - ImageCache.now e0 <? ImageCache.CACHE_EXPIRY)
    with false by (symmetry; apply Z.ltb_ge; lia).
  reflexivity.
Qed.

Lemma snapshot_round_trip_witness :
  let s := ImageCache.set "10" "https://cdn/10" (Fixtures.at_time 2)
             (ImageCache.set "b.png" "https://cdn/b.png" (Fixtures.at_time 1)
                ImageCache.initial) in
  JsMap.get "b.png"
    (ImageCache.imageCache
       (ImageCacheSession.init (Fixtures.at_time 5000)
          (ImageCacheSession.next_session
             (ImageCache.saveTimer (Fixtures.at_time 1002) s))))
  = JsMap.get "b.png" (ImageCache.imageCache s).
Proof.
intros s.
refine (proj1 (@snapshot_round_trip s (Fixtures.at_time 1002)
                 (Fixtures.at_time 5000) "b.png" _ eq_refl eq_refl) _).
- repeat constructor; simpl; intuition discriminate.
- reflexivity.
Defined.


(** ** More on the synchronizer *)

Section SyncMore.
Import Types SyncService SyncStream.

Lemma insert_desc_sorted o l :
  is_sorted_desc l = true -> is_sorted_desc (insert_desc o l) = true.
Proof.
induction l as [|q r IH]; intros Hl; [reflexivity|].
cbn [insert_desc].
destruct (Z.leb_spec (time_or_zero q) (time_or_zero o)) as [Hle|Hgt].
- cbn [is_sorted_desc] in *. apply andb_true_iff. split; [|exact Hl].
  now apply Z.leb_le.
- assert (Hr : is_sorted_desc r = true).
  { cbn [is_sorted_desc] in Hl. destruct r as [|x r']; [reflexivity|].
    now apply andb_true_iff in Hl as [_ Hl]. }
  specialize (IH Hr).
  destruct r as [|x r'].
  + cbn. rewrite andb_true_r. apply Z.leb_le. lia.
  + cbn [is_sorted_desc] in Hl. apply andb_true_iff in Hl as [Hx _].
    cbn [insert_desc] in *.
    destruct (time_or_zero x <=? time_or_zero o).
    * cbn [is_sorted_desc] in *. rewrite IH, andb_true_r.
      apply Z.leb_le. lia.
    * cbn [is_sorted_desc] in *. now rewrite Hx, IH.
Qed.

Lemma sort_desc_is_sorted l : is_sorted_desc (sort_desc l) = true.
Proof.
unfold sort_desc. induction l as [|o r IH]; [reflexivity|].
cbn [fold_right]. now apply insert_desc_sorted.
Qed.

Lemma fetch_events_delivered events : forall acc objects,
  fetch_events events acc = Resolved objects ->
  objects = sort_desc (acc ++ delivered events).
Proof.
induction events as [|ev rest IH]; intros acc objects H; [discriminate|].
destruct ev as [obj| |message]; cbn [fetch_events delivered] in *.
- destruct (String.eqb (name obj) ""); [now apply IH|].
  apply IH in H. rewrite <- app_assoc in H. destruct obj. exact H.
- inversion H. now rewrite app_nil_r.
- discriminate.
Qed.

Lemma invalidate_get names : forall cache n,
  JsMap.get n (ImageCache.imageCache (invalidate names cache))
  = if existsb (String.eqb n) names then None
    else JsMap.get n (ImageCache.imageCache cache).
Proof.
unfold invalidate.
induction names as [|k r IH]; intros cache n; [reflexivity|].
cbn [fold_left existsb]. rewrite IH. cbn [ImageCache.delete
  ImageCache.scheduleSave ImageCache.imageCache].
destruct (String.eqb_spec n k) as [->|Hne]; cbn [orb].
- destruct (existsb _ r); [reflexivity | apply get_delete_same].
- destruct (existsb _ r); [reflexivity | now apply get_delete_other].
Qed.

Lemma deleted_iff local remote n :
  In n (deleted (detectChanges local remote))
  <-> In n (names local) /\ ~ In n (names remote).
Proof.
rewrite detectChanges_closed. cbn [deleted].
rewrite filter_In, keys_to_map, negb_true_iff.
split; intros [Hl Hr]; (split; [assumption|]).
- intros Hin. apply keys_to_map, has_true_iff in Hin. congruence.
- destruct (JsMap.has n (to_map remote)) eqn:E; [|reflexivity].
  apply has_true_iff, keys_to_map in E. contradiction.
Qed.

Lemma sync_cache cache local events remote changes cache' :
  sync cache local events = (cache', Resolved (remote, changes)) ->
  changes = detectChanges local remote
  /\ fetchRemoteObjects events = Resolved remote
  /\ cache' = invalidate (deleted changes) cache.
Proof.
unfold sync. destruct (fetchRemoteObjects events) as [objs|message|];
  [|discriminate|discriminate].
intros H. inversion H as [[Hcache Hobjs Hchanges]]. subst objs.
split; [reflexivity|]. split; [reflexivity|].
destruct (hasChanges (detectChanges local remote)) eqn:E; [reflexivity|].
destruct (detectChanges_delta local remote) as [_ [_ [_ [_ Hiff]]]].
cbn zeta in Hiff.
destruct (deleted (detectChanges local remote)) as [|n r] eqn:Ed;
  [reflexivity|].
assert (Htrue : hasChanges (detectChanges local remote) = true)
  by (apply Hiff; right; right; discriminate).
congruence.
Qed.

End SyncMore.

(** X8.  When the stream ends, the listing [fetchRemoteObjects] resolves
    with holds exactly the named objects the stream delivered, each as
    often as delivered, ordered by time descending (an absent
    [lastModified] counting as time 0). *)
Theorem fetched_listing_is_sorted :
  forall (events : list SyncService.stream_event)
         (objects : list Types.MinioObject),
    SyncService.fetchRemoteObjects events = Types.Resolved objects ->
    SyncService.is_sorted_desc objects = true
    /\ Permutation objects (SyncStream.delivered events).
Proof.
intros events objects H. unfold SyncService.fetchRemoteObjects in H.
apply fetch_events_delivered in H. cbn [app] in H. subst objects.
split; [apply sort_desc_is_sorted | apply sort_desc_perm].
Qed.

Lemma fetched_listing_is_sorted_witness :
  let old := {| Types.name := "old.png"; Types.lastModified := Some 10 |} in
  let new := {| Types.name := "new.png"; Types.lastModified := Some 20 |} in
  let folder := {| Types.name := ""; Types.lastModified := None |} in
  SyncService.is_sorted_desc [new; old] = true
  /\ Permutation [new; old]
       (SyncStream.delivered
          [SyncService.OnData old; SyncService.OnData folder;
           SyncService.OnData new; SyncService.OnEnd]).
Proof.
intros old new folder.
exact (@fetched_listing_is_sorted
         [SyncService.OnData old; SyncService.OnData folder;
          SyncService.OnData new; SyncService.OnEnd] [new; old] eq_refl).
Defined.

(** X9.  A [sync] that succeeds invalidates the cache entries of exactly
    the names the local list has and the remote listing lacks: such a
    name has no entry afterwards, every other name keeps its entry. *)
Theorem sync_invalidates_removed_objects :
  forall (cache cache' : ImageCache.state)
         (localObjects remote : list Types.MinioObject)
         (events : list SyncService.stream_event)
         (changes : Types.SyncChanges) (n : string),
    SyncService.sync cache localObjects events
    = (cache', Types.Resolved (remote, changes)) ->
    (In n (SyncService.names localObjects)
     /\ ~ In n (SyncService.names remote) ->
     JsMap.get n (ImageCache.imageCache cache') = None)
    /\ (~ (In n (SyncService.names localObjects)
           /\ ~ In n (SyncService.names remote)) ->
        JsMap.get n (ImageCache.imageCache cache')
        = JsMap.get n (ImageCache.imageCache cache)).
Proof.
intros cache cache' localObjects remote events changes n H.
apply sync_cache in H as [Hc [_ Hcache]]. subst cache' changes.
rewrite invalidate_get.
destruct (existsb (String.eqb n)
            (Types.deleted (SyncService.detectChanges localObjects remote)))
  eqn:E.
- split; [reflexivity|]. intros Hnot. exfalso. apply Hnot.
  apply existsb_exists in E as [k [Hin Hk]]. apply String.eqb_eq in Hk.
  subst k. now apply deleted_iff.
- split; [|reflexivity]. intros Hgone. apply deleted_iff in Hgone.
  assert (Hex : existsb (String.eqb n)
                  (Types.deleted
                     (SyncService.detectChanges localObjects remote)) = true)
    by (apply existsb_exists; exists n; split;
        [assumption | apply String.eqb_refl]).
  congruence.
Qed.

Lemma sync_invalidates_removed_objects_witness :
  let gone := {| Types.name := "gone.png"; Types.lastModified := Some 1 |} in
  let kept := {| Types.name := "kept.png"; Types.lastModified := Some 2 |} in
  let cache := ImageCache.set "gone.png" "https://cdn/gone.png"
                 (Fixtures.at_time 1) ImageCache.initial in
  JsMap.get "gone.png"
    (ImageCache.imageCache
       (fst (SyncService.sync cache [kept; gone] (SyncService.listing [kept]))))
  = None.
Proof.
intros gone kept cache.
refine (proj1 (@sync_invalidates_removed_objects cache _ [kept; gone] [kept]
                 (SyncService.listing [kept]) _ "gone.png" eq_refl) _).
split; [right; now left|].
intros [H|[]]. discriminate.
Defined.

Section DeltaSoundness.
Import Types SyncService.

Lemma in_added local remote obj :
  In obj (added (detectChanges local remote)) ->
  In obj remote
  /\ (lookup (name obj) local = None \/ lookup (name obj) local = Some None).
Proof.
rewrite detectChanges_closed. cbn [added]. intros Hin.
apply in_flat_map in Hin as [[k v] [Hkv Hin]]. cbn [fst] in Hin.
destruct (counts_as_added (to_map local) (k, v)) eqn:E; [|contradiction].
pose proof (found_names _ _ _ Hin) as Hname. subst k.
split.
- unfold found, find_by_name in Hin.
  destruct (find _ remote) as [o|] eqn:Ef; [|contradiction].
  destruct Hin as [<-|[]]. now apply find_some in Ef.
- unfold counts_as_added in E. cbn [fst] in E. unfold lookup.
  destruct (JsMap.get (name obj) (to_map local)) as [[t|]|];
    [discriminate | now right | now left].
Qed.

Lemma in_modified local remote obj :
  In obj (modified (detectChanges local remote)) ->
  In obj remote
  /\ exists localTime,
       lookup (name obj) local = Some (Some localTime)
       /\ lookup (name obj) remote <> Some (Some localTime).
Proof.
rewrite detectChanges_closed. cbn [modified]. intros Hin.
apply in_flat_map in Hin as [[k v] [Hkv Hin]]. cbn [fst] in Hin.
destruct (counts_as_modified (to_map local) (k, v)) eqn:E; [|contradiction].
pose proof (found_names _ _ _ Hin) as Hname. subst k.
split.
- unfold found, find_by_name in Hin.
  destruct (find _ remote) as [o|] eqn:Ef; [|contradiction].
  destruct Hin as [<-|[]]. now apply find_some in Ef.
- unfold counts_as_modified in E. cbn [fst snd] in E. unfold lookup.
  rewrite (get_of_entry _ _ (to_map_unique_keys remote) Hkv).
  destruct (JsMap.get (name obj) (to_map local)) as [[t|]|];
    [|discriminate|discriminate].
  exists t. split; [reflexivity|].
  destruct v as [rt|]; [|discriminate].
  apply negb_true_iff, Z.eqb_neq in E. congruence.
Qed.

Lemma deleted_unique local remote :
  NoDup (deleted (detectChanges local remote)).
Proof.
rewrite detectChanges_closed. cbn [deleted].
apply NoDup_filter. apply (to_map_unique_keys local).
Qed.

End DeltaSoundness.

Section SameObjects.
Import Types SyncService.




End SameObjects.




(** X10.  What the delta lists are made of.  An added or modified object
    is an object of the remote listing; a modified one has a name the
    local side holds with a time that the remote side does not hold for
    it; an added one has a name the local side lacks or holds without a
    time; the deleted names are the local names the remote listing lacks,
    each once. *)
Theorem delta_lists_are_sound :
  forall (localObjects remote : list Types.MinioObject)
         (obj : Types.MinioObject) (n : string),
    let delta := SyncService.detectChanges localObjects remote in
    (In obj (Types.added delta) ->
     In obj remote
     /\ (SyncService.lookup (Types.name obj) localObjects = None
         \/ SyncService.lookup (Types.name obj) localObjects = Some None))
    /\ (In obj (Types.modified delta) ->
        In obj remote
        /\ exists localTime,
             SyncService.lookup (Types.name obj) localObjects
             = Some (Some localTime)
             /\ SyncService.lookup (Types.name obj) remote
                <> Some (Some localTime))
    /\ (In n (Types.deleted delta)
        <-> In n (SyncService.names localObjects)
            /\ ~ In n (SyncService.names remote))
    /\ NoDup (Types.deleted delta).
Proof.
intros localObjects remote obj n delta. subst delta.
split; [apply in_added|].
split; [apply in_modified|].
split; [apply deleted_iff | apply deleted_unique].
Qed.

(** X11.  No change goes unreported.  A name only the remote listing has
    is in [added]; a name only the local list has is in [deleted]; a name
    the local side holds with a time and the remote side with another
    time or none is in [modified]; a name both sides hold with the same
    time is in none of the three; [hasChanges] is set exactly when one of
    the three lists is not empty. *)
Theorem delta_reports_every_change :
  forall (localObjects remote : list Types.MinioObject),
    let delta := SyncService.detectChanges localObjects remote in
    (forall n, In n (SyncService.names remote) ->
               ~ In n (SyncService.names localObjects) ->
               exists obj, In obj (Types.added delta)
                           /\ Types.name obj = n /\ In obj remote)
    /\ (forall n, In n (SyncService.names localObjects) ->
                  ~ In n (SyncService.names remote) ->
                  In n (Types.deleted delta))
    /\ (forall n localTime remoteModified,
           SyncService.lookup n localObjects = Some (Some localTime) ->
           SyncService.lookup n remote = Some remoteModified ->
           remoteModified <> Some localTime ->
           exists obj, In obj (Types.modified delta)
                       /\ Types.name obj = n /\ In obj remote)
    /\ (forall n localTime,
           SyncService.lookup n localObjects = Some (Some localTime) ->
           SyncService.lookup n remote = Some (Some localTime) ->
           ~ In n (SyncService.names (Types.added delta))
           /\ ~ In n (SyncService.names (Types.modified delta))
           /\ ~ In n (Types.deleted delta))
    /\ (Types.hasChanges delta = true
        <-> Types.added delta <> [] \/ Types.modified delta <> []
            \/ Types.deleted delta <> []).
Proof. intros localObjects remote. apply detectChanges_delta. Qed.

(** ** More on the search *)

Section SearchMore.
Import Types SearchService.
Variable generateUrl : string -> string.
Variable t : string -> string.

Lemma search_loop_ext (f g : string -> bool) objects :
  (forall url, f url = g url) ->
  forall urls matched,
    search_loop generateUrl f objects urls matched
    = search_loop generateUrl g objects urls matched.
Proof.
intros Hfg. induction objects as [|obj rest IH]; intros urls matched;
  [reflexivity|].
cbn [search_loop]. destruct (negb (FileUtils.isImageFile (name obj)));
  [apply IH|].
destruct (resolve_url generateUrl urls (name obj)) as [url cached].
rewrite Hfg. destruct (g url); apply IH.
Qed.

(** The loop only appends objects of the listing that are images. *)
Lemma search_loop_sound (accepts : string -> bool) objects :
  forall urls matched obj,
    In obj (snd (search_loop generateUrl accepts objects urls matched)) ->
    In obj matched
    \/ (In obj objects /\ FileUtils.isImageFile (name obj) = true).
Proof.
induction objects as [|o rest IH]; intros urls matched obj Hin;
  [now left|].
cbn [search_loop] in Hin.
destruct (FileUtils.isImageFile (name o)) eqn:Himg; cbn [negb] in Hin.
- destruct (resolve_url generateUrl urls (name o)) as [url cached].
  destruct (accepts url).
  + apply IH in Hin as [Hin|[Hin Hi]].
    * apply in_app_or in Hin as [Hin|[<-|[]]];
        [now left | right; split; [now left | assumption]].
    * right. split; [now right | assumption].
  + apply IH in Hin as [Hin|[Hin Hi]];
      [now left | right; split; [now right | assumption]].
- apply IH in Hin as [Hin|[Hin Hi]];
    [now left | right; split; [now right | assumption]].
Qed.

Lemma lower_of_upper (c : ascii) :
  JsString.toLowerChar (JsString.toUpperChar c) = JsString.toLowerChar c.
Proof. destruct c as [[] [] [] [] [] [] [] []]; reflexivity. Qed.

Lemma upper_of_lower (c : ascii) :
  JsString.toUpperChar (JsString.toLowerChar c) = JsString.toUpperChar c.
Proof. destruct c as [[] [] [] [] [] [] [] []]; reflexivity. Qed.

Lemma same_letter (a b : ascii) :
  JsString.toLowerChar a = JsString.toLowerChar b
  <-> JsString.toUpperChar a = JsString.toUpperChar b.
Proof.
split; intros H.
- rewrite <- (upper_of_lower a), <- (upper_of_lower b). now rewrite H.
- rewrite <- (lower_of_upper a), <- (lower_of_upper b). now rewrite H.
Qed.

Lemma prefix_folds (x s : string) :
  String.prefix (JsString.toLowerCase x) (JsString.toLowerCase s)
  = String.prefix (Wildcard.fold_case x) (Wildcard.fold_case s).
Proof.
unfold JsString.toLowerCase, Wildcard.fold_case, RegExpModel.canonicalize.
revert s. induction x as [|a x IH]; intros s.
- cbn [JsString.map_string]. now rewrite !prefix_nil.
- destruct s as [|b s]; [reflexivity|].
  cbn [JsString.map_string String.prefix]. rewrite IH.
  destruct (ascii_dec (JsString.toLowerChar a) (JsString.toLowerChar b))
    as [E|E];
    destruct (ascii_dec (JsString.toUpperChar a) (JsString.toUpperChar b))
    as [E'|E']; try reflexivity.
  + apply same_letter in E. contradiction.
  + apply same_letter in E'. contradiction.
Qed.

Lemma includes_folds (s x : string) :
  JsString.includes (JsString.toLowerCase s) (JsString.toLowerCase x)
  = Wildcard.includes_ci s x.
Proof.
unfold Wildcard.includes_ci.
induction s as [|b s IH].
- pose proof (prefix_folds x "") as Hp.
  unfold JsString.toLowerCase, Wildcard.fold_case in *.
  cbn [JsString.map_string JsString.includes] in *.
  now rewrite Hp.
- pose proof (prefix_folds x (String b s)) as Hp.
  unfold JsString.toLowerCase, Wildcard.fold_case in *.
  cbn [JsString.map_string JsString.includes] in *.
  now rewrite Hp, IH.
Qed.

(** A text without metacharacters is its own pattern. *)
Lemma convert_plain (x : string) :
  Wildcard.noMetaCharacters x = true -> convertWildcardToRegex x = x.
Proof.
intros Hx. unfold convertWildcardToRegex.
rewrite (noMeta_no_special _ Hx). cbn [negb].
pose proof (noMeta_no_star _ Hx) as Hs.
destruct x as [|c r]; [reflexivity|].
assert (Hend : JsString.endsWith (String c r) "*" = false)
  by (apply (endsWith_star_false (x := String c r)) with (p := "");
      [discriminate | assumption]).
assert (Hstart : JsString.startsWith (String c r) "*" = false).
{ cbn [JsString.forallb_string] in Hs. apply andb_true_iff in Hs as [Hc _].
  apply negb_true_iff, Ascii.eqb_neq in Hc. now apply startsWith_other. }
now rewrite Hstart, Hend.
Qed.

Lemma plain_word_test (x : string) :
  Wildcard.noMetaCharacters x = true ->
  exists regex,
    RegExpModel.RegExp_i (convertWildcardToRegex x) = inr regex
    /\ forall u, RegExpModel.test regex u
                 = JsString.includes (JsString.toLowerCase u)
                     (JsString.toLowerCase x).
Proof.
intros Hx. rewrite (convert_plain _ Hx). unfold RegExpModel.RegExp_i.
exists (Wildcard.literals x ++ []). split.
- rewrite <- (append_nil_r x) at 1.
  now rewrite (@parse_literals x "" Hx I).
- intros u. rewrite includes_folds.
  apply (@test_literals x [] (fun _ => eq_refl)).
Qed.

End SearchMore.

(** X12.  A text search (query and generated URLs strings of ASCII
    characters, query not blank, the URL map of the session holding
    generated URLs only) returns, in the order of the listing, exactly the
    objects with an image extension whose generated URL contains the
    query, both taken in lower case; [totalCount] is their number, and the
    URL map still holds generated URLs only. *)
Theorem text_search_is_a_filter :
  forall (generateUrl t : string -> string) (R : Type)
         (newRegExp : string -> string + R) (test : R -> string -> bool)
         (urls : JsMap.t string) (objects : list Types.MinioObject)
         (searchText : string),
    JsString.isAscii searchText = true ->
    SearchCache.ascii_generated generateUrl objects ->
    JsString.trim_is_empty searchText = false ->
    SearchCache.consistent generateUrl urls ->
    let kept :=
      filter (fun obj =>
                FileUtils.isImageFile (Types.name obj)
                && JsString.includes
                     (JsString.toLowerCase (generateUrl (Types.name obj)))
                     (JsString.toLowerCase searchText))%bool objects in
    let outcome := SearchService.search generateUrl t newRegExp test urls
                     objects searchText false in
    snd outcome
    = inr {| Types.matchedObjects := kept;
             Types.totalCount := List.length kept |}
    /\ SearchCache.consistent generateUrl (fst outcome).
Proof.
intros generateUrl t R newRegExp test urls objects searchText _ _ Htrim Hc
       kept outcome.
subst outcome. unfold SearchService.search, SearchService.textSearch.
rewrite Htrim.
destruct (search_loop_filter
            (fun url => JsString.includes (JsString.toLowerCase url)
                          (JsString.toLowerCase searchText))
            objects [] Hc) as [Hkept Hcons].
destruct (SearchService.search_loop generateUrl _ objects urls [])
  as [urls' matched].
cbn [fst snd app] in *. subst matched. now split.
Qed.

Lemma text_search_is_a_filter_witness :
  let cat := {| Types.name := "Cat.PNG"; Types.lastModified := Some 2 |} in
  let dog := {| Types.name := "dog.png"; Types.lastModified := Some 1 |} in
  let notes := {| Types.name := "cat.txt"; Types.lastModified := None |} in
  snd (SearchService.search (fun n => ("https://cdn/" ++ n)%string)
         (fun s => s) RegExpModel.RegExp_i RegExpModel.test JsMap.empty
         [cat; dog; notes] "cAt" false)
  = inr {| Types.matchedObjects := [cat]; Types.totalCount := 1 |}.
Proof.
intros cat dog notes.
refine (proj1 (@text_search_is_a_filter
                 (fun n => ("https://cdn/" ++ n)%string) (fun s => s) _
                 RegExpModel.RegExp_i RegExpModel.test JsMap.empty
                 [cat; dog; notes] "cAt" eq_refl _ eq_refl _)).
- intros obj [<-|[<-|[<-|[]]]]; reflexivity.
- intros n u H. discriminate.
Defined.

(** X13.  For a query without regex metacharacters (a plain word), when
    the query and the URLs (those the map holds and those generated for
    the objects) are strings of ASCII characters, the regex mode and the
    text mode give the same result and leave the same URL map, in the
    model of the regular expressions of this file.  (Outside ASCII the two
    modes fold letters differently, [toLowerCase] against the flag [i].) *)
Theorem plain_word_modes_agree :
  forall (generateUrl t : string -> string) (urls : JsMap.t string)
         (objects : list Types.MinioObject) (x : string),
    Wildcard.noMetaCharacters x = true ->
    JsString.isAscii x = true ->
    SearchCache.ascii_cached urls ->
    SearchCache.ascii_generated generateUrl objects ->
    SearchService.search generateUrl t RegExpModel.RegExp_i RegExpModel.test
      urls objects x true
    = SearchService.search generateUrl t RegExpModel.RegExp_i
        RegExpModel.test urls objects x false.
Proof.
intros generateUrl t urls objects x Hx _ _ _.
unfold SearchService.search.
destruct (JsString.trim_is_empty x); [reflexivity|].
unfold SearchService.regexSearch, SearchService.textSearch.
destruct (@plain_word_test x Hx) as [regex [Hre Htest]].
rewrite Hre.
rewrite (search_loop_ext generateUrl _ _ objects Htest).
destruct (SearchService.search_loop generateUrl _ objects urls [])
  as [urls' matched].
reflexivity.
Qed.

Lemma plain_word_modes_agree_witness :
  let cat := {| Types.name := "Cat.PNG"; Types.lastModified := Some 2 |} in
  let dog := {| Types.name := "dog.png"; Types.lastModified := Some 1 |} in
  SearchService.search (fun n => n) (fun s => s) RegExpModel.RegExp_i
    RegExpModel.test JsMap.empty [cat; dog] "cat" true
  = SearchService.search (fun n => n) (fun s => s) RegExpModel.RegExp_i
      RegExpModel.test JsMap.empty [cat; dog] "cat" false.
Proof.
intros cat dog.
refine (@plain_word_modes_agree (fun n => n) (fun s => s) JsMap.empty
          [cat; dog] "cat" eq_refl eq_refl _ _).
- intros n u H. discriminate.
- intros obj [<-|[<-|[]]]; reflexivity.
Defined.

(** X14.  Whatever the regular expressions of the host do and whatever
    the URL map holds, a search that returns puts only objects of its
    input in the result: the whole input when the query is blank, and
    only objects with an image extension when it is not. *)
Theorem search_result_is_sound :
  forall (generateUrl t : string -> string) (R : Type)
         (newRegExp : string -> string + R) (test : R -> string -> bool)
         (urls urls' : JsMap.t string) (objects : list Types.MinioObject)
         (searchText : string) (useRegex : bool)
         (result : Types.SearchResult) (obj : Types.MinioObject),
    SearchService.search generateUrl t newRegExp test urls objects
      searchText useRegex = (urls', inr result) ->
    In obj (Types.matchedObjects result) ->
    In obj objects
    /\ Types.totalCount result = List.length (Types.matchedObjects result)
    /\ (JsString.trim_is_empty searchText = true ->
        Types.matchedObjects result = objects)
    /\ (JsString.trim_is_empty searchText = false ->
        FileUtils.isImageFile (Types.name obj) = true).
Proof.
intros generateUrl t R newRegExp test urls urls' objects searchText useRegex
       result obj Hsearch Hin.
unfold SearchService.search in Hsearch.
destruct (JsString.trim_is_empty searchText).
- inversion Hsearch; subst. cbn in *.
  split; [assumption|]. split; [reflexivity|]. split; [reflexivity|].
  discriminate.
- assert (Hloop : forall accepts us matched,
             SearchService.search_loop generateUrl accepts objects urls []
             = (us, matched) ->
             forall o, In o matched ->
                       In o objects
                       /\ FileUtils.isImageFile (Types.name o) = true).
  { intros accepts us matched Heq o Ho.
    pose proof (search_loop_sound generateUrl accepts objects urls [] o)
      as Hs.
    rewrite Heq in Hs. destruct (Hs Ho) as [[]|H]. exact H. }
  destruct useRegex.
  + unfold SearchService.regexSearch in Hsearch.
    destruct (newRegExp _) as [message|regex]; [discriminate|].
    destruct (SearchService.search_loop generateUrl (test regex) objects
                urls []) as [us matched] eqn:Heq.
    inversion Hsearch; subst. cbn in *.
    destruct (Hloop _ _ _ Heq _ Hin) as [Ho Hi].
    split; [assumption|]. split; [reflexivity|]. split; [discriminate|].
    intros _. exact Hi.
  + unfold SearchService.textSearch in Hsearch.
    destruct (SearchService.search_loop generateUrl _ objects urls [])
      as [us matched] eqn:Heq.
    inversion Hsearch; subst. cbn in *.
    destruct (Hloop _ _ _ Heq _ Hin) as [Ho Hi].
    split; [assumption|]. split; [reflexivity|]. split; [discriminate|].
    intros _. exact Hi.
Qed.

Lemma search_result_is_sound_witness :
  let cat := {| Types.name := "cat.png"; Types.lastModified := Some 2 |} in
  let notes := {| Types.name := "cat.txt"; Types.lastModified := None |} in
  In cat [cat; notes] /\ FileUtils.isImageFile "cat.png" = true.
Proof.
intros cat notes.
destruct (@search_result_is_sound (fun n => n) (fun s => s) _
            RegExpModel.RegExp_i RegExpModel.test JsMap.empty
            [("cat.png", "cat.png")] [cat; notes] "cat" true
            {| Types.matchedObjects := [cat]; Types.totalCount := 1 |}
            cat eq_refl (or_introl eq_refl)) as [Hin [_ [_ Himg]]].
split; [exact Hin | exact (Himg eq_refl)].
Defined.


(** ** More on the lazy loader *)

Section LazyMore.
Import LazyImageService LazyLog.
Variable placeholderUrl : string.

Lemma backoff_delay_bounds attempt :
  1 <= attempt -> 1000 <= backoff_delay attempt <= 3000.
Proof.
intros Ha. unfold backoff_delay.
assert (Hpow : 1 <= 2 ^ (attempt - 1))
  by (apply (Z.pow_le_mono_r 2 0 (attempt - 1)); lia).
lia.
Qed.

(** The loop with [k] failures in front of a success. *)
Lemma retry_loop_success url outcome maxRetries (k : nat) :
  forall fuel attempt i log,
    (k < fuel)%nat ->
    attempt + Z.of_nat k <= maxRetries ->
    (forall j, attempt <= j < attempt + Z.of_nat k -> outcome j = false) ->
    outcome (attempt + Z.of_nat k) = true ->
    retry_loop placeholderUrl fuel attempt maxRetries url outcome i log
    = Some (loaded_image url i,
            log ++ failed_rounds url attempt k
                ++ [LoadAttempt (attempt + Z.of_nat k) url; ImageLoaded url]).
Proof.
induction k as [|k IH]; intros fuel attempt i log Hfuel Hmax Hfail Hok.
- destruct fuel as [|fuel]; [lia|]. cbn [retry_loop failed_rounds].
  rewrite Z.add_0_r in *. cbn [Z.of_nat] in *.
  replace (attempt <=? maxRetries) with true
    by (symmetry; apply Z.leb_le; lia).
  rewrite Hok. cbn [app]. now rewrite <- app_assoc.
- destruct fuel as [|fuel]; [lia|]. cbn [retry_loop failed_rounds].
  replace (attempt <=? maxRetries) with true
    by (symmetry; apply Z.leb_le; lia).
  rewrite (Hfail attempt) by lia.
  replace (attempt =? maxRetries) with false
    by (symmetry; apply Z.eqb_neq; lia).
  rewrite (IH fuel (attempt + 1)).
  + replace (attempt + 1 + Z.of_nat k) with (attempt + Z.of_nat (S k))
      by lia.
    unfold loaded_image, set_src, add_class. cbn [dataSrc classList].
    repeat rewrite <- app_assoc. reflexivity.
  + lia.
  + lia.
  + intros j Hj. apply Hfail. lia.
  + replace (attempt + 1 + Z.of_nat k) with (attempt + Z.of_nat (S k))
      by lia. exact Hok.
Qed.

(** What a run of the loop appends to the log, whatever the attempts do. *)
Lemma retry_loop_bounds url outcome maxRetries (fuel : nat) :
  forall attempt i log i' log',
    1 <= attempt ->
    retry_loop placeholderUrl fuel attempt maxRetries url outcome i log
    = Some (i', log') ->
    exists tail,
      log' = log ++ tail
      /\ (attempts tail <= Z.to_nat (maxRetries - attempt + 1))%nat
      /\ Forall pause_in_bounds tail
      /\ dataSrc i' = dataSrc i.
Proof.
induction fuel as [|fuel IH]; intros attempt i log i' log' Ha H;
  cbn [retry_loop] in H.
- destruct (attempt <=? maxRetries); [discriminate|]. inversion H; subst.
  exists []. rewrite app_nil_r. repeat split; [cbn; lia | constructor].
- destruct (Z.leb_spec attempt maxRetries) as [Hle|Hgt].
  + destruct (outcome attempt).
    * inversion H; subst. exists [LoadAttempt attempt url; ImageLoaded url].
      rewrite <- app_assoc. repeat split.
      -- cbn. lia.
      -- repeat constructor.
    * destruct (attempt =? maxRetries).
      -- inversion H; subst.
         exists [LoadAttempt attempt url; LoadFailed url].
         rewrite <- app_assoc. repeat split.
         ++ cbn. lia.
         ++ repeat constructor.
      -- apply IH in H as [tail [Hlog [Hatt [Hp Hd]]]]; [|lia].
         exists (LoadAttempt attempt url :: Sleep (backoff_delay attempt)
                 :: tail).
         repeat split.
         ++ rewrite Hlog. now repeat rewrite <- app_assoc.
         ++ unfold attempts in *. cbn [filter is_attempt List.length]. lia.
         ++ constructor; [exact I|]. constructor; [|assumption].
            now apply backoff_delay_bounds.
         ++ exact Hd.
  + inversion H; subst. exists []. rewrite app_nil_r.
    repeat split; [cbn; lia | constructor].
Qed.

Lemma loadImageWithRetry_bounds url i maxRetries outcome i' log :
  loadImageWithRetry placeholderUrl url i maxRetries outcome = Some (i', log) ->
  (attempts log <= Z.to_nat maxRetries)%nat
  /\ Forall pause_in_bounds log
  /\ dataSrc i' = dataSrc i.
Proof.
unfold loadImageWithRetry. intros H.
apply retry_loop_bounds in H as [tail [Hlog [Hatt [Hp Hd]]]]; [|lia].
cbn [app] in Hlog. subst tail.
replace (maxRetries - 1 + 1) with maxRetries in Hatt by lia. now repeat split.
Qed.

(** One event either does nothing to the outside, or it is the load, after
    which the element has no [data-src]. *)
Lemma step_once opts ev el :
  snd (step placeholderUrl opts ev el) = []
  \/ ((attempts (snd (step placeholderUrl opts ev el))
       <= Z.to_nat (retryCount opts))%nat
      /\ dataSrc (img (fst (step placeholderUrl opts ev el))) = None).
Proof.
destruct ev as [| |isIntersecting outcome|]; cbn [step].
- destruct (has_data_src (img el)); now left.
- destruct (idlePending el); now left.
- destruct (observed el && isIntersecting)%bool; [|now left].
  destruct (dataSrc (img el)) as [url|]; [|now left].
  destruct (negb (String.eqb url "") && _)%bool; [|now left].
  destruct (loadImageWithRetry placeholderUrl url (remove_data_src (img el))
              (retryCount opts) outcome) as [[i' log]|] eqn:E; [|now left].
  right. cbn [fst snd img].
  apply loadImageWithRetry_bounds in E as [Hatt [_ Hd]].
  split; [exact Hatt | now rewrite Hd].
- now left.
Qed.

Lemma run_once opts evs : forall el,
  (attempts (snd (run placeholderUrl opts evs el))
   <= Z.to_nat (retryCount opts))%nat.
Proof.
induction evs as [|ev rest IH]; intros el; [cbn; lia|].
cbn [run].
destruct (step_once opts ev el) as [Hnil|[Hatt Hd]].
- destruct (step placeholderUrl opts ev el) as [el1 log1].
  cbn [snd] in Hnil. subst log1. specialize (IH el1).
  destruct (run placeholderUrl opts rest el1) as [el2 log2].
  exact IH.
- destruct (step placeholderUrl opts ev el) as [el1 log1].
  cbn [fst snd] in *.
  destruct (run_without_data_src placeholderUrl opts rest el1 Hd)
    as [Hlog _].
  destruct (run placeholderUrl opts rest el1) as [el2 log2].
  cbn [snd] in *. subst log2. now rewrite app_nil_r.
Qed.

End LazyMore.

(** X15.  When the attempts of a load fail [k - 1] times and attempt [k]
    succeeds, with [k] within the retry count, the loader makes exactly
    [k] attempts with the back-off pauses between them, shows the real
    URL, adds the class [loaded], calls [onImageLoaded] once, and does not
    add the class [error]. *)
Theorem load_succeeds_after_failures :
  forall (placeholderUrl url : string) (i : LazyImageService.image)
         (maxRetries k : Z) (outcome : Z -> bool),
    1 <= k <= maxRetries ->
    outcome k = true ->
    (forall j, 1 <= j < k -> outcome j = false) ->
    LazyImageService.loadImageWithRetry placeholderUrl url i maxRetries outcome
    = Some (LazyLog.loaded_image url i,
            LazyImageService.failed_rounds url 1 (Z.to_nat (k - 1))
            ++ [LazyImageService.LoadAttempt k url;
                LazyImageService.ImageLoaded url]).
Proof.
intros placeholderUrl url i maxRetries k outcome Hk Hok Hfail.
unfold LazyImageService.loadImageWithRetry.
rewrite (@retry_loop_success placeholderUrl url outcome maxRetries
           (Z.to_nat (k - 1))).
- cbn [app]. now replace (1 + Z.of_nat (Z.to_nat (k - 1))) with k by lia.
- lia.
- lia.
- intros j Hj. apply Hfail. lia.
- now replace (1 + Z.of_nat (Z.to_nat (k - 1))) with k by lia.
Qed.

Lemma load_succeeds_after_failures_witness :
  LazyImageService.loadImageWithRetry "data:placeholder" "https://cdn/a.png"
    {| LazyImageService.src := "data:placeholder";
       LazyImageService.dataSrc := None;
       LazyImageService.classList := [] |}
    3 (fun attempt => attempt =? 2)
  = Some ({| LazyImageService.src := "https://cdn/a.png";
             LazyImageService.dataSrc := None;
             LazyImageService.classList := ["loaded"] |},
          [LazyImageService.LoadAttempt 1 "https://cdn/a.png";
           LazyImageService.Sleep 1000;
           LazyImageService.LoadAttempt 2 "https://cdn/a.png";
           LazyImageService.ImageLoaded "https://cdn/a.png"]).
Proof.
refine (@load_succeeds_after_failures "data:placeholder" "https://cdn/a.png"
          _ 3 2 (fun attempt => attempt =? 2) _ eq_refl _).
- lia.
- intros j Hj. apply Z.eqb_neq. lia.
Defined.

(** X16.  Whatever the attempts of a load do, the loader makes at most
    [maxRetries] attempts, every pause it takes is between one and three
    seconds, and it leaves [data-src] as it found it. *)
Theorem load_attempts_are_bounded :
  forall (placeholderUrl url : string) (i i' : LazyImageService.image)
         (maxRetries : Z) (outcome : Z -> bool)
         (log : list LazyImageService.action),
    LazyImageService.loadImageWithRetry placeholderUrl url i maxRetries outcome
    = Some (i', log) ->
    (LazyImageService.attempts log <= Z.to_nat maxRetries)%nat
    /\ Forall LazyLog.pause_in_bounds log
    /\ LazyImageService.dataSrc i' = LazyImageService.dataSrc i.
Proof.
intros placeholderUrl url i i' maxRetries outcome log.
apply loadImageWithRetry_bounds.
Qed.

Lemma load_attempts_are_bounded_witness :
  (LazyImageService.attempts
     [LazyImageService.LoadAttempt 1 "u"; LazyImageService.Sleep 1000;
      LazyImageService.LoadAttempt 2 "u"; LazyImageService.LoadFailed "u"]
   <= Z.to_nat 2)%nat.
Proof.
exact (proj1 (@load_attempts_are_bounded "p" "u"
                {| LazyImageService.src := "p";
                   LazyImageService.dataSrc := None;
                   LazyImageService.classList := [] |}
                _ 2 (fun _ => false) _ eq_refl)).
Defined.

(** X17.  Whatever events reach an element (it is observed, idle
    callbacks run, it enters or leaves the viewport any number of times,
    with whatever results of its loads), the service makes at most
    [retryCount] load attempts for it in total: the first intersection
    that starts a load is the only one. *)
Theorem element_is_loaded_at_most_once :
  forall (placeholderUrl : string) (opts : LazyImageService.options)
         (events : list LazyImageService.event)
         (el : LazyImageService.element),
    (LazyImageService.attempts
       (snd (LazyImageService.run placeholderUrl opts events el))
     <= Z.to_nat (LazyImageService.retryCount opts))%nat.
Proof. intros. apply run_once. Qed.


(** ** File names and URLs *)

Section FileNameFacts.
Import FileNames.

Lemma lower_is_dot (d : ascii) :
  Ascii.eqb (JsString.toLowerChar d) "." = Ascii.eqb d ".".
Proof. destruct d as [[] [] [] [] [] [] [] []]; reflexivity. Qed.

Lemma from_last_dot_lower (s : string) :
  from_last_dot (JsString.toLowerCase s)
  = option_map JsString.toLowerCase (from_last_dot s).
Proof.
unfold JsString.toLowerCase.
induction s as [|d r IH]; [reflexivity|].
cbn [JsString.map_string from_last_dot]. rewrite IH.
destruct (from_last_dot r); [reflexivity|]. cbn [option_map].
rewrite lower_is_dot. now destruct (Ascii.eqb d ".").
Qed.

Lemma from_last_dot_suffix (s t : string) :
  from_last_dot s = Some t -> exists p, s = (p ++ t)%string.
Proof.
revert t. induction s as [|d r IH]; intros t H; [discriminate|].
cbn [from_last_dot] in H. destruct (from_last_dot r) as [u|].
- inversion H; subst. destruct (IH t eq_refl) as [p Hp].
  exists (String d p). cbn. now rewrite Hp.
- destruct (Ascii.eqb d "."); [|discriminate]. inversion H.
  now exists "".
Qed.

Lemma lastIndexOf_from_dot (s : string) : forall i found,
  lastIndexOf_from s "." i found
  = match from_last_dot s with
    | Some t => i + Z.of_nat (String.length s) - Z.of_nat (String.length t)
    | None => found
    end.
Proof.
induction s as [|d r IH]; intros i found; [reflexivity|].
cbn [lastIndexOf_from from_last_dot]. rewrite IH.
destruct (from_last_dot r) as [t|].
- cbn [String.length]. lia.
- destruct (Ascii.eqb d "."); [|reflexivity]. cbn [String.length]. lia.
Qed.

Lemma substring_suffix (p t : string) :
  substring_from (p ++ t)
    (Z.of_nat (String.length (p ++ t)) - Z.of_nat (String.length t))
  = t.
Proof.
unfold substring_from, substring. rewrite length_append.
set (lp := String.length p). set (lt := String.length t).
replace (Z.of_nat (lp + lt) - Z.of_nat lt) with (Z.of_nat lp) by lia.
replace (Z.max 0 (Z.min (Z.of_nat lp) (Z.of_nat (lp + lt))))
  with (Z.of_nat lp) by lia.
replace (Z.max 0 (Z.min (Z.of_nat (lp + lt)) (Z.of_nat (lp + lt))))
  with (Z.of_nat (lp + lt)) by lia.
replace (Z.to_nat (Z.min (Z.of_nat lp) (Z.of_nat (lp + lt)))) with lp by lia.
replace (Z.to_nat (Z.max (Z.of_nat lp) (Z.of_nat (lp + lt))
                   - Z.min (Z.of_nat lp) (Z.of_nat (lp + lt))))
  with lt by lia.
subst lp lt. clear. induction p as [|d p IH]; cbn.
- rewrite <- (append_nil_r t) at 2. apply substring_whole_prefix.
- exact IH.
Qed.

(** The extension is the lower-case form of the name from its last dot. *)
Lemma getFileExtension_from_last_dot (s : string) :
  getFileExtension s
  = match from_last_dot s with
    | Some t => JsString.toLowerCase t
    | None => EmptyString
    end.
Proof.
unfold getFileExtension, lastIndexOf. rewrite lastIndexOf_from_dot.
destruct (from_last_dot s) as [t|] eqn:E; [|reflexivity].
destruct (@from_last_dot_suffix s t E) as [p Hp].
assert (Hlen : String.length s = (String.length p + String.length t)%nat)
  by (rewrite Hp; apply length_append).
replace (0 + Z.of_nat (String.length s) - Z.of_nat (String.length t) =? -1)
  with false by (symmetry; apply Z.eqb_neq; lia).
cbn [negb]. f_equal. rewrite Z.add_0_l. rewrite Hp at 1 2.
apply substring_suffix.
Qed.

Lemma dotless_has_no_last_dot (w : string) :
  JsString.forallb_string (fun d => negb (Ascii.eqb d ".")) w = true ->
  from_last_dot w = None.
Proof.
induction w as [|d w IH]; [reflexivity|].
cbn [JsString.forallb_string from_last_dot]. intros H.
apply andb_true_iff in H as [Hd Hw]. rewrite (IH Hw).
apply negb_true_iff in Hd. now rewrite Hd.
Qed.

Lemma extension_shape (e : string) :
  is_extension e = true ->
  exists w, e = String "." w /\ from_last_dot w = None
            /\ JsString.toLowerCase e = e.
Proof.
destruct e as [|c w]; [discriminate|]. cbn [is_extension]. intros H.
apply andb_true_iff in H as [Hc Hw]. apply Ascii.eqb_eq in Hc. subst c.
exists w. split; [reflexivity|]. split.
- apply dotless_has_no_last_dot.
  eapply forallb_string_impl; [|exact Hw].
  intros d Hd. now apply andb_true_iff in Hd as [Hd _].
- unfold JsString.toLowerCase. cbn [JsString.map_string]. f_equal.
  clear -Hw. induction w as [|d w IH]; [reflexivity|].
  cbn [JsString.forallb_string JsString.map_string] in *.
  apply andb_true_iff in Hw as [Hd Hw].
  apply andb_true_iff in Hd as [_ Hd]. apply Ascii.eqb_eq in Hd.
  now rewrite Hd, (IH Hw).
Qed.

(** A string ends with an extension exactly when the extension is its
    part from the last dot on. *)
Lemma endsWith_extension (e s : string) :
  is_extension e = true ->
  JsString.endsWith s e
  = match from_last_dot s with
    | Some t => String.eqb t e
    | None => false
    end.
Proof.
intros He. destruct (@extension_shape e He) as [w [-> [Hw _]]].
induction s as [|d r IH]; [reflexivity|].
cbn [JsString.endsWith from_last_dot]. rewrite IH.
destruct (from_last_dot r) as [t|] eqn:Er.
- destruct (String.eqb_spec (String d r) (String "." w)) as [Heq|Hne];
    [|reflexivity].
  inversion Heq; subst. congruence.
- rewrite orb_false_r.
  destruct (Ascii.eqb_spec d ".") as [->|Hd]; [reflexivity|].
  apply String.eqb_neq. congruence.
Qed.

Lemma endsWith_lower_extension (e s : string) :
  is_extension e = true ->
  JsString.endsWith (JsString.toLowerCase s) e
  = String.eqb (getFileExtension s) e.
Proof.
intros He. rewrite (@endsWith_extension e (JsString.toLowerCase s) He), from_last_dot_lower.
rewrite getFileExtension_from_last_dot.
destruct (from_last_dot s) as [t|]; cbn [option_map]; [reflexivity|].
destruct e; [discriminate | reflexivity].
Qed.

Lemma existsb_extension (exts : list string) (s : string) :
  forallb is_extension exts = true ->
  existsb (fun ext => JsString.endsWith (JsString.toLowerCase s) ext) exts
  = existsb (String.eqb (getFileExtension s)) exts.
Proof.
induction exts as [|e r IH]; [reflexivity|].
cbn [forallb existsb]. intros H. apply andb_true_iff in H as [He Hr].
now rewrite (@endsWith_lower_extension e s He), (IH Hr).
Qed.

Lemma split_nonempty (s : string) (c : ascii) : split s c <> [].
Proof.
destruct s as [|d r]; cbn [split]; [discriminate|].
destruct (Ascii.eqb d c); [discriminate|].
destruct (split r c); discriminate.
Qed.

Lemma split_append (p q : string) (c : ascii) :
  split (p ++ String c q) c = split p c ++ split q c.
Proof.
induction p as [|d p IH]; cbn [append split].
- now rewrite Ascii.eqb_refl.
- rewrite IH. destruct (Ascii.eqb d c); [reflexivity|].
  pose proof (split_nonempty p c) as Hne.
  destruct (split p c) as [|part parts]; [congruence | reflexivity].
Qed.

Lemma split_without (s : string) (c : ascii) :
  has_no c s = true -> split s c = [s].
Proof.
unfold has_no. induction s as [|d r IH]; [reflexivity|].
cbn [JsString.forallb_string split]. intros H.
apply andb_true_iff in H as [Hd Hr]. apply negb_true_iff in Hd.
now rewrite Hd, (IH Hr).
Qed.

Lemma indexOf_without (s : string) (c : ascii) : forall i,
  has_no c s = true -> indexOf_from s c i = -1.
Proof.
unfold has_no. induction s as [|d r IH]; intros i H; [reflexivity|].
cbn [JsString.forallb_string indexOf_from] in *.
apply andb_true_iff in H as [Hd Hr]. apply negb_true_iff in Hd.
rewrite Hd. now apply IH.
Qed.

Lemma last_append (A : Type) (l1 l2 : list A) (d : A) :
  l2 <> [] -> last (l1 ++ l2) d = last l2 d.
Proof.
intros Hne. induction l1 as [|x l1 IH]; [reflexivity|].
cbn [app]. cbn [last].
destruct (l1 ++ l2) eqn:E; [|exact IH].
apply app_eq_nil in E as [_ E]. congruence.
Qed.

Lemma filename_after_slash (p n : string) :
  has_no "/" n = true -> has_no "?" n = true ->
  getFilenameFromUrl (p ++ String "/" n) = n.
Proof.
intros Hslash Hquery. unfold getFilenameFromUrl.
rewrite split_append, last_append by apply split_nonempty.
rewrite (@split_without n "/" Hslash). cbn [last].
unfold indexOf. now rewrite (@indexOf_without n "?" 0 Hquery).
Qed.

Lemma generateUrl_prefix (st : UrlGenerator.settings) (n : string) :
  UrlGenerator.generateUrl st n = (UrlGenerator.url_prefix st ++ n)%string.
Proof.
unfold UrlGenerator.generateUrl, UrlGenerator.url_prefix.
destruct (negb (String.eqb (UrlGenerator.customDomain st) ""));
  now repeat rewrite append_assoc.
Qed.

Lemma url_prefix_ends_with_slash (st : UrlGenerator.settings) :
  exists p, UrlGenerator.url_prefix st = (p ++ "/")%string.
Proof.
unfold UrlGenerator.url_prefix.
destruct (negb (String.eqb (UrlGenerator.customDomain st) "")).
- exists (UrlGenerator.customDomain st ++ "/" ++ UrlGenerator.bucket st)%string.
  now repeat rewrite append_assoc.
- eexists. repeat rewrite <- append_assoc. reflexivity.
Qed.

Lemma append_cancel (p a b : string) :
  (p ++ a)%string = (p ++ b)%string -> a = b.
Proof.
induction p as [|d p IH]; cbn; [trivial|]. intros H. inversion H. now apply IH.
Qed.

End FileNameFacts.

(** X18.  The three tests on a file name look at its extension only: a
    name is an image (a video, an audio file) exactly when
    [getFileExtension] of it is in the list of that type, and
    [getFileType] is the type the extension stands for. *)
Theorem extension_decides_file_type :
  forall (filename : string),
    let ext := FileNames.getFileExtension filename in
    FileUtils.isImageFile filename
    = existsb (String.eqb ext) FileUtils.IMAGE_EXTENSIONS
    /\ FileNames.isVideoFile filename
       = existsb (String.eqb ext) FileNames.VIDEO_EXTENSIONS
    /\ FileNames.isAudioFile filename
       = existsb (String.eqb ext) FileNames.AUDIO_EXTENSIONS
    /\ FileNames.getFileType filename = FileNames.type_of_extension ext.
Proof.
intros filename ext.
assert (Hi : FileUtils.isImageFile filename
             = existsb (String.eqb ext) FileUtils.IMAGE_EXTENSIONS)
  by (apply existsb_extension; reflexivity).
assert (Hv : FileNames.isVideoFile filename
             = existsb (String.eqb ext) FileNames.VIDEO_EXTENSIONS)
  by (apply existsb_extension; reflexivity).
assert (Ha : FileNames.isAudioFile filename
             = existsb (String.eqb ext) FileNames.AUDIO_EXTENSIONS)
  by (apply existsb_extension; reflexivity).
repeat split; try assumption.
unfold FileNames.getFileType, FileNames.type_of_extension.
now rewrite Hi, Hv, Ha.
Qed.

(** X19.  No file name is of two types: an image name is neither a video
    nor an audio name, and a video name is not an audio name, so the
    order of the tests in [getFileType] does not matter. *)
Theorem file_types_are_exclusive :
  forall (filename : string),
    (FileUtils.isImageFile filename = true ->
     FileNames.isVideoFile filename = false
     /\ FileNames.isAudioFile filename = false)
    /\ (FileNames.isVideoFile filename = true ->
        FileNames.isAudioFile filename = false).
Proof.
intros filename.
unfold FileUtils.isImageFile, FileNames.isVideoFile, FileNames.isAudioFile.
rewrite !existsb_extension by reflexivity.
generalize (FileNames.getFileExtension filename) as ext. intros ext.
split; intros H; apply existsb_exists in H as [e [Hin He]];
  apply String.eqb_eq in He; subst e;
  cbn in Hin; repeat (destruct Hin as [<-|Hin]; [now repeat split|]);
  contradiction.
Qed.

(** X20.  The file name read back from a generated URL is the object
    name, for an object name without a slash and without a question
    mark, whatever the settings are. *)
Theorem filename_of_generated_url :
  forall (st : UrlGenerator.settings) (objectName : string),
    FileNames.has_no "/" objectName = true ->
    FileNames.has_no "?" objectName = true ->
    FileNames.getFilenameFromUrl (UrlGenerator.generateUrl st objectName)
    = objectName.
Proof.
intros st objectName Hslash Hquery.
rewrite generateUrl_prefix.
destruct (url_prefix_ends_with_slash st) as [p ->].
rewrite append_assoc. now apply filename_after_slash.
Qed.

Lemma filename_of_generated_url_witness :
  FileNames.getFilenameFromUrl
    (UrlGenerator.generateUrl
       {| UrlGenerator.endpoint := "play.min.io";
          UrlGenerator.bucket := "photos";
          UrlGenerator.port := 9000;
          UrlGenerator.customDomain := "";
          UrlGenerator.useSSL := true |} "cat.png")
  = "cat.png".
Proof.
exact (@filename_of_generated_url _ "cat.png" eq_refl eq_refl).
Defined.

(** X21.  Two objects never share a URL: under the same settings the
    generated URL determines the object name, and it is the object name
    appended to a prefix that does not depend on it. *)
Theorem generated_url_determines_object :
  forall (st : UrlGenerator.settings) (n1 n2 : string),
    UrlGenerator.generateUrl st n1
    = (UrlGenerator.url_prefix st ++ n1)%string
    /\ (UrlGenerator.generateUrl st n1 = UrlGenerator.generateUrl st n2 ->
        n1 = n2).
Proof.
intros st n1 n2. split; [apply generateUrl_prefix|].
rewrite !generateUrl_prefix. apply append_cancel.
Qed.


(** ** The gallery view *)

Section GalleryFacts.
Import Types MinioGalleryView GalleryActions.

Lemma generateUrl_not_empty (st : UrlGenerator.settings) (n : string) :
  String.eqb (UrlGenerator.generateUrl st n) "" = false.
Proof.
rewrite generateUrl_prefix.
destruct (url_prefix_ends_with_slash st) as [p ->].
apply String.eqb_neq. intros H.
apply (f_equal String.length) in H. rewrite !length_append in H.
cbn in H. lia.
Qed.

Lemma get_after_set (key v : string) (e2 e3 : ImageCache.env)
  (c : ImageCache.state) :
  ImageCache.now e3 - ImageCache.now e2 <= ImageCache.CACHE_EXPIRY ->
  ImageCache.get key e3 (ImageCache.set key v e2 c)
  = (Some v, ImageCache.set key v e2 c).
Proof.
intros Hfresh. unfold ImageCache.get at 1. rewrite set_stores.
unfold ImageCache.expired. cbn [ImageCache.timestamp ImageCache.data].
replace (ImageCache.now e3 - ImageCache.now e2 >? ImageCache.CACHE_EXPIRY)
  with false; [reflexivity|].
symmetry. rewrite Z.gtb_ltb. apply Z.ltb_ge. exact Hfresh.
Qed.

Lemma update_same (v : view) :
  update (state v) (grid v) (notices v) (cache v) v = v.
Proof. now destruct v. Qed.

Lemma sync_rejected (c : ImageCache.state) (l : list MinioObject)
  (events : list SyncService.stream_event) (message : string) :
  SyncService.fetchRemoteObjects events = Rejected message ->
  SyncService.sync c l events = (c, Rejected message).
Proof. intros H. unfold SyncService.sync. now rewrite H. Qed.

Lemma sync_resolved (c : ImageCache.state) (l : list MinioObject)
  (events : list SyncService.stream_event) (objects : list MinioObject) :
  SyncService.fetchRemoteObjects events = Resolved objects ->
  exists c' changes,
    SyncService.sync c l events = (c', Resolved (objects, changes))
    /\ c' = SyncStream.invalidate (deleted changes) c.
Proof.
intros H.
destruct (SyncService.sync c l events) as [c' [[objs changes]|m|]] eqn:E.
- destruct (sync_cache _ _ _ E) as [_ [Hf Hc]].
  rewrite H in Hf. inversion Hf; subst objs. now exists c', changes.
- unfold SyncService.sync in E. rewrite H in E. discriminate.
- unfold SyncService.sync in E. rewrite H in E. discriminate.
Qed.

Lemma sync_keeps_miss (c c' : ImageCache.state) (l : list MinioObject)
  (events : list SyncService.stream_event)
  (p : promise (list MinioObject * SyncChanges)) (key : string) :
  SyncService.sync c l events = (c', p) ->
  JsMap.get key (ImageCache.imageCache c) = None ->
  JsMap.get key (ImageCache.imageCache c') = None.
Proof.
intros E Hmiss. destruct p as [[objs changes]|m|].
- destruct (sync_cache _ _ _ E) as [_ [_ ->]].
  rewrite invalidate_get, Hmiss. now destruct (existsb _ _).
- unfold SyncService.sync in E.
  destruct (SyncService.fetchRemoteObjects events); inversion E; congruence.
- unfold SyncService.sync in E.
  destruct (SyncService.fetchRemoteObjects events); inversion E; congruence.
Qed.

Lemma get_of_missing (key : string) (e : ImageCache.env)
  (c : ImageCache.state) :
  JsMap.get key (ImageCache.imageCache c) = None ->
  fst (ImageCache.get key e c) = None.
Proof. intros H. unfold ImageCache.get. now rewrite H. Qed.

Lemma without_spec (objectName : string) (l : list MinioObject)
  (obj : MinioObject) :
  In obj (without objectName l) <-> In obj l /\ name obj <> objectName.
Proof.
unfold without. rewrite filter_In, negb_true_iff, String.eqb_neq. tauto.
Qed.

End GalleryFacts.

Section GalleryInvariant.
Import Types MinioGalleryView GalleryActions.
Variable generateUrl : string -> string.
Variable t : string -> string.
Variable R : Type.
Variable newRegExp : string -> string + R.
Variable test : R -> string -> bool.

Lemma search_matched_known (urls urls' : JsMap.t string)
  (objects : list MinioObject) (searchText : string) (useRegex : bool)
  (result : SearchResult) (obj : MinioObject) :
  SearchService.search generateUrl t newRegExp test urls objects
    searchText useRegex = (urls', inr result) ->
  In obj (matchedObjects result) -> In obj objects.
Proof.
intros Hsearch Hin. unfold SearchService.search in Hsearch.
destruct (JsString.trim_is_empty searchText).
- inversion Hsearch; subst. exact Hin.
- assert (Hloop : forall accepts us matched,
             SearchService.search_loop generateUrl accepts objects urls []
             = (us, matched) ->
             forall o, In o matched -> In o objects).
  { intros accepts us matched Heq o Ho.
    pose proof (search_loop_sound generateUrl accepts objects urls [] o)
      as Hs.
    rewrite Heq in Hs. destruct (Hs Ho) as [[]|[H _]]. exact H. }
  destruct useRegex.
  + unfold SearchService.regexSearch in Hsearch.
    destruct (newRegExp _) as [message|regex]; [discriminate|].
    destruct (SearchService.search_loop generateUrl (test regex) objects
                urls []) as [us matched] eqn:Heq.
    inversion Hsearch; subst. cbn in Hin. exact (Hloop _ _ _ Heq _ Hin).
  + unfold SearchService.textSearch in Hsearch.
    destruct (SearchService.search_loop generateUrl _ objects urls [])
      as [us matched] eqn:Heq.
    inversion Hsearch; subst. cbn in Hin. exact (Hloop _ _ _ Heq _ Hin).
Qed.

Lemma loadGallery_known
  (renderImages : list MinioObject -> ImageCache.state -> ImageCache.state)
  (forceRefresh : bool) (currentTime : Z)
  (events : list SyncService.stream_event) (v : view) :
  shows_known_images v ->
  shows_known_images
    (loadGallery renderImages forceRefresh currentTime events v).
Proof.
intros Hv. unfold loadGallery.
destruct (isLoading (state v)); [exact Hv|].
destruct (negb forceRefresh && (currentTime - lastLoadTime v <? 60000))%bool;
  [exact Hv|].
cbv zeta. cbn [bucket cache state].
destruct (String.eqb (bucket v) ""); [exact Hv|].
cbn [set_isLoading remoteObjects].
destruct (SyncService.sync (cache v) (remoteObjects (state v)) events)
  as [c [[objects changes]|message|]]; [|exact Hv|exact Hv].
intros obj Hin. cbn in Hin |- *.
apply (Permutation_in _ (sort_desc_perm _)) in Hin.
now apply filter_In in Hin as [Hin _].
Qed.

Lemma handleSearch_known
  (renderImages : list MinioObject -> ImageCache.state -> ImageCache.state)
  (searchText : string) (v : view) :
  shows_known_images v ->
  shows_known_images
    (handleSearch generateUrl t newRegExp test renderImages searchText v).
Proof.
intros Hv. unfold handleSearch.
destruct (isLoading (state v)); [exact Hv|].
cbv zeta. destruct (JsString.trim_is_empty searchText).
- intros obj Hin. cbn in Hin |- *. now apply filter_In in Hin as [Hin _].
- cbn [set_search remoteObjects useRegexSearch].
  destruct (SearchService.search generateUrl t newRegExp test
              (allImageUrls v) (remoteObjects (state v)) searchText
              (useRegexSearch (state v))) as [urls [message|result]] eqn:E.
  + exact Hv.
  + intros obj Hin. cbn in Hin |- *.
    exact (@search_matched_known _ _ _ _ _ _ _ E Hin).
Qed.

End GalleryInvariant.

(** X22.  The gallery memoises object URLs in the image cache: when the
    cache has no entry for an object, [getObjectUrl] returns the URL the
    generator builds and stores it, and every later call made while the
    entry is no older than [CACHE_EXPIRY] returns that same URL and
    leaves the cache as it is, also when the generator works with other
    settings by then. *)
Theorem object_url_is_memoised :
  forall (st st' : UrlGenerator.settings) (objectName : string)
         (e1 e2 e3 e4 : ImageCache.env) (c : ImageCache.state),
    fst (ImageCache.get objectName e1 c) = None ->
    ImageCache.now e3 - ImageCache.now e2 <= ImageCache.CACHE_EXPIRY ->
    let r := GalleryActions.getObjectUrl (UrlGenerator.generateUrl st)
               objectName e1 e2 c in
    fst r = UrlGenerator.generateUrl st objectName
    /\ GalleryActions.getObjectUrl (UrlGenerator.generateUrl st')
         objectName e3 e4 (snd r) = r.
Proof.
intros st st' objectName e1 e2 e3 e4 c Hmiss Hfresh r.
assert (Hr : r = (UrlGenerator.generateUrl st objectName,
                  ImageCache.set objectName
                    (UrlGenerator.generateUrl st objectName) e2
                    (snd (ImageCache.get objectName e1 c)))).
{ subst r. unfold GalleryActions.getObjectUrl.
  destruct (ImageCache.get objectName e1 c) as [cached c1].
  cbn [fst] in Hmiss. now subst cached. }
clearbody r. subst r. cbn [fst snd]. split; [reflexivity|].
unfold GalleryActions.getObjectUrl.
rewrite (@get_after_set objectName _ e2 e3 _ Hfresh).
now rewrite generateUrl_not_empty.
Qed.

Lemma object_url_is_memoised_witness :
  let old := {| UrlGenerator.endpoint := "play.min.io";
                UrlGenerator.bucket := "photos";
                UrlGenerator.port := 9000;
                UrlGenerator.customDomain := "";
                UrlGenerator.useSSL := true |} in
  let new := {| UrlGenerator.endpoint := "play.min.io";
                UrlGenerator.bucket := "photos";
                UrlGenerator.port := 443;
                UrlGenerator.customDomain := "cdn.example.org";
                UrlGenerator.useSSL := true |} in
  let at_ms := fun n => {| ImageCache.now := n; ImageCache.setItem_ok := true |} in
  let r := GalleryActions.getObjectUrl (UrlGenerator.generateUrl old)
             "cat.png" (at_ms 1000) (at_ms 1000) ImageCache.initial in
  fst r = "https://play.min.io:9000/photos/cat.png"
  /\ fst (GalleryActions.getObjectUrl (UrlGenerator.generateUrl new)
            "cat.png" (at_ms 5000) (at_ms 5000) (snd r))
     = "https://play.min.io:9000/photos/cat.png".
Proof.
intros old new at_ms r.
destruct (@object_url_is_memoised old new "cat.png"
            (at_ms 1000) (at_ms 1000) (at_ms 5000) (at_ms 5000)
            ImageCache.initial eq_refl ltac:(vm_compute; discriminate))
  as [Hfirst Hsecond].
split; [exact Hfirst|].
change (GalleryActions.getObjectUrl (UrlGenerator.generateUrl old)
          "cat.png" (at_ms 1000) (at_ms 1000) ImageCache.initial)
  with r in Hsecond.
rewrite Hsecond. exact Hfirst.
Defined.

(** X23.  What confirming a deletion does.  When the server refuses to
    remove the object, the lists, the cache and the grid stay as they
    were and the notice says that the deletion failed.  When the server
    removed it, no visible image has that name any more and the cache
    misses it, whatever the following sync does; if that sync fails, the
    known objects lose the name as well, yet the notice still says that
    the deletion failed; if it succeeds, the known objects are the fresh
    listing and the notice reports success. *)
Theorem confirmed_delete_outcomes :
  forall (t : string -> string) (objectName : string) (element : option nat)
         (events : list SyncService.stream_event)
         (v : MinioGalleryView.view),
    (forall message,
       let v' := GalleryActions.confirmDelete t objectName element
                   (Types.Rejected message) events v in
       MinioGalleryView.state v' = MinioGalleryView.state v
       /\ MinioGalleryView.cache v' = MinioGalleryView.cache v
       /\ MinioGalleryView.grid v' = MinioGalleryView.grid v
       /\ MinioGalleryView.notices v'
          = MinioGalleryView.notices v ++ [t "Delete failed"])
    /\ (let v' := GalleryActions.confirmDelete t objectName element
                    (Types.Resolved tt) events v in
        (forall obj,
           In obj (Types.visibleImages (MinioGalleryView.state v')) ->
           In obj (Types.visibleImages (MinioGalleryView.state v))
           /\ Types.name obj <> objectName)
        /\ (forall e,
              fst (ImageCache.get objectName e (MinioGalleryView.cache v'))
              = None)
        /\ (forall message,
              SyncService.fetchRemoteObjects events = Types.Rejected message ->
              (forall obj,
                 In obj (Types.remoteObjects (MinioGalleryView.state v')) ->
                 Types.name obj <> objectName)
              /\ MinioGalleryView.notices v'
                 = MinioGalleryView.notices v ++ [t "Delete failed"])
        /\ (forall objects,
              SyncService.fetchRemoteObjects events = Types.Resolved objects ->
              Types.remoteObjects (MinioGalleryView.state v') = objects
              /\ MinioGalleryView.notices v'
                 = MinioGalleryView.notices v ++ [t "Delete success"])).
Proof.
intros t objectName element events v. split.
- intros message v'. subst v'. cbn. now repeat split.
- cbv zeta. unfold GalleryActions.confirmDelete.
  cbn [GalleryActions.deleteObject].
  set (s1 := MinioGalleryView.set_visibleImages _ _).
  set (c2 := ImageCache.delete objectName _).
  assert (Hmiss : JsMap.get objectName (ImageCache.imageCache c2) = None).
  { subst c2. cbn [ImageCache.delete ImageCache.scheduleSave
                   ImageCache.imageCache]. apply get_delete_same. }
  assert (Hvis : Types.visibleImages s1
                 = GalleryActions.without objectName
                     (Types.visibleImages (MinioGalleryView.state v)))
    by reflexivity.
  assert (Hrem : Types.remoteObjects s1
                 = GalleryActions.without objectName
                     (Types.remoteObjects (MinioGalleryView.state v)))
    by reflexivity.
  clearbody s1 c2.
  destruct (SyncService.sync c2 (Types.remoteObjects s1) events)
    as [c3 p] eqn:E.
  pose proof (@sync_keeps_miss c2 c3 _ events p objectName E Hmiss)
    as Hmiss3.
  split; [|split; [|split]].
  + intros obj Hin.
    destruct p as [[objects changes]|m|]; cbn in Hin;
      rewrite Hvis in Hin; now apply without_spec in Hin.
  + intros e. apply get_of_missing.
    destruct p as [[objects changes]|m|]; exact Hmiss3.
  + intros message H.
    rewrite (@sync_rejected c2 _ events message H) in E.
    inversion E; subst. cbn. split; [|reflexivity].
    intros obj Hin. rewrite Hrem in Hin.
    now apply without_spec in Hin as [_ Hne].
  + intros objects H.
    destruct (@sync_resolved c2 (Types.remoteObjects s1) events objects H)
      as [c' [changes [E' _]]].
    rewrite E' in E. inversion E; subst. cbn. now split.
Qed.

(** X24.  One run of the sync timer.  It never touches the grid, the
    notices or the indicators.  When the listing fails, the view is left
    exactly as it was.  When it succeeds, the known objects become the
    fresh listing; the visible images become the image files of that
    listing, unless a search is shown, in which case they stay. *)
Theorem auto_sync_outcomes :
  forall (events : list SyncService.stream_event)
         (v : MinioGalleryView.view),
    let v' := GalleryActions.autoSync events v in
    MinioGalleryView.grid v' = MinioGalleryView.grid v
    /\ MinioGalleryView.notices v' = MinioGalleryView.notices v
    /\ MinioGalleryView.indicators v' = MinioGalleryView.indicators v
    /\ (forall message,
          SyncService.fetchRemoteObjects events = Types.Rejected message ->
          v' = v)
    /\ (forall objects,
          SyncService.fetchRemoteObjects events = Types.Resolved objects ->
          Types.remoteObjects (MinioGalleryView.state v') = objects
          /\ (Types.isSearching (MinioGalleryView.state v) = true ->
              Types.visibleImages (MinioGalleryView.state v')
              = Types.visibleImages (MinioGalleryView.state v))
          /\ (Types.isSearching (MinioGalleryView.state v) = false ->
              forall obj,
                In obj (Types.visibleImages (MinioGalleryView.state v'))
                <-> In obj objects
                    /\ MinioGalleryView.isImageFile (Types.name obj) = true)).
Proof.
intros events v v'. subst v'. unfold GalleryActions.autoSync.
destruct (SyncService.sync (MinioGalleryView.cache v)
            (Types.remoteObjects (MinioGalleryView.state v)) events)
  as [c p] eqn:E.
split; [now destruct p as [[objects changes]|m|]|].
split; [now destruct p as [[objects changes]|m|]|].
split; [now destruct p as [[objects changes]|m|]|].
split.
- intros message H. rewrite (@sync_rejected _ _ events message H) in E.
  inversion E; subst. apply update_same.
- intros objects H.
  destruct (@sync_resolved (MinioGalleryView.cache v)
              (Types.remoteObjects (MinioGalleryView.state v)) events
              objects H) as [c' [changes [E' _]]].
  rewrite E' in E. inversion E; subst. cbv zeta.
  cbn [MinioGalleryView.set_remoteObjects Types.isSearching].
  destruct (Types.isSearching (MinioGalleryView.state v)); cbn.
  + repeat split; discriminate.
  + split; [reflexivity|]. split; [discriminate|].
    intros _ obj. apply filter_In.
Qed.

(** X25.  Loading the gallery and searching keep the view consistent:
    when every visible image is one of the known objects before
    [loadGallery] or [handleSearch] runs, it is so afterwards, whether
    the call returns early, fails or succeeds. *)
Theorem visible_images_stay_known :
  forall (generateUrl t : string -> string) (R : Type)
         (newRegExp : string -> string + R) (test : R -> string -> bool)
         (renderImages :
            list Types.MinioObject -> ImageCache.state -> ImageCache.state)
         (forceRefresh : bool) (currentTime : Z)
         (events : list SyncService.stream_event) (searchText : string)
         (v : MinioGalleryView.view),
    GalleryActions.shows_known_images v ->
    GalleryActions.shows_known_images
      (MinioGalleryView.loadGallery renderImages forceRefresh currentTime
         events v)
    /\ GalleryActions.shows_known_images
         (MinioGalleryView.handleSearch generateUrl t newRegExp test
            renderImages searchText v).
Proof.
intros generateUrl t R newRegExp test renderImages forceRefresh currentTime
       events searchText v Hv.
split; [now apply loadGallery_known | now apply handleSearch_known].
Qed.

Lemma visible_images_stay_known_witness :
  let cat := {| Types.name := "cat.png"; Types.lastModified := Some 2 |} in
  let v :=
    {| MinioGalleryView.state :=
         {| Types.remoteObjects := [cat]; Types.visibleImages := [cat];
            Types.isSearching := false; Types.savedSearchTerm := "";
            Types.useRegexSearch := false;
            Types.currentPreviewIndex := None;
            Types.isLoading := false |};
       MinioGalleryView.lastLoadTime := 0;
       MinioGalleryView.bucket := "photos";
       MinioGalleryView.grid := None;
       MinioGalleryView.indicators := [];
       MinioGalleryView.notices := [];
       MinioGalleryView.cache := ImageCache.initial;
       MinioGalleryView.allImageUrls := JsMap.empty |} in
  GalleryActions.shows_known_images
    (MinioGalleryView.loadGallery (fun _ c => c) true 100000
       (SyncService.listing [cat]) v)
  /\ GalleryActions.shows_known_images
       (MinioGalleryView.handleSearch (fun n => n) (fun s => s)
          RegExpModel.RegExp_i RegExpModel.test (fun _ c => c) "cat" v).
Proof.
intros cat v.
apply (@visible_images_stay_known (fun n => n) (fun s => s) _
         RegExpModel.RegExp_i RegExpModel.test (fun _ c => c) true 100000
         (SyncService.listing [cat]) "cat" v).
intros obj Hin. exact Hin.
Defined.

(** X26.  The gallery's own test for image files is the one of
    [FileUtils] without the extensions [.bmp] and [.svg]: a listing never
    shows such a file, although the search, which uses the test of
    [FileUtils], finds it. *)
Theorem gallery_image_test_is_stricter :
  forall (filename : string),
    MinioGalleryView.isImageFile filename
    = (FileUtils.isImageFile filename
       && negb (existsb (String.eqb (FileNames.getFileExtension filename))
                  [".bmp"; ".svg"]))%bool.
Proof.
intros filename.
unfold MinioGalleryView.isImageFile, FileUtils.isImageFile,
  FileUtils.IMAGE_EXTENSIONS.
rewrite !existsb_extension by reflexivity.
generalize (FileNames.getFileExtension filename) as ext. intros ext.
cbn [existsb].
repeat match goal with
       | |- context [String.eqb ext ?s] =>
           destruct (String.eqb_spec ext s) as [->|?]; [reflexivity|]
       end.
reflexivity.
Qed.

(** X27.  The URL that the upload writes into the note for an object is
    the URL under which the gallery shows that object: the two functions
    that build it, [UploadService.generateAccessUrl] and
    [UrlGenerator.generateUrl], agree on all settings and object
    names. *)
Theorem upload_url_is_gallery_url :
  forall (st : UrlGenerator.settings) (objectName : string),
    UploadService.generateAccessUrl st objectName
    = UrlGenerator.generateUrl st objectName.
Proof.
intros st objectName.
unfold UploadService.generateAccessUrl, UrlGenerator.generateUrl.
destruct (negb (String.eqb (UrlGenerator.customDomain st) ""));
  [reflexivity|].
cbv zeta. now repeat rewrite append_assoc.
Qed.
